(** * Monte Carlo tree search: [mcts_vanilla.py] and [mcts_modified.py]

    A shallow embedding of the two search engines and the properties of
    their tree statistics.

    Python objects are mutable and shared, so the search tree lives in an
    explicit store ([Heap]): a node reference is its index in the store,
    [MCTSNode(...)] appends a fresh node, and an attribute assignment is an
    update at that index.  Exceptions are values of [exn] threaded through
    the [result] monad.  The [while] loops take a [fuel] argument and raise
    [OutOfFuel] when it runs out; the recursion of [backpropagate] takes
    the number of frames that the interpreter has left and raises
    [RecursionError] when they are used up. *)

From Stdlib Require Import ZArith Lia Floats Reals Lra Factorial.
From stdpp Require Import base tactics option list.

Local Open Scope Z_scope.
Set Warnings "-inexact-float".

(** ** Exceptions *)

(** The two functions of [math] that raise "math domain error". *)
Inductive math_fn := Log | Sqrt.

Inductive exn :=
  | ZeroDivisionError            (* [x / 0] *)
  | ValueError (f : math_fn)     (* [log] of a number [<= 0], [sqrt] of a number [< 0] *)
  | IndexError                   (* [l[0]] or [choice(l)] on an empty list *)
  | KeyError                     (* [d[k]] for a key that [d] does not hold *)
  | NoneTypeError                (* an attribute or an action read off [None] *)
  | AssertionError               (* the [assert] of [is_win] *)
  | RecursionError               (* [backpropagate] recurses deeper than the interpreter allows *)
  | BadReference                 (* a node index outside the store (no Python counterpart) *)
  | OutOfFuel.                   (* the bound of a [while] loop of the model is used up *)

Inductive result (A : Type) :=
  | Ok (a : A)
  | Raise (e : exn).
Arguments Ok {A} a.
Arguments Raise {A} e.

#[global] Instance result_ret : MRet result := fun A a => Ok a.
#[global] Instance result_bind : MBind result := fun A B f m =>
  match m with
  | Ok a => f a
  | Raise e => Raise e
  end.

(** A [for] loop whose body may raise: the loop state is threaded through
    the elements in order and the first exception ends the loop. *)
Fixpoint for_each {A S : Type} (body : S → A → result S) (init : S) (l : list A)
  : result S :=
  match l with
  | [] => Ok init
  | x :: rest => s ← body init x; for_each body s rest
  end.

(** ** Python dictionaries

    A [dict] keeps its keys in insertion order and holds each key once:
    an association list in which [d[k] = v] overwrites the entry of [k] in
    place when there is one and appends a new entry otherwise. *)
Section Dict.
Context {K V : Type} `{EqDecision K}.

Fixpoint dict_get (d : list (K * V)) (k : K) : result V :=
  match d with
  | [] => Raise KeyError
  | (k', v) :: rest => if decide (k' = k) then Ok v else dict_get rest k
  end.

Fixpoint dict_set (d : list (K * V)) (k : K) (v : V) : list (K * V) :=
  match d with
  | [] => [(k, v)]
  | (k', v') :: rest =>
      if decide (k' = k) then (k, v) :: rest else (k', v') :: dict_set rest k v
  end.

Definition keys (d : list (K * V)) : list K := d.*1.
End Dict.

(** ** Floating-point arithmetic

    The operations of Python's [float] and of [math] that the engine uses.
    [of_int] is the conversion of an [int] operand, [lit_2_71828] the
    literal [2.71828], [fgt x y] the comparison [x > y].  The operations
    are total here: the places where Python raises are decided on the
    integer operands and are written out where the engine divides, takes a
    logarithm or a square root ([py_div], [py_log], [py_sqrt] below). *)
Class PyFloat (F : Type) := {
  of_int : Z → F;
  lit_2_71828 : F;
  fadd : F → F → F;
  fsub : F → F → F;
  fmul : F → F → F;
  fdiv : F → F → F;
  flog : F → F;
  fsqrt : F → F;
  fgt : F → F → bool;
}.

(** *** IEEE 754 binary64, the format of Python's [float]

    Sums, differences, products, quotients, square roots and comparisons are
    the correctly rounded ones of the format.  [math.log] is the logarithm
    of the C library, whose last digit depends on the platform; [float_ln]
    computes the logarithm to the precision of the format. *)

(** The conversion of an [int]; exact below [2^53] in absolute value. *)
Definition float_of_Z (z : Z) : float :=
  match z with
  | Z0 => PrimFloat.zero
  | Zpos _ => PrimFloat.of_uint63 (Uint63.of_Z z)
  | Zneg p => PrimFloat.opp (PrimFloat.of_uint63 (Uint63.of_Z (Zpos p)))
  end.

(** [sum_{i < n} t2^i / (k + 2 i)], by Horner's rule. *)
Fixpoint atanh_series (n : nat) (k : Z) (t2 : float) : float :=
  match n with
  | O => PrimFloat.zero
  | S n' => (PrimFloat.one / float_of_Z k + t2 * atanh_series n' (k + 2) t2)%float
  end.

(** The natural logarithm of a positive binary64 number [x = m * 2^e], with
    [m] brought into [[0.707, 1.414)]:
    [e * ln 2 + 2 * atanh ((m - 1) / (m + 1))].  The series is cut after 20
    terms, below the rounding error of the format; [log(1)] is [0.0]. *)
Definition float_ln (x : float) : float :=
  let (m0, e0) := FloatOps.Z.frexp x in
  let (m, e) := if (m0 <? 0.70703125)%float then ((m0 * 2)%float, e0 - 1) else (m0, e0) in
  let t := ((m - 1) / (m + 1))%float in
  (float_of_Z e * 0x1.62e42fefa39efp-1 + 2 * t * atanh_series 20 1 (t * t))%float.

#[global] Instance float64 : PyFloat float := {|
  of_int := float_of_Z;
  lit_2_71828 := 2.71828%float;
  fadd := PrimFloat.add;
  fsub := PrimFloat.sub;
  fmul := PrimFloat.mul;
  fdiv := PrimFloat.div;
  flog := float_ln;
  fsqrt := PrimFloat.sqrt;
  fgt := fun x y => PrimFloat.ltb y x;
|}.

(** *** Exact real arithmetic: the numbers the floats approximate *)

#[global] Instance exact_real : PyFloat R := {|
  of_int := IZR;
  lit_2_71828 := (271828 / 100000)%R;
  fadd := Rplus;
  fsub := Rminus;
  fmul := Rmult;
  fdiv := Rdiv;
  flog := ln;
  fsqrt := sqrt;
  fgt := fun x y => if Rlt_dec y x then true else false;
|}.

(** ** The engine *)

Definition num_nodes : nat := 1000.
Definition explore_faction : Z := 2.

(** A node reference: the index of the node in the store. *)
Abbreviation node_id := nat (only parsing).

Section Engine.
Context {F : Type} `{PyFloat F}.
Context {Action State Box : Type} `{EqDecision Action} `{EqDecision Box}.

(** Modelled from the spec: the class [MCTSNode] of [mcts_node.py], which is
    not among the sources.  The fields are those of the spec's data model
    (section 3); [MCTSNode_new] is the constructor call
    [MCTSNode(parent, parent_action, action_list)]: no children, the action
    list as the untried actions, both counters at zero. *)
Record MCTSNode := mkNode {
  parent : option node_id;
  parent_action : option Action;
  child_nodes : list (Action * node_id);
  untried_actions : list Action;
  wins : Z;
  visits : Z;
}.

Definition MCTSNode_new (parent : option node_id) (parent_action : option Action)
    (action_list : list Action) : MCTSNode :=
  {| parent := parent; parent_action := parent_action; child_nodes := [];
     untried_actions := action_list; wins := 0; visits := 0 |}.

(** The store: the nodes by index. *)
Local Abbreviation Heap := (list MCTSNode) (only parsing).

Definition deref (h : Heap) (i : node_id) : result MCTSNode :=
  match h !! i with
  | Some n => Ok n
  | None => Raise BadReference
  end.

(** The game model [Board] of [p2_t3.py], an external collaborator: the
    engine only calls these methods.  [points_values] is [None] on a state
    that is not terminal; a state is never mutated. *)
Record Board := {
  current_player : State → Z;
  legal_actions : State → list Action;
  next_state : State → Action → State;
  is_ended : State → bool;
  points_values : State → option (list (Z * Z));
  owned_boxes : State → list (Box * Z);
}.

Variable board : Board.

(** *** Where Python's arithmetic raises *)

(** [a / b] on two [int]s. *)
Definition py_div (a b : Z) : result F :=
  if decide (b = 0) then Raise ZeroDivisionError
  else Ok (fdiv (of_int a) (of_int b)).

(** [x / b] for a [float] [x] and an [int] [b]. *)
Definition py_fdiv (x : F) (b : Z) : result F :=
  if decide (b = 0) then Raise ZeroDivisionError
  else Ok (fdiv x (of_int b)).

(** [log(n)] on an [int]. *)
Definition py_log (n : Z) : result F :=
  if decide (n ≤ 0) then Raise (ValueError Log)
  else Ok (flog (of_int n)).

(** [sqrt(x)]. *)
Definition py_sqrt (x : F) : result F :=
  if fgt (of_int 0) x then Raise (ValueError Sqrt)
  else Ok (fsqrt x).

(** *** [ucb] *)

(** The divisor [log(2.71828)] is a constant that is not zero, so the first
    division cannot raise. *)
Definition ucb (h : Heap) (node : node_id) (is_opponent : bool) : result F :=
  n ← deref h node;
  match parent n with
  | None => Ok (of_int (-1))
  | Some p =>
      pn ← deref h p;
      lg ← py_log (visits pn);
      let natural_log := fdiv lg (flog lit_2_71828) in
      rate ← py_div (wins n) (visits n);
      let exploit := if is_opponent then fsub (of_int 1) rate else rate in
      q ← py_fdiv natural_log (visits n);
      root ← py_sqrt q;
      let explore := fmul (of_int explore_faction) root in
      Ok (fadd exploit explore)
  end.

(** *** [get_best_action] *)

(** The loop state: [val], [visit] and [chosen_move]. *)
Definition best_so_far : Type := F * Z * option Action.

Definition best_init : best_so_far := (of_int (-1000000000), -1, None).

Definition get_best_action_body (h : Heap) (acc : best_so_far)
    (entry : Action * node_id) : result best_so_far :=
  let '(val, visit, chosen_move) := acc in
  let '(instances, child) := entry in
  c ← deref h child;
  rate ← py_div (wins c) (visits c);
  if fgt rate val then
    if decide (visits c > visit) then Ok (rate, visits c, Some instances)
    else Ok acc
  else Ok acc.

Definition get_best_action (h : Heap) (root_node : node_id) : result (option Action) :=
  r ← deref h root_node;
  acc ← for_each (get_best_action_body h) best_init (child_nodes r);
  Ok acc.2.

(** *** Attribute assignments *)

Definition set_visits (n : MCTSNode) (v : Z) : MCTSNode :=
  {| parent := parent n; parent_action := parent_action n;
     child_nodes := child_nodes n; untried_actions := untried_actions n;
     wins := wins n; visits := v |}.

Definition set_wins (n : MCTSNode) (w : Z) : MCTSNode :=
  {| parent := parent n; parent_action := parent_action n;
     child_nodes := child_nodes n; untried_actions := untried_actions n;
     wins := w; visits := visits n |}.

Definition set_untried_actions (n : MCTSNode) (l : list Action) : MCTSNode :=
  {| parent := parent n; parent_action := parent_action n;
     child_nodes := child_nodes n; untried_actions := l;
     wins := wins n; visits := visits n |}.

Definition set_child_nodes (n : MCTSNode) (d : list (Action * node_id)) : MCTSNode :=
  {| parent := parent n; parent_action := parent_action n;
     child_nodes := d; untried_actions := untried_actions n;
     wins := wins n; visits := visits n |}.

(** *** [traverse_nodes] *)

(** The state of the inner [for] loop: [uct_val], and [chosen_node] with
    [chosen_move], which are assigned together. *)
Definition selection : Type := F * option (node_id * Action).

Definition selection_init : selection := (of_int (-1000000000), None).

Definition traverse_nodes_body (h : Heap) (is_opponent : bool) (acc : selection)
    (entry : Action * node_id) : result selection :=
  let '(instances, child) := entry in
  u ← ucb h child is_opponent;
  if fgt u acc.1 then Ok (u, Some (child, instances)) else Ok acc.

(** When the [for] loop chooses nothing, [starter] becomes [None] and the
    next access through it fails: [NoneTypeError]. *)
Fixpoint traverse_nodes (fuel : nat) (h : Heap) (starter : node_id)
    (current_game : State) (current_identity bot_identity : Z)
  : result (node_id * State) :=
  match fuel with
  | O => Raise OutOfFuel
  | S fuel' =>
      n ← deref h starter;
      if bool_decide (untried_actions n = []) && negb (is_ended board current_game)
      then
        sel ← for_each
                (traverse_nodes_body h (bool_decide (current_identity ≠ bot_identity)))
                selection_init (child_nodes n);
        match sel.2 with
        | None => Raise NoneTypeError
        | Some (chosen_node, chosen_move) =>
            traverse_nodes fuel' h chosen_node
              (next_state board current_game chosen_move)
              (if decide (current_identity = 2) then 1 else 2) bot_identity
        end
      else Ok (starter, current_game)
  end.

(** *** [expand_leaf] *)

(** The new node gets the next free index of the store. *)
Definition expand_leaf (h : Heap) (node : node_id) (state : State)
  : result (Heap * node_id * State) :=
  if is_ended board state then Ok (h, node, state)
  else
    n ← deref h node;
    match untried_actions n with
    | [] => Raise IndexError
    | move_chosen :: rest =>
        let current_game := next_state board state move_chosen in
        let new_node : node_id := length h in
        let created :=
          MCTSNode_new (Some node) (Some move_chosen) (legal_actions board current_game) in
        let n' :=
          set_child_nodes (set_untried_actions n rest)
            (dict_set (child_nodes n) move_chosen new_node) in
        Ok (<[node := n']> h ++ [created], new_node, current_game)
    end.

(** *** [backpropagate] *)

(** The function calls itself once for each node of the path to the root.
    [frames] is the number of calls that the interpreter still allows, the
    recursion limit (1000 unless the program changes it) less the frames in
    use at the call; a call beyond them raises [RecursionError].  The
    exception ends the run: the store it leaves, in which the nodes below
    the failing call have their counters updated, is not returned. *)
Fixpoint backpropagate (frames : nat) (h : Heap) (node : node_id) (won : bool)
  : result Heap :=
  match frames with
  | O => Raise RecursionError
  | S frames' =>
      n ← deref h node;
      let n1 := set_visits n (visits n + 1) in
      match parent n with
      | None => Ok (<[node := n1]> h)
      | Some p =>
          let n2 := set_wins n1 (wins n1 + (if won then 1 else 0)) in
          backpropagate frames' (<[node := n2]> h) p won
      end
  end.

(** *** [is_win] *)

Definition is_win (state : State) (identity_of_bot : Z) : result bool :=
  match points_values board state with
  | None => Raise AssertionError
  | Some outcome =>
      score ← dict_get outcome identity_of_bot;
      Ok (bool_decide (score = 1))
  end.

(** *** Random choices

    The random source is a sequence [rand] of natural numbers, read at a
    position that every call of [choice] advances; [choice(l)] is the
    element of [l] at the number read, modulo the length of [l]. *)
Variable rand : nat → nat.

Definition choice {A : Type} (tick : nat) (l : list A) : result A :=
  match l !! (rand tick mod length l)%nat with
  | Some x => Ok x
  | None => Raise IndexError
  end.

(** *** [rollout] of [mcts_vanilla.py] *)

Fixpoint rollout (fuel : nat) (current_game : State) (tick : nat)
  : result (State * nat) :=
  match fuel with
  | O => Raise OutOfFuel
  | S fuel' =>
      if is_ended board current_game then Ok (current_game, tick)
      else
        move_chosen ← choice tick (legal_actions board current_game);
        rollout fuel' (next_state board current_game move_chosen) (S tick)
  end.

(** *** [heuristic] and [rollout] of [mcts_modified.py] *)

(** One pass of the inner loop over the boxes: [true] when a [return] is
    reached.  [and] evaluates its right operand only when the left one
    holds, so no box is looked up for an identity other than 1 and 2. *)
Definition heuristic_box (bot_identity : Z) (avail_prev avail_next : list (Box * Z))
    (mini : Box) : result bool :=
  if decide (bot_identity = 1) then
    p ← dict_get avail_prev mini;
    n ← dict_get avail_next mini;
    Ok (bool_decide (p ≠ n) && bool_decide (n = 1))
  else if decide (bot_identity = 2) then
    p ← dict_get avail_prev mini;
    n ← dict_get avail_next mini;
    Ok (bool_decide (p ≠ n) && bool_decide (n = 2))
  else Ok false.

Fixpoint heuristic_boxes (bot_identity : Z) (avail_prev avail_next : list (Box * Z))
    (minis : list Box) : result bool :=
  match minis with
  | [] => Ok false
  | mini :: rest =>
      hit ← heuristic_box bot_identity avail_prev avail_next mini;
      if (hit : bool) then Ok true else heuristic_boxes bot_identity avail_prev avail_next rest
  end.

Fixpoint heuristic (state : State) (moves : list Action) (bot_identity : Z)
  : result (option Action) :=
  match moves with
  | [] => Ok None
  | instances :: rest =>
      let next := next_state board state instances in
      let avail_prev := owned_boxes board state in
      let avail_next := owned_boxes board next in
      hit ← heuristic_boxes bot_identity avail_prev avail_next (keys avail_prev);
      if (hit : bool) then Ok (Some instances) else heuristic state rest bot_identity
  end.

(** [state] is the argument of [rollout] and stays what it was at the call;
    [current_game] is the state the loop advances. *)
Fixpoint rollout_modified_loop (fuel : nat) (state current_game : State)
    (bot_identity : Z) (tick : nat) : result (State * nat) :=
  match fuel with
  | O => Raise OutOfFuel
  | S fuel' =>
      if is_ended board current_game then Ok (current_game, tick)
      else
        found ← heuristic state (legal_actions board current_game) bot_identity;
        match found with
        | Some move_chosen =>
            rollout_modified_loop fuel' state
              (next_state board current_game move_chosen) bot_identity tick
        | None =>
            move_chosen ← choice tick (legal_actions board current_game);
            rollout_modified_loop fuel' state
              (next_state board current_game move_chosen) bot_identity (S tick)
        end
  end.

Definition rollout_modified (fuel : nat) (state : State) (bot_identity : Z)
    (tick : nat) : result (State * nat) :=
  rollout_modified_loop fuel state state bot_identity tick.

(** *** [think] *)

(** The two files differ in the rollout they call. *)
Inductive variant := Vanilla | Modified.

Definition rollout_of (v : variant) (fuel : nat) (state : State) (bot_identity : Z)
    (tick : nat) : result (State * nat) :=
  match v with
  | Vanilla => rollout fuel state tick
  | Modified => rollout_modified fuel state bot_identity tick
  end.

(** The root is the first node of the store. *)
Definition root_node : node_id := 0%nat.

(** The frames that the interpreter has left when [think] calls
    [backpropagate].  The other calls of a pass ([traverse_nodes] and its
    [ucb], [expand_leaf], the rollout, [is_win], the game model) nest to a
    depth that does not grow with the tree; the interpreter is taken to
    have room for them. *)
Variable frames : nat.

(** The body of the [for] loop of [think]; the store and the position in
    the random source are what one pass hands to the next. *)
Definition think_body (v : variant) (fuel : nat) (current_state : State)
    (bot_identity : Z) (st : Heap * nat) : result (Heap * nat) :=
  '(node, state) ← traverse_nodes fuel st.1 root_node current_state
                     bot_identity bot_identity;
  '(h1, node, state) ← expand_leaf st.1 node state;
  '(state, tick) ← rollout_of v fuel state bot_identity st.2;
  won ← is_win state bot_identity;
  h2 ← backpropagate frames h1 node won;
  Ok (h2, tick).

Fixpoint think_loop (v : variant) (fuel : nat) (current_state : State)
    (bot_identity : Z) (budget : nat) (st : Heap * nat) : result (Heap * nat) :=
  match budget with
  | O => Ok st
  | S budget' =>
      st' ← think_body v fuel current_state bot_identity st;
      think_loop v fuel current_state bot_identity budget' st'
  end.

(** The search tree after [budget] passes of the loop. *)
Definition think_tree (v : variant) (fuel : nat) (current_state : State)
    (budget : nat) : result Heap :=
  let bot_identity := current_player board current_state in
  let root := MCTSNode_new None None (legal_actions board current_state) in
  st ← think_loop v fuel current_state bot_identity budget ([root], 0%nat);
  Ok st.1.

Definition think (v : variant) (fuel : nat) (current_state : State)
  : result (option Action) :=
  h ← think_tree v fuel current_state num_nodes;
  get_best_action h root_node.

End Engine.

Arguments MCTSNode : clear implicits.
Abbreviation Heap Action := (list (MCTSNode Action)) (only parsing).
Arguments Board : clear implicits.
Arguments best_so_far : clear implicits.
Arguments selection : clear implicits.

(** The float type is not determined by the type of these functions and is
    given with each call. *)
Arguments get_best_action F {_ _} h root_node.
Arguments traverse_nodes F {_ _ _ _} board fuel h starter current_game
  current_identity bot_identity.
Arguments think_body F {_ _ _ _ _ _} board rand frames v fuel current_state
  bot_identity st.
Arguments think_loop F {_ _ _ _ _ _} board rand frames v fuel current_state bot_identity
  budget st.
Arguments think_tree F {_ _ _ _ _ _} board rand frames v fuel current_state budget.
Arguments think F {_ _ _ _ _ _} board rand frames v fuel current_state.

(** The frames left to [backpropagate] in the examples: the default
    recursion limit of CPython, 1000, less ten frames for the program that
    calls [think]. *)
Definition fixture_frames : nat := 990.

(** ** A small game model

    Four cells in a row, two boxes of two cells each (cells 0, 1 and cells
    2, 3).  The players 1 and 2 take turns to mark an empty cell; a player
    who holds both cells of a box owns it, which ends the game in that
    player's favour, and a full row with no owner is a draw.  It serves as
    the concrete game model of the examples below. *)
Module Pairs.

Record state := mkState {
  cells : list Z;
  to_move : Z;
}.

Definition start : state := {| cells := [0; 0; 0; 0]; to_move := 1 |}.

Definition cell (s : state) (i : nat) : Z := default 0 (cells s !! i).

Definition box_owner (s : state) (b : nat) : Z :=
  if decide (cell s (2 * b) = cell s (2 * b + 1)) then cell s (2 * b) else 0.

Definition owned_boxes (s : state) : list (nat * Z) :=
  [(0%nat, box_owner s 0); (1%nat, box_owner s 1)].

Definition winner (s : state) : Z :=
  if decide (box_owner s 0 ≠ 0) then box_owner s 0 else box_owner s 1.

Definition empty_cells (s : state) : list nat :=
  filter (λ i, cell s i = 0) (seq 0 (length (cells s))).

Definition is_ended (s : state) : bool :=
  bool_decide (winner s ≠ 0) || bool_decide (empty_cells s = []).

Definition legal_actions (s : state) : list nat :=
  if is_ended s then [] else empty_cells s.

Definition next_state (s : state) (a : nat) : state :=
  {| cells := <[a := to_move s]> (cells s);
     to_move := if decide (to_move s = 2) then 1 else 2 |}.

Definition points_values (s : state) : option (list (Z * Z)) :=
  if is_ended s then
    Some (if decide (winner s = 1) then [(1, 1); (2, -1)]
          else if decide (winner s = 2) then [(1, -1); (2, 1)]
          else [(1, 0); (2, 0)])
  else None.

Definition board : Board nat state nat :=
  Build_Board
    to_move legal_actions next_state is_ended points_values owned_boxes.

(** A fixed random source. *)
Definition rand (tick : nat) : nat := (7 * tick + 3)%nat.

End Pairs.

(** ** A game model that lists an action twice

    One move ends the game; the only action is listed twice among the legal
    actions of the start. *)
Module Twice.

Definition legal_actions (s : nat) : list nat :=
  match s with
  | O => [0; 0]%nat
  | S _ => []
  end.

Definition is_ended (s : nat) : bool := negb (Nat.eqb s 0).

Definition points_values (s : nat) : option (list (Z * Z)) :=
  if is_ended s then Some [(1, 1); (2, -1)] else None.

Definition board : Board nat nat nat :=
  Build_Board (λ _, 1) legal_actions (λ s _, S s) is_ended points_values (λ _, []).

End Twice.

(** * Specification *)

(** ** Fixtures of the spec (section 8) *)

Inductive fixture_action := child_A | child_B | child_C.

Definition fixture_leaf (a : fixture_action) (w v : Z) : MCTSNode fixture_action :=
  {| parent := Some root_node; parent_action := Some a; child_nodes := [];
     untried_actions := []; wins := w; visits := v |}.

(** A (wins 3, visits 4) then B (wins 5, visits 10). *)
Definition fixture_two : Heap fixture_action :=
  [ {| parent := None; parent_action := None;
       child_nodes := [(child_A, 1%nat); (child_B, 2%nat)];
       untried_actions := []; wins := 0; visits := 14 |};
    fixture_leaf child_A 3 4; fixture_leaf child_B 5 10 ].

(** The same with a third child C (wins 1, visits 1) scanned last. *)
Definition fixture_three : Heap fixture_action :=
  [ {| parent := None; parent_action := None;
       child_nodes := [(child_A, 1%nat); (child_B, 2%nat); (child_C, 3%nat)];
       untried_actions := []; wins := 0; visits := 15 |};
    fixture_leaf child_A 3 4; fixture_leaf child_B 5 10; fixture_leaf child_C 1 1 ].

(** A root that was never expanded. *)
Definition fixture_bare : Heap fixture_action := [MCTSNode_new None None []].

(** The numbers of the spec's check of UCB1: parent visits 4, node visits 1,
    node wins 1. *)
Definition fixture_ucb : Heap fixture_action :=
  [ {| parent := None; parent_action := None; child_nodes := [(child_A, 1%nat)];
       untried_actions := []; wins := 0; visits := 4 |};
    fixture_leaf child_A 1 1 ].

(** A random source that makes player 1 mark cell 0 and player 2 cell 2, and
    then picks the second of the two cells left, and the last one. *)
Definition fixture_rand (tick : nat) : nat := nth tick [0; 1; 1; 0]%nat 0%nat.

(** The third step of that rollout: player 1 holds cell 0 and is to move. *)
Definition fixture_third_step : Pairs.state :=
  {| Pairs.cells := [1; 0; 2; 0]; Pairs.to_move := 1 |}.

(** A finished game of [Pairs]: box 0 belongs to player 1. *)
Definition fixture_finished : Pairs.state :=
  {| Pairs.cells := [1; 1; 2; 0]; Pairs.to_move := 2 |}.

(** ** Runs without a division by zero *)

(** A run that did not stop on a division by zero or on the logarithm of a
    number that is not positive. *)
Definition arith_safe {A : Type} (r : result A) : Prop :=
  r ≠ Raise ZeroDivisionError ∧ r ≠ Raise (ValueError Log).

(** ** UCB1 over the reals *)

(** What [ucb] computes for a node below the root, over the reals. *)
Definition ucb_code (is_opponent : bool) (W N Np : Z) : R :=
  ((if is_opponent then 1 - IZR W / IZR N else IZR W / IZR N) +
   2 * sqrt (ln (IZR Np) / ln (271828 / 100000) / IZR N))%R.

(** The formula of the spec (section 4.2), with the natural logarithm. *)
Definition ucb_spec (is_opponent : bool) (W N Np : Z) : R :=
  ((if is_opponent then 1 - IZR W / IZR N else IZR W / IZR N) +
   2 * sqrt (ln (IZR Np) / IZR N))%R.

Section Specification.
Context {F : Type} `{PyFloat F}.
Context {Action State Box : Type} `{EqDecision Action} `{EqDecision Box}.
Variable board : Board Action State Box.
Variable rand : nat → nat.
Variable root_state : State.
Implicit Types (h : Heap Action) (n : MCTSNode Action) (node : node_id).
Implicit Types (state s : State).

(** ** The rule of the action selector

    The rule of the spec (section 4.6), in its words: the candidates are the
    children in scan order, each with its wins and visits; a candidate
    replaces the best so far when its win-rate is strictly greater than the
    best win-rate and its visit count strictly greater than the best visit
    count, and is skipped otherwise; the answer is the last one accepted. *)

Definition win_rate (w v : Z) : F := fdiv (of_int w) (of_int v).

Definition replaces_best (w v : Z) (best : best_so_far F Action) : bool :=
  fgt (win_rate w v) best.1.1 && bool_decide (v > best.1.2).

Fixpoint last_accepted (best : best_so_far F Action)
    (candidates : list (Action * (Z * Z))) : best_so_far F Action :=
  match candidates with
  | [] => best
  | (a, (w, v)) :: rest =>
      last_accepted
        (if replaces_best w v best then (win_rate w v, v, Some a) else best) rest
  end.

(** The wins and visits of the children [d] of a node, in scan order. *)
Definition candidates_of h (d : list (Action * node_id)) : list (Action * (Z * Z)) :=
  omap (λ e : Action * node_id, n ← h !! e.2; Some (e.1, (wins n, visits n))) d.

(** ** The rollout of the spec

    The rollout of the spec (section 4.4, HeuristicThenRandom), in its
    words: at each step the heuristic scans the legal actions of the current
    state and looks at their successors of the current state; when it finds
    no action, that step is a random choice among the same legal actions. *)
Fixpoint rollout_by_spec (fuel : nat) (current_game : State) (bot_identity : Z)
    (tick : nat) : result (State * nat) :=
  match fuel with
  | O => Raise OutOfFuel
  | S fuel' =>
      if is_ended board current_game then Ok (current_game, tick)
      else
        found ← heuristic board current_game (legal_actions board current_game)
                  bot_identity;
        match found with
        | Some move_chosen =>
            rollout_by_spec fuel' (next_state board current_game move_chosen)
              bot_identity tick
        | None =>
            move_chosen ← choice rand tick (legal_actions board current_game);
            rollout_by_spec fuel' (next_state board current_game move_chosen)
              bot_identity (S tick)
        end
  end.

(** ** What [expand_leaf] and [backpropagate] do to the store *)

(** The node that [expand_leaf] leaves at [node]: the first untried action
    is gone and the new child is registered under it. *)
Definition expanded n (move_chosen : Action) (rest : list Action) (new_node : node_id)
  : MCTSNode Action :=
  set_child_nodes (set_untried_actions n rest)
    (dict_set (child_nodes n) move_chosen new_node).

(** The store after an expansion of [node] by [move_chosen]. *)
Definition expanded_heap h node n (move_chosen : Action) (rest : list Action) state
  : Heap Action :=
  <[node := expanded n move_chosen rest (length h)]> h ++
  [MCTSNode_new (Some node) (Some move_chosen)
     (legal_actions board (next_state board state move_chosen))].

(** What one pass of [backpropagate] does to a node it goes through. *)
Definition bump (won : bool) n : MCTSNode Action :=
  match parent n with
  | None => set_visits n (visits n + 1)
  | Some _ => set_wins (set_visits n (visits n + 1)) (wins n + (if won then 1 else 0))
  end.

(** A node after a pass: itself, or bumped. *)
Definition passed (won : bool) n n' : Prop := n' = n ∨ n' = bump won n.

(** ** The shape of the tree and its counters *)

(** Parent references point to older nodes, and the root alone has none. *)
Definition wf_parents h : Prop :=
  ∀ i n, h !! i = Some n →
    match parent n with
    | None => i = root_node
    | Some p => (p < i)%nat
    end.

Definition counts_ok h : Prop :=
  ∀ i n, h !! i = Some n → 0 ≤ wins n ≤ visits n.

(** Every node below the root has been visited, and so has its parent;
    [skip] is the node just created by [expand_leaf], if any, which
    [backpropagate] has yet to reach. *)
Definition visited_except (skip : option node_id) h : Prop :=
  ∀ i n p, h !! i = Some n → parent n = Some p → Some i ≠ skip →
    1 ≤ visits n ∧ ∃ pn, h !! p = Some pn ∧ 1 ≤ visits pn.

(** A child registered under an action is a node of the store that names
    this parent and this action. *)
Definition children_ok h : Prop :=
  ∀ i n a c, h !! i = Some n → (a, c) ∈ child_nodes n →
    ∃ cn, h !! c = Some cn ∧ parent cn = Some i ∧ parent_action cn = Some a.

(** What holds of the tree between two passes of the loop. *)
Definition tree_inv h : Prop :=
  wf_parents h ∧ counts_ok h ∧ visited_except None h ∧ children_ok h.

(** ** Untried actions and children *)

(** The state a node stands for: the state of the search for the root,
    and below it the successor of the parent's state by the node's action.
    A node is created with the legal actions of this state. *)
Inductive node_state h : node_id → State → Prop :=
  | node_state_root i n :
      h !! i = Some n → parent n = None → node_state h i root_state
  | node_state_child i n p a s :
      h !! i = Some n → parent n = Some p → parent_action n = Some a →
      node_state h p s → node_state h i (next_state board s a).

(** The children's actions, in the order they were tried, followed by the
    untried actions are the legal actions of the node's state. *)
Definition partition_ok h : Prop :=
  ∀ i n s, h !! i = Some n → node_state h i s →
    keys (child_nodes n) ++ untried_actions n = legal_actions board s.

Definition all_placed h : Prop :=
  ∀ i n, h !! i = Some n → ∃ s, node_state h i s.

(** What holds of the tree between two passes, with the partition. *)
Definition search_inv h : Prop :=
  tree_inv h ∧ partition_ok h ∧ all_placed h ∧ is_Some (h !! root_node).

(** The store of a search from a terminal state: the root alone, without a
    child. *)
Definition lone_root (st : list (MCTSNode Action) * nat) : Prop :=
  ∃ r, st.1 = [r] ∧ parent r = None ∧ child_nodes r = [].

End Specification.

(** * Further specification *)

(** ** Plays and paths *)

Section Paths.
Context {Action State Box : Type} `{EqDecision Box}.
Variable board : Board Action State Box.
Implicit Types (h : Heap Action) (n : MCTSNode Action) (s : State).

(** A play by the rules: from a state that is not terminal, a legal action
    leads to the next state. *)
Inductive legal_play : State → State → Prop :=
  | legal_play_here s : legal_play s s
  | legal_play_move s a s' :
      is_ended board s = false → a ∈ legal_actions board s →
      legal_play (next_state board s a) s' → legal_play s s'.

(** The way down of [traverse_nodes]: each node left behind has no untried
    action and a state that is not terminal, and the next node is one of its
    children, with the successor state by the child's action. *)
Inductive descends h : node_id → State → node_id → State → Prop :=
  | descends_here i s : descends h i s i s
  | descends_child i n a c s j s' :
      h !! i = Some n → untried_actions n = [] → is_ended board s = false →
      (a, c) ∈ child_nodes n →
      descends h c (next_state board s a) j s' → descends h i s j s'.

(** The way up of [backpropagate]: a node, its parent, and so on. *)
Inductive ancestor h : node_id → node_id → Prop :=
  | ancestor_self i : ancestor h i i
  | ancestor_up i n p j :
      h !! i = Some n → parent n = Some p → ancestor h p j → ancestor h i j.

(** The calls of [backpropagate] from a node: one for each node of the
    path up to the node without a parent. *)
Inductive path_frames h : node_id → nat → Prop :=
  | path_frames_root i n :
      h !! i = Some n → parent n = None → path_frames h i 1
  | path_frames_up i n p k :
      h !! i = Some n → parent n = Some p → path_frames h p k →
      path_frames h i (S k).

(** The test of [heuristic] on an action: some box changes its owner
    between [state] and the successor of [state], and the new owner is the
    bot. *)
Definition wins_box (state : State) (bot_identity : Z) (a : Action) : Prop :=
  ∃ (mini : Box) (before after : Z),
    mini ∈ keys (owned_boxes board state) ∧
    dict_get (owned_boxes board state) mini = Ok before ∧
    dict_get (owned_boxes board (next_state board state a)) mini = Ok after ∧
    before ≠ after ∧ after = bot_identity.

End Paths.

(** ** What a search keeps *)

Section Keeps.
Context {Action State Box : Type}.
Variable board : Board Action State Box.
Implicit Types (h : Heap Action) (n : MCTSNode Action) (s : State).

(** The root has no parent and no wins, and its untried actions and the
    actions of its children are legal actions of the state of the search. *)
Definition root_ok (current_state : State) h : Prop :=
  ∃ r, h !! root_node = Some r ∧ parent r = None ∧ wins r = 0 ∧
    ∀ a, a ∈ keys (child_nodes r) ∨ a ∈ untried_actions r →
      a ∈ legal_actions board current_state.

(** A node has at most the visits of its parent. *)
Definition visits_up h : Prop :=
  ∀ i n p pn, h !! i = Some n → parent n = Some p → h !! p = Some pn →
    visits n ≤ visits pn.

(** From one store to a later one: every node stays where it is, with its
    links; its counters do not decrease, its untried actions are the last
    of those it had, and the actions of its children the first of those it
    has. *)
Definition grows h h' : Prop :=
  ∀ j nj, h !! j = Some nj →
    ∃ nj', h' !! j = Some nj' ∧
      parent nj' = parent nj ∧ parent_action nj' = parent_action nj ∧
      visits nj ≤ visits nj' ∧ wins nj ≤ wins nj' ∧
      untried_actions nj' `suffix_of` untried_actions nj ∧
      keys (child_nodes nj) `prefix_of` keys (child_nodes nj').

End Keeps.

(** Every node below the root is the child that its parent holds under the
    node's action. *)
Definition registered {Action : Type} `{EqDecision Action} (h : Heap Action) : Prop :=
  ∀ i n p, h !! i = Some n → parent n = Some p →
    ∃ pn a, h !! p = Some pn ∧ parent_action n = Some a ∧
      dict_get (child_nodes pn) a = Ok i.

(** ** The exceptions of a run *)

(** A run that returns, or raises one of the exceptions [allowed]. *)
Definition raises_only {A : Type} (allowed : list exn) (r : result A) : Prop :=
  ∀ e, r = Raise e → e ∈ allowed.

(** A root with a child that was never visited. *)
Definition fixture_unvisited : Heap fixture_action :=
  [ {| parent := None; parent_action := None; child_nodes := [(child_A, 1%nat)];
       untried_actions := []; wins := 0; visits := 1 |};
    fixture_leaf child_A 0 0 ].

(** A game model whose states are not terminal and have no legal action. *)
Definition stuck_board : Board nat nat nat :=
  Build_Board (λ _, 1) (λ _, []) (λ s _, s) (λ _, false) (λ _, None) (λ _, []).

(** ** Counting visits *)

Section Counting.
Context {Action State Box : Type}.
Variable board : Board Action State Box.
Variable root_state : State.
Implicit Types (h : Heap Action) (n : MCTSNode Action).

(** The references of the nodes, without their counters and untried
    actions. *)
Definition links h : list (option node_id * option Action * list (Action * node_id)) :=
  (λ n, (parent n, parent_action n, child_nodes n)) <$> h.

(** The visits of the children [d] of a node, added up. *)
Definition child_visits h (d : list (Action * node_id)) : Z :=
  foldr (λ e total, default 0 (visits <$> h !! e.2) + total) 0 d.

(** The visits of the node [i], with [extra] more, are the visits of its
    children and, below the root, the pass that created it.  This is for a
    node whose state is not terminal: a pass that goes through it goes
    through one of its children, or creates one. *)
Definition adds_up_at (extra : Z) h (i : node_id) : Prop :=
  ∀ n s, h !! i = Some n → node_state board root_state h i s →
    is_ended board s = false →
    visits n + extra =
      match parent n with Some _ => 1 | None => 0 end + child_visits h (child_nodes n).

Definition visits_add_up h : Prop := ∀ i, adds_up_at 0 h i.

End Counting.

(** A (1 of 2), B (5 of 6) and C (0 of 1): B has the greatest win-rate and
    the most visits. *)
Definition fixture_dominant : Heap fixture_action :=
  [ {| parent := None; parent_action := None;
       child_nodes := [(child_A, 1%nat); (child_B, 2%nat); (child_C, 3%nat)];
       untried_actions := []; wins := 0; visits := 9 |};
    fixture_leaf child_A 1 2; fixture_leaf child_B 5 6; fixture_leaf child_C 0 1 ].

(** The tree of a search of six passes on [Pairs]: the root, its four
    children and two grandchildren. *)
Definition fixture_tree : Heap nat :=
  Eval vm_compute in
    match think_tree float Pairs.board Pairs.rand fixture_frames Vanilla 100 Pairs.start 6 with
    | Ok h => h
    | Raise _ => []
    end.

(** A chain of [size] nodes: node 0 is the root and every other node has
    the node before it as its parent, as in the tree of a game with one
    legal action in every state. *)
Definition fixture_chain (size : nat) : Heap nat :=
  (λ i, MCTSNode_new (match i with O => None | S p => Some p end) None [])
    <$> seq 0 size.

(** * Properties *)

(** ** The [result] monad *)

Lemma bind_Ok {A B : Type} (m : result A) (f : A → result B) (b : B) :
  m ≫= f = Ok b → ∃ a, m = Ok a ∧ f a = Ok b.
Proof. destruct m as [a|e]; simpl; [eauto | discriminate]. Qed.

(** Splits a hypothesis [m ≫= f = Ok b] into the two runs it stands for. *)
Ltac bind_inv H :=
  let a := fresh "x" in
  let Ha := fresh "Hx" in
  apply bind_Ok in H as (a & Ha & H).

(** ** Dictionaries *)

Section DictFacts.
Context {K V : Type} `{EqDecision K}.
Implicit Types (d : list (K * V)) (k : K) (v : V).

Lemma dict_get_set_eq d k v : dict_get (dict_set d k v) k = Ok v.
Proof.
  induction d as [|[k' v'] d IH]; simpl.
  - by rewrite decide_True.
  - destruct (decide (k' = k)) as [->|Hne]; simpl.
    + by rewrite decide_True.
    + by rewrite decide_False.
Qed.

Lemma dict_set_fresh d k v : k ∉ keys d → dict_set d k v = d ++ [(k, v)].
Proof.
  unfold keys. induction d as [|[k' v'] d IH]; simpl; intros Hk; [done|].
  apply not_elem_of_cons in Hk as [Hne Hk].
  rewrite decide_False by done. by rewrite IH.
Qed.

Lemma elem_of_dict_set d k v k0 v0 :
  (k0, v0) ∈ dict_set d k v → (k0, v0) = (k, v) ∨ (k0, v0) ∈ d.
Proof.
  induction d as [|[k' v'] d IH]; simpl.
  - intros ->%list_elem_of_singleton. by left.
  - destruct (decide (k' = k)) as [->|Hne].
    + intros [->|Hin]%elem_of_cons; [by left | right; by right].
    + intros [->|Hin]%elem_of_cons; [right; by left|].
      destruct (IH Hin) as [->|?]; [by left | right; by right].
Qed.
End DictFacts.

(** ** [get_best_action] *)

Section ActionSelectorRule.
Context {F : Type} `{PyFloat F} {Action : Type}.

Lemma get_best_action_body_step (h : Heap Action) (acc : best_so_far F Action)
    (a : Action) (c : node_id) (n : MCTSNode Action) :
  h !! c = Some n → visits n ≠ 0 →
  get_best_action_body h acc (a, c) =
    Ok (if replaces_best (wins n) (visits n) acc
        then (win_rate (wins n) (visits n), visits n, Some a) else acc).
Proof.
  intros Hc Hv. destruct acc as [[val visit] chosen].
  unfold get_best_action_body, deref, py_div, replaces_best, win_rate.
  rewrite Hc. simpl. rewrite decide_False by done. simpl.
  destruct (fgt _ val); simpl; [|done].
  destruct (decide (visits n > visit)) as [Hgt|Hle].
  - by rewrite bool_decide_eq_true_2.
  - by rewrite bool_decide_eq_false_2.
Qed.

Lemma for_each_get_best_action (h : Heap Action) (d : list (Action * node_id))
    (acc : best_so_far F Action) :
  (∀ a c, (a, c) ∈ d → ∃ n, h !! c = Some n ∧ visits n ≠ 0) →
  for_each (get_best_action_body h) acc d = Ok (last_accepted acc (candidates_of h d)).
Proof.
  revert acc. induction d as [|[a c] d IH]; intros acc Hd; [done|].
  destruct (Hd a c) as (n & Hc & Hv); [by left|].
  simpl. rewrite (get_best_action_body_step h acc a c n Hc Hv). simpl.
  rewrite Hc. simpl. apply IH. intros a' c' Hin. apply (Hd a' c'). by right.
Qed.

(** No child: the loop body never runs. *)
Lemma get_best_action_no_child (h : Heap Action) (root : node_id) (r : MCTSNode Action) :
  h !! root = Some r → child_nodes r = [] → get_best_action F h root = Ok None.
Proof.
  intros Hr Hd. unfold get_best_action, deref. rewrite Hr. simpl. by rewrite Hd.
Qed.
End ActionSelectorRule.

Section ActionSelectorChoice.
Context {F : Type} `{PyFloat F} {Action : Type}.

(** Once an action is chosen, the scan never goes back to [None]. *)
Lemma last_accepted_is_Some (best : best_so_far F Action)
    (candidates : list (Action * (Z * Z))) :
  is_Some best.2 → is_Some (last_accepted best candidates).2.
Proof.
  revert best. induction candidates as [|[a [w v]] rest IH]; intros best Hb; [done|].
  simpl. apply IH. destruct (replaces_best w v best); [by eexists | done].
Qed.
End ActionSelectorChoice.

(** In exact arithmetic a win-rate of a visited node is not negative, and so
    lies above the sentinel [-1000000000]. *)
Lemma win_rate_above_sentinel (w v : Z) :
  0 ≤ w → 1 ≤ v → fgt (win_rate (F := R) w v) (of_int (-1000000000)) = true.
Proof.
  intros Hw Hv. unfold win_rate. simpl.
  destruct (Rlt_dec (IZR (-1000000000)) (IZR w / IZR v)) as [|Hn]; [done|].
  exfalso. apply Hn.
  assert (0 <= IZR w)%R by (by apply IZR_le).
  assert (0 < IZR v)%R by (apply IZR_lt; lia).
  assert (0 <= IZR w / IZR v)%R by (by apply Rle_mult_inv_pos).
  lra.
Qed.

(** ** [expand_leaf] *)

Section Expander.
Context {Action State Box : Type} `{EqDecision Action}.
Variable board : Board Action State Box.
Implicit Types (h : Heap Action) (n : MCTSNode Action) (node : node_id) (state : State).

Lemma expand_leaf_ended h node state :
  is_ended board state = true → expand_leaf board h node state = Ok (h, node, state).
Proof. intros He. unfold expand_leaf. by rewrite He. Qed.

Lemma expand_leaf_running h node state n move_chosen rest :
  is_ended board state = false → h !! node = Some n →
  untried_actions n = move_chosen :: rest →
  expand_leaf board h node state =
    Ok (expanded_heap board h node n move_chosen rest state, length h,
        next_state board state move_chosen).
Proof.
  intros He Hn Hu. unfold expand_leaf, deref. rewrite He, Hn. simpl. by rewrite Hu.
Qed.

(** What a successful call did. *)
Lemma expand_leaf_Ok h node state h1 node1 state1 :
  expand_leaf board h node state = Ok (h1, node1, state1) →
  (is_ended board state = true ∧ h1 = h ∧ node1 = node ∧ state1 = state) ∨
  (is_ended board state = false ∧
   ∃ n move_chosen rest,
     h !! node = Some n ∧ untried_actions n = move_chosen :: rest ∧
     h1 = expanded_heap board h node n move_chosen rest state ∧
     node1 = length h ∧ state1 = next_state board state move_chosen).
Proof.
  unfold expand_leaf, deref. destruct (is_ended board state) eqn:He.
  - intros [= <- <- <-]. by left.
  - destruct (h !! node) as [n|] eqn:Hn; simpl; [|discriminate].
    destruct (untried_actions n) as [|a rest] eqn:Hu; [discriminate|].
    intros [= <- <- <-]. right. split; [done|]. by exists n, a, rest.
Qed.

Lemma expanded_heap_length h node n a rest state :
  length (expanded_heap board h node n a rest state) = S (length h).
Proof. unfold expanded_heap. rewrite length_app, length_insert. simpl. lia. Qed.

Lemma expanded_heap_lookup_node h node n a rest state :
  h !! node = Some n →
  expanded_heap board h node n a rest state !! node = Some (expanded n a rest (length h)).
Proof.
  intros Hn. apply lookup_lt_Some in Hn as Hlt. unfold expanded_heap.
  rewrite lookup_app_l by (by rewrite length_insert).
  by apply list_lookup_insert_eq.
Qed.

Lemma expanded_heap_lookup_new h node n a rest state :
  expanded_heap board h node n a rest state !! length h =
    Some (MCTSNode_new (Some node) (Some a)
            (legal_actions board (next_state board state a))).
Proof.
  unfold expanded_heap.
  rewrite lookup_app_r by (by rewrite length_insert).
  by rewrite length_insert, Nat.sub_diag.
Qed.

Lemma expanded_heap_lookup_other h node n a rest state j :
  j ≠ node → (j < length h)%nat →
  expanded_heap board h node n a rest state !! j = h !! j.
Proof.
  intros Hne Hlt. unfold expanded_heap.
  rewrite lookup_app_l by (by rewrite length_insert).
  by apply list_lookup_insert_ne.
Qed.

(** Every node of the new store is the new node, the expanded node, or a
    node of the old store. *)
Lemma expanded_heap_lookup h node n a rest state j nj :
  h !! node = Some n →
  expanded_heap board h node n a rest state !! j = Some nj →
  (j = length h ∧
   nj = MCTSNode_new (Some node) (Some a)
          (legal_actions board (next_state board state a))) ∨
  (j = node ∧ nj = expanded n a rest (length h)) ∨
  (j ≠ node ∧ (j < length h)%nat ∧ h !! j = Some nj).
Proof.
  intros Hn Hj. apply lookup_lt_Some in Hj as Hlt.
  rewrite expanded_heap_length in Hlt.
  destruct (decide (j = length h)) as [->|Hnew].
  - rewrite expanded_heap_lookup_new in Hj. left. split; congruence.
  - right. destruct (decide (j = node)) as [->|Hne].
    + rewrite expanded_heap_lookup_node in Hj by done. left. split; congruence.
    + right. rewrite expanded_heap_lookup_other in Hj by lia.
      repeat split; [done | lia | done].
Qed.
End Expander.

(** ** The shape of the tree and its counters *)

Section TreeShape.
Context {Action : Type}.
Implicit Types (h : Heap Action) (n : MCTSNode Action).

Lemma wf_parents_insert h i n n' :
  wf_parents h → h !! i = Some n → parent n' = parent n → wf_parents (<[i := n']> h).
Proof.
  intros Hwf Hi Hp j nj Hj.
  destruct (decide (j = i)) as [->|Hne].
  - rewrite list_lookup_insert_eq in Hj by (by eapply lookup_lt_Some).
    injection Hj as <-. rewrite Hp. by apply Hwf.
  - rewrite list_lookup_insert_ne in Hj by done. by apply Hwf.
Qed.

(** [backpropagate] bumps the nodes of a set [B] and leaves the others as
    they are; [B] holds the start node and the root, no node younger than
    the start node, and with a node its parent. *)
Lemma backpropagate_spec limit h i won h' :
  wf_parents h → backpropagate limit h i won = Ok h' →
  ∃ B : node_id → bool,
    (∀ j, h' !! j = (λ nj, if B j then bump won nj else nj) <$> h !! j) ∧
    is_Some (h !! i) ∧ B i = true ∧ B root_node = true ∧
    (∀ j, (i < j)%nat → B j = false) ∧
    (∀ j nj p, B j = true → h !! j = Some nj → parent nj = Some p → B p = true).
Proof.
  revert h i. induction limit as [|limit IH]; intros h i Hwf; simpl; [discriminate|].
  unfold deref. destruct (h !! i) as [n|] eqn:Hi; simpl; [|discriminate].
  pose proof (lookup_lt_Some _ _ _ Hi) as Hlt.
  pose proof (Hwf i n Hi) as Hpi.
  destruct (parent n) as [p|] eqn:Hp.
  - intros Hrun.
    destruct (IH (<[i := set_wins (set_visits n (visits n + 1))
                            (wins n + (if won then 1 else 0))]> h) p)
      as (B' & Hlook & Hsome & Hp' & Hroot & Hyoung & Hup); [|done|].
    { by apply (wf_parents_insert h i n). }
    exists (λ j, bool_decide (j = i) || B' j). repeat split.
    + intros j. rewrite Hlook. destruct (decide (j = i)) as [->|Hne].
      * rewrite list_lookup_insert_eq by done. rewrite Hi. simpl.
        rewrite (Hyoung i Hpi), bool_decide_eq_true_2 by done. simpl.
        unfold bump. by rewrite Hp.
      * rewrite list_lookup_insert_ne by done.
        by rewrite bool_decide_eq_false_2.
    + by eexists.
    + by rewrite bool_decide_eq_true_2.
    + rewrite Hroot. apply orb_true_r.
    + intros j Hj. rewrite bool_decide_eq_false_2 by lia. apply Hyoung. lia.
    + intros j nj q HB Hj Hq. apply orb_true_iff. right.
      destruct (decide (j = i)) as [->|Hne].
      * assert (nj = n) as -> by congruence. congruence.
      * rewrite bool_decide_eq_false_2 in HB by done. simpl in HB.
        apply (Hup j nj q HB); [|done]. by rewrite list_lookup_insert_ne.
  - intros [= <-]. subst i.
    exists (λ j, bool_decide (j = root_node)). repeat split.
    + intros j. destruct (decide (j = root_node)) as [->|Hne].
      * rewrite list_lookup_insert_eq by done. rewrite Hi. simpl.
        unfold bump. by rewrite Hp.
      * rewrite list_lookup_insert_ne by done.
        rewrite bool_decide_eq_false_2 by done. by destruct (h !! j).
    + by eexists.
    + intros j Hj. apply bool_decide_eq_false_2. unfold root_node in *. lia.
    + intros j nj q HB Hj Hq. apply bool_decide_eq_true_1 in HB as ->.
      congruence.
Qed.

(** The recursion reaches the root whenever the frames left exceed the
    index of the start node. *)
Lemma backpropagate_total limit h i won :
  wf_parents h → is_Some (h !! i) → (i < limit)%nat →
  ∃ h', backpropagate limit h i won = Ok h'.
Proof.
  revert h i. induction limit as [|limit IH]; intros h i Hwf [n Hi] Hlt; [lia|].
  simpl. unfold deref. rewrite Hi. simpl.
  pose proof (Hwf i n Hi) as Hpi.
  pose proof (lookup_lt_Some _ _ _ Hi) as Hlen.
  destruct (parent n) as [p|] eqn:Hp; [|by eexists].
  apply IH; [by apply (wf_parents_insert h i n) | | lia].
  apply lookup_lt_is_Some. rewrite length_insert. lia.
Qed.
End TreeShape.

Section Backpropagator.
Context {Action : Type}.
Implicit Types (h : Heap Action) (n : MCTSNode Action).

Lemma bump_links won n :
  parent (bump won n) = parent n ∧ parent_action (bump won n) = parent_action n ∧
  child_nodes (bump won n) = child_nodes n ∧
  untried_actions (bump won n) = untried_actions n.
Proof. unfold bump. destruct (parent n) eqn:Hp; simpl; by rewrite Hp. Qed.

Lemma bump_counts won n :
  visits (bump won n) = visits n + 1 ∧
  (wins (bump won n) = wins n ∨
   wins (bump won n) = wins n + 1 ∧ parent n ≠ None ∧ won = true).
Proof.
  unfold bump. destruct (parent n) eqn:Hp; simpl; [|auto].
  split; [done|]. destruct won; [right; split; [lia | done] | left; lia].
Qed.

Lemma passed_links won n n' :
  passed won n n' →
  parent n' = parent n ∧ parent_action n' = parent_action n ∧
  child_nodes n' = child_nodes n ∧ untried_actions n' = untried_actions n.
Proof. intros [->| ->]; [done | apply bump_links]. Qed.

Lemma passed_counts won n n' :
  passed won n n' → 0 ≤ wins n ≤ visits n →
  0 ≤ wins n' ≤ visits n' ∧ visits n ≤ visits n'.
Proof.
  intros [->| ->] Hc; [lia|].
  destruct (bump_counts won n) as [Hv [Hw|[Hw _]]]; lia.
Qed.

(** The store after [backpropagate], node by node. *)
Lemma backpropagate_nodes limit h i won h' :
  wf_parents h → backpropagate limit h i won = Ok h' →
  (∀ j nj, h !! j = Some nj → ∃ nj', h' !! j = Some nj' ∧ passed won nj nj') ∧
  (∀ j nj', h' !! j = Some nj' → ∃ nj, h !! j = Some nj ∧ passed won nj nj') ∧
  (∃ ni, h !! i = Some ni ∧ h' !! i = Some (bump won ni) ∧
     ∀ p pn, parent ni = Some p → h !! p = Some pn → h' !! p = Some (bump won pn)) ∧
  (∀ r, h !! root_node = Some r → h' !! root_node = Some (bump won r)).
Proof.
  intros Hwf Hrun.
  destruct (backpropagate_spec limit h i won h' Hwf Hrun)
    as (B & Hlook & [ni Hi] & HBi & HBroot & _ & Hup).
  repeat split.
  - intros j nj Hj. rewrite Hlook, Hj. simpl. eexists. split; [done|].
    destruct (B j); [by right | by left].
  - intros j nj' Hj. rewrite Hlook in Hj. apply fmap_Some in Hj as (nj & Hj & ->).
    exists nj. split; [done|]. destruct (B j); [by right | by left].
  - exists ni. split; [done|]. split.
    + by rewrite Hlook, Hi, HBi.
    + intros p pn Hp Hpn. by rewrite Hlook, Hpn, (Hup i ni p HBi Hi Hp).
  - intros r Hr. by rewrite Hlook, Hr, HBroot.
Qed.

Lemma backpropagate_inv limit h i won h' :
  wf_parents h → counts_ok h → visited_except (Some i) h → children_ok h →
  backpropagate limit h i won = Ok h' →
  wf_parents h' ∧ counts_ok h' ∧ visited_except None h' ∧ children_ok h'.
Proof.
  intros Hwf Hcnt Hvis Hch Hrun.
  destruct (backpropagate_nodes limit h i won h' Hwf Hrun)
    as (Hfwd & Hbwd & (ni & Hi & Hi' & Hpar) & _).
  split; [|split; [|split]].
  - intros j nj' Hj. destruct (Hbwd j nj' Hj) as (nj & Hj0 & Hpass).
    destruct (passed_links won nj nj' Hpass) as (-> & _). by apply Hwf.
  - intros j nj' Hj. destruct (Hbwd j nj' Hj) as (nj & Hj0 & Hpass).
    by destruct (passed_counts won nj nj' Hpass (Hcnt j nj Hj0)).
  - intros j nj' p Hj Hp _. destruct (Hbwd j nj' Hj) as (nj & Hj0 & Hpass).
    destruct (passed_links won nj nj' Hpass) as (Hp' & _). rewrite Hp' in Hp.
    destruct (decide (j = i)) as [->|Hne].
    + assert (nj = ni) as -> by congruence.
      assert (nj' = bump won ni) as -> by congruence.
      pose proof (Hwf i ni Hi) as Hlt. rewrite Hp in Hlt.
      pose proof (lookup_lt_Some _ _ _ Hi) as Hlen.
      destruct (lookup_lt_is_Some_2 h p) as [pn Hpn]; [lia|].
      pose proof (Hcnt i ni Hi). pose proof (Hcnt p pn Hpn).
      destruct (bump_counts won ni) as [Hv _].
      destruct (bump_counts won pn) as [Hv' _].
      split; [lia|]. exists (bump won pn). split; [by eapply Hpar | lia].
    + destruct (Hvis j nj p Hj0 Hp) as (Hv & pn & Hpn & Hpv); [congruence|].
      destruct (passed_counts won nj nj' Hpass (Hcnt j nj Hj0)).
      split; [lia|].
      destruct (Hfwd p pn Hpn) as (pn' & Hpn' & Hpass').
      destruct (passed_counts won pn pn' Hpass' (Hcnt p pn Hpn)).
      exists pn'. split; [done | lia].
  - intros j nj' a c Hj Hin. destruct (Hbwd j nj' Hj) as (nj & Hj0 & Hpass).
    destruct (passed_links won nj nj' Hpass) as (_ & _ & Hc' & _).
    rewrite Hc' in Hin.
    destruct (Hch j nj a c Hj0 Hin) as (cn & Hc & Hcp & Hca).
    destruct (Hfwd c cn Hc) as (cn' & Hcn' & Hpassc).
    destruct (passed_links won cn cn' Hpassc) as (Hp1 & Hp2 & _).
    exists cn'. by rewrite Hp1, Hp2.
Qed.
End Backpropagator.

Section ExpanderInvariants.
Context {Action State Box : Type} `{EqDecision Action}.
Variable board : Board Action State Box.
Implicit Types (h : Heap Action) (n : MCTSNode Action) (node : node_id) (state : State).

Lemma visited_except_weaken h skip :
  visited_except None h → visited_except skip h.
Proof. intros Hvis i n p Hi Hp _. by apply (Hvis i n p). Qed.

(** An expansion keeps the links and counters of every node it finds. *)
Lemma expanded_heap_old h node n a rest state j nj :
  h !! node = Some n → h !! j = Some nj →
  ∃ nj', expanded_heap board h node n a rest state !! j = Some nj' ∧
    parent nj' = parent nj ∧ parent_action nj' = parent_action nj ∧
    wins nj' = wins nj ∧ visits nj' = visits nj.
Proof.
  intros Hn Hj. destruct (decide (j = node)) as [->|Hne].
  - assert (nj = n) as -> by congruence.
    exists (expanded n a rest (length h)).
    by rewrite expanded_heap_lookup_node.
  - exists nj. rewrite expanded_heap_lookup_other; [done..|].
    by eapply lookup_lt_Some.
Qed.

Lemma expand_leaf_inv h node state h1 node1 state1 :
  wf_parents h → counts_ok h → visited_except None h → children_ok h →
  expand_leaf board h node state = Ok (h1, node1, state1) →
  wf_parents h1 ∧ counts_ok h1 ∧ visited_except (Some node1) h1 ∧ children_ok h1 ∧
  (∀ r, h !! root_node = Some r →
     ∃ r1, h1 !! root_node = Some r1 ∧ visits r1 = visits r).
Proof.
  intros Hwf Hcnt Hvis Hch Hrun.
  apply expand_leaf_Ok in Hrun
    as [(_ & -> & -> & ->)|(_ & n & a & rest & Hn & Hu & -> & -> & ->)].
  { split; [done|]. split; [done|]. split; [by apply visited_except_weaken|].
    split; [done | by eauto]. }
  pose proof (lookup_lt_Some _ _ _ Hn) as Hlt.
  split; [|split; [|split; [|split]]].
  - intros j nj Hj.
    apply (expanded_heap_lookup board h node n a rest state j nj Hn) in Hj
      as [(-> & ->)|[(-> & ->)|(Hne & Hjlt & Hj)]].
    + done.
    + simpl. by apply (Hwf node n).
    + by apply Hwf.
  - intros j nj Hj.
    apply (expanded_heap_lookup board h node n a rest state j nj Hn) in Hj
      as [(-> & ->)|[(-> & ->)|(Hne & Hjlt & Hj)]].
    + simpl. lia.
    + simpl. by apply (Hcnt node n).
    + by apply (Hcnt j).
  - intros j nj p Hj Hp Hskip.
    assert (∃ nj0, h !! j = Some nj0 ∧ parent nj0 = Some p ∧ visits nj0 = visits nj)
      as (nj0 & Hj0 & Hp0 & Hv0).
    { apply (expanded_heap_lookup board h node n a rest state j nj Hn) in Hj
        as [(-> & ->)|[(-> & ->)|(Hne & Hjlt & Hj)]].
      - congruence.
      - by exists n.
      - by exists nj. }
    destruct (Hvis j nj0 p Hj0 Hp0) as (Hv & pn & Hpn & Hpv); [done|].
    split; [lia|].
    destruct (expanded_heap_old h node n a rest state p pn Hn Hpn)
      as (pn' & Hpn' & _ & _ & _ & Hpv').
    exists pn'. split; [done | lia].
  - intros j nj b c Hj Hin.
    assert (∀ i ni c0, h !! i = Some ni → (b, c0) ∈ child_nodes ni →
              ∃ cn, expanded_heap board h node n a rest state !! c0 = Some cn ∧
                parent cn = Some i ∧ parent_action cn = Some b) as Hold.
    { intros i ni c0 Hi Hc0.
      destruct (Hch i ni b c0 Hi Hc0) as (cn & Hcn & Hcp & Hca).
      destruct (expanded_heap_old h node n a rest state c0 cn Hn Hcn)
        as (cn' & Hcn' & Hp' & Ha' & _).
      exists cn'. by rewrite Hp', Ha'. }
    apply (expanded_heap_lookup board h node n a rest state j nj Hn) in Hj
      as [(-> & ->)|[(-> & ->)|(Hne & Hjlt & Hj)]].
    + by apply elem_of_nil in Hin.
    + simpl in Hin. apply elem_of_dict_set in Hin as [[= -> ->]|Hin].
      * eexists. split; [apply expanded_heap_lookup_new | done].
      * by apply (Hold node n).
    + by apply (Hold j nj).
  - intros r Hr.
    destruct (expanded_heap_old h node n a rest state root_node r Hn Hr)
      as (r1 & Hr1 & _ & _ & _ & Hv).
    by exists r1.
Qed.
End ExpanderInvariants.

(** ** Divisions and logarithms *)

Lemma arith_safe_Ok {A : Type} (a : A) : arith_safe (Ok a).
Proof. by split. Qed.

Lemma arith_safe_Raise {A : Type} (e : exn) :
  e ≠ ZeroDivisionError → e ≠ ValueError Log → arith_safe (Raise (A := A) e).
Proof. intros H1 H2. split; congruence. Qed.

Lemma arith_safe_bind {A B : Type} (m : result A) (f : A → result B) :
  arith_safe m → (∀ a, m = Ok a → arith_safe (f a)) → arith_safe (m ≫= f).
Proof.
  intros [H1 H2] Hf. destruct m as [a|e]; simpl; [by apply Hf|].
  split; congruence.
Qed.

Lemma arith_safe_for_each {A S : Type} (body : S → A → result S) (init : S)
    (l : list A) :
  (∀ s x, x ∈ l → arith_safe (body s x)) → arith_safe (for_each body init l).
Proof.
  revert init. induction l as [|x l IH]; intros init Hb; simpl.
  - apply arith_safe_Ok.
  - apply arith_safe_bind; [apply Hb; by left|].
    intros s _. apply IH. intros s' y Hy. apply Hb. by right.
Qed.

Create HintDb safe.
#[local] Hint Resolve arith_safe_Ok : safe.
#[local] Hint Extern 1 (arith_safe (Raise _)) =>
  apply arith_safe_Raise; discriminate : safe.

Section Safety.
Context {F : Type} `{PyFloat F}.
Context {Action State Box : Type} `{EqDecision Action} `{EqDecision Box}.
Variable board : Board Action State Box.
Variable rand : nat → nat.
Implicit Types (h : Heap Action) (n : MCTSNode Action).

Lemma deref_safe h i : arith_safe (deref h i).
Proof. unfold deref. destruct (h !! i); auto with safe. Qed.

Lemma dict_get_safe {K V : Type} `{EqDecision K} (d : list (K * V)) (k : K) :
  arith_safe (dict_get d k).
Proof.
  induction d as [|[k' v] d IH]; simpl; [auto with safe|].
  destruct (decide (k' = k)); auto with safe.
Qed.

(** [ucb] on a node that has been visited, below a visited parent. *)
Lemma ucb_safe h c is_opponent :
  visited_except None h → arith_safe (ucb h c is_opponent).
Proof.
  intros Hvis. unfold ucb, deref.
  destruct (h !! c) as [n|] eqn:Hc; simpl; [|auto with safe].
  destruct (parent n) as [p|] eqn:Hp; [|auto with safe].
  destruct (Hvis c n p Hc Hp) as (Hv & pn & Hpn & Hpv); [done|].
  rewrite Hpn. simpl. unfold py_log, py_div, py_fdiv, py_sqrt.
  rewrite decide_False by lia. simpl.
  rewrite decide_False by lia. simpl.
  rewrite decide_False by lia. simpl.
  destruct (fgt _ _); simpl; auto with safe.
Qed.

Lemma traverse_nodes_safe fuel h starter current_game current_identity bot_identity :
  visited_except None h →
  arith_safe (traverse_nodes F board fuel h starter current_game
                current_identity bot_identity).
Proof.
  intros Hvis. revert starter current_game current_identity.
  induction fuel as [|fuel IH]; intros starter current_game current_identity;
    simpl; [auto with safe|].
  apply arith_safe_bind; [apply deref_safe|]. intros n _.
  destruct (_ && _); [|auto with safe].
  apply arith_safe_bind.
  - apply arith_safe_for_each. intros acc [a c] _. unfold traverse_nodes_body.
    apply arith_safe_bind; [by apply ucb_safe|]. intros u _.
    destruct (fgt u acc.1); auto with safe.
  - intros sel _. destruct sel.2 as [[chosen_node chosen_move]|]; [apply IH|].
    auto with safe.
Qed.

Lemma expand_leaf_safe h node state : arith_safe (expand_leaf board h node state).
Proof.
  unfold expand_leaf. destruct (is_ended board state); [auto with safe|].
  apply arith_safe_bind; [apply deref_safe|]. intros n _.
  destruct (untried_actions n); auto with safe.
Qed.

Lemma choice_safe {A : Type} tick (l : list A) : arith_safe (choice rand tick l).
Proof. unfold choice. destruct (l !! _); auto with safe. Qed.

Lemma rollout_safe fuel current_game tick :
  arith_safe (rollout board rand fuel current_game tick).
Proof.
  revert current_game tick. induction fuel as [|fuel IH]; intros current_game tick;
    simpl; [auto with safe|].
  destruct (is_ended board current_game); [auto with safe|].
  apply arith_safe_bind; [apply choice_safe|]. intros move_chosen _. apply IH.
Qed.

Lemma heuristic_boxes_safe bot_identity (avail_prev avail_next : list (Box * Z))
    (minis : list Box) :
  arith_safe (heuristic_boxes bot_identity avail_prev avail_next minis).
Proof.
  induction minis as [|mini minis IH]; simpl; [auto with safe|].
  apply arith_safe_bind.
  - unfold heuristic_box.
    repeat (case_decide; [repeat (apply arith_safe_bind; [apply dict_get_safe|]; intros ? _);
                          auto with safe|]).
    auto with safe.
  - intros [] _; [auto with safe | apply IH].
Qed.

Lemma heuristic_safe state moves bot_identity :
  arith_safe (heuristic board state moves bot_identity).
Proof.
  induction moves as [|instances moves IH]; simpl; [auto with safe|].
  apply arith_safe_bind; [apply heuristic_boxes_safe|].
  intros [] _; [auto with safe | apply IH].
Qed.

Lemma rollout_modified_safe fuel state bot_identity tick :
  arith_safe (rollout_modified board rand fuel state bot_identity tick).
Proof.
  unfold rollout_modified. generalize state at 2 as current_game. revert tick.
  induction fuel as [|fuel IH]; intros tick current_game; simpl; [auto with safe|].
  destruct (is_ended board current_game); [auto with safe|].
  apply arith_safe_bind; [apply heuristic_safe|].
  intros [move_chosen|] _; [apply IH|].
  apply arith_safe_bind; [apply choice_safe|]. intros move_chosen _. apply IH.
Qed.

Lemma rollout_of_safe v fuel state bot_identity tick :
  arith_safe (rollout_of board rand v fuel state bot_identity tick).
Proof. destruct v; [apply rollout_safe | apply rollout_modified_safe]. Qed.

Lemma is_win_safe state identity_of_bot :
  arith_safe (is_win board state identity_of_bot).
Proof.
  unfold is_win. destruct (points_values board state); [|auto with safe].
  apply arith_safe_bind; [apply dict_get_safe|]. auto with safe.
Qed.

Lemma backpropagate_safe limit h node won : arith_safe (backpropagate limit h node won).
Proof.
  revert h node. induction limit as [|limit IH]; intros h node; simpl; [auto with safe|].
  apply arith_safe_bind; [apply deref_safe|]. intros n _.
  destruct (parent n); [apply IH | auto with safe].
Qed.

(** [get_best_action] on a root whose children have all been visited. *)
Lemma get_best_action_safe h :
  visited_except None h → children_ok h → arith_safe (get_best_action F h root_node).
Proof.
  intros Hvis Hch. unfold get_best_action, deref.
  destruct (h !! root_node) as [r|] eqn:Hr; simpl; [|auto with safe].
  apply arith_safe_bind; [|auto with safe].
  apply arith_safe_for_each. intros [[val visit] chosen] [a c] Hin.
  unfold get_best_action_body, deref.
  destruct (Hch root_node r a c Hr Hin) as (cn & Hc & Hcp & _).
  destruct (Hvis c cn root_node Hc Hcp) as (Hv & _); [done|].
  rewrite Hc. simpl. unfold py_div. rewrite decide_False by lia. simpl.
  destruct (fgt _ val); [|auto with safe].
  destruct (decide _); auto with safe.
Qed.
End Safety.

(** ** The search loop *)

Section SearchDriver.
Context {F : Type} `{PyFloat F}.
Context {Action State Box : Type} `{EqDecision Action} `{EqDecision Box}.
Variable board : Board Action State Box.
Variable rand : nat → nat.
Variable frames : nat.
Implicit Types (h : Heap Action) (n : MCTSNode Action) (st : list (MCTSNode Action) * nat).

Lemma tree_inv_init (action_list : list Action) :
  tree_inv [MCTSNode_new None None action_list].
Proof.
  split; [|split; [|split]].
  - intros i n Hi. apply list_lookup_singleton_Some in Hi as [-> <-]. done.
  - intros i n Hi. apply list_lookup_singleton_Some in Hi as [-> <-]. simpl. lia.
  - intros i n p Hi Hp. apply list_lookup_singleton_Some in Hi as [-> <-]. done.
  - intros i n a c Hi Hin. apply list_lookup_singleton_Some in Hi as [-> <-].
    by apply elem_of_nil in Hin.
Qed.

(** The parts of a successful pass. *)
Lemma think_body_Ok v fuel current_state bot_identity st st' :
  think_body F board rand frames v fuel current_state bot_identity st = Ok st' →
  ∃ node state h1 node1 state1 state2 won,
    traverse_nodes F board fuel st.1 root_node current_state bot_identity bot_identity
      = Ok (node, state) ∧
    expand_leaf board st.1 node state = Ok (h1, node1, state1) ∧
    rollout_of board rand v fuel state1 bot_identity st.2 = Ok (state2, st'.2) ∧
    is_win board state2 bot_identity = Ok won ∧
    backpropagate frames h1 node1 won = Ok st'.1.
Proof.
  unfold think_body. intros Hrun.
  bind_inv Hrun. destruct x as [node state].
  bind_inv Hrun. destruct x as [[h1 node1] state1].
  bind_inv Hrun. destruct x as [state2 tick].
  bind_inv Hrun. bind_inv Hrun. injection Hrun as <-.
  by exists node, state, h1, node1, state1, state2, x.
Qed.

Lemma think_body_inv v fuel current_state bot_identity st st' :
  tree_inv st.1 →
  think_body F board rand frames v fuel current_state bot_identity st = Ok st' →
  tree_inv st'.1 ∧
  (∀ r, st.1 !! root_node = Some r →
     ∃ r', st'.1 !! root_node = Some r' ∧ visits r' = visits r + 1).
Proof.
  intros (Hwf & Hcnt & Hvis & Hch) Hrun.
  apply think_body_Ok in Hrun
    as (node & state & h1 & node1 & state1 & state2 & won & _ & Hexp & _ & _ & Hback).
  destruct (expand_leaf_inv board st.1 node state h1 node1 state1 Hwf Hcnt Hvis Hch Hexp)
    as (Hwf1 & Hcnt1 & Hvis1 & Hch1 & Hroot1).
  split; [by eapply backpropagate_inv|].
  intros r Hr. destruct (Hroot1 r Hr) as (r1 & Hr1 & Hv1).
  destruct (backpropagate_nodes frames h1 node1 won st'.1 Hwf1 Hback) as (_ & _ & _ & Hroot2).
  exists (bump won r1). split; [by apply Hroot2|].
  destruct (bump_counts won r1) as [-> _]. lia.
Qed.

Lemma think_body_safe v fuel current_state bot_identity st :
  tree_inv st.1 →
  arith_safe (think_body F board rand frames v fuel current_state bot_identity st).
Proof.
  intros (Hwf & Hcnt & Hvis & Hch). unfold think_body.
  apply arith_safe_bind; [by apply traverse_nodes_safe|]. intros [node state] _.
  apply arith_safe_bind; [apply expand_leaf_safe|]. intros [[h1 node1] state1] _.
  apply arith_safe_bind; [apply rollout_of_safe|]. intros [state2 tick] _.
  apply arith_safe_bind; [apply is_win_safe|]. intros won _.
  apply arith_safe_bind; [apply backpropagate_safe|]. intros h2 _.
  apply arith_safe_Ok.
Qed.

Lemma think_loop_inv v fuel current_state bot_identity budget st st' :
  tree_inv st.1 →
  think_loop F board rand frames v fuel current_state bot_identity budget st = Ok st' →
  tree_inv st'.1 ∧
  (∀ r, st.1 !! root_node = Some r →
     ∃ r', st'.1 !! root_node = Some r' ∧ visits r' = visits r + Z.of_nat budget).
Proof.
  revert st. induction budget as [|budget IH]; intros st Hinv; simpl.
  - intros [= <-]. split; [done|]. intros r Hr. exists r. split; [done | lia].
  - intros Hrun. bind_inv Hrun.
    destruct (think_body_inv v fuel current_state bot_identity st x Hinv Hx)
      as (Hinv1 & Hroot1).
    destruct (IH x Hinv1 Hrun) as (Hinv2 & Hroot2).
    split; [done|]. intros r Hr.
    destruct (Hroot1 r Hr) as (r1 & Hr1 & Hv1).
    destruct (Hroot2 r1 Hr1) as (r2 & Hr2 & Hv2).
    exists r2. split; [done | lia].
Qed.

Lemma think_loop_safe v fuel current_state bot_identity budget st :
  tree_inv st.1 →
  arith_safe (think_loop F board rand frames v fuel current_state bot_identity budget st).
Proof.
  revert st. induction budget as [|budget IH]; intros st Hinv; simpl.
  - apply arith_safe_Ok.
  - apply arith_safe_bind; [by apply think_body_safe|].
    intros st1 Hrun. apply IH. by eapply think_body_inv.
Qed.

Lemma think_tree_inv v fuel current_state budget h :
  think_tree F board rand frames v fuel current_state budget = Ok h →
  tree_inv h ∧ ∃ r, h !! root_node = Some r ∧ visits r = Z.of_nat budget.
Proof.
  unfold think_tree. intros Hrun. bind_inv Hrun. injection Hrun as <-.
  destruct (think_loop_inv v fuel current_state (current_player board current_state)
              budget ([MCTSNode_new None None (legal_actions board current_state)], 0%nat)
              x (tree_inv_init _) Hx) as (Hinv & Hroot).
  split; [done|]. destruct (Hroot _ eq_refl) as (r & Hr & Hv).
  exists r. split; [done|]. simpl in Hv. lia.
Qed.

Lemma think_tree_safe v fuel current_state budget :
  arith_safe (think_tree F board rand frames v fuel current_state budget).
Proof.
  unfold think_tree. apply arith_safe_bind; [|intros; apply arith_safe_Ok].
  apply think_loop_safe, tree_inv_init.
Qed.

Lemma think_safe v fuel current_state :
  arith_safe (think F board rand frames v fuel current_state).
Proof.
  unfold think. apply arith_safe_bind; [apply think_tree_safe|].
  intros h Hrun. apply think_tree_inv in Hrun as ((_ & _ & Hvis & Hch) & _).
  by apply get_best_action_safe.
Qed.
End SearchDriver.

(** ** [ucb] over the exact reals *)

Lemma inv_fact_S (k : nat) :
  (/ INR (fact (S k)) = / INR (fact k) * / INR (S k))%R.
Proof. rewrite fact_simpl, mult_INR, Rinv_mult. ring. Qed.

(** The literal [2.71828] lies below [e]: ten terms of the series of
    [exp 1] already exceed it. *)
Lemma exp_1_lower : (271828 / 100000 < exp 1)%R.
Proof.
  pose proof (sum_incr (fun k => / INR (fact k) * 1 ^ k)%R 9 (exp 1) (E1_cvg 1)) as Hsum.
  assert (∀ k, (0 <= / INR (fact k) * 1 ^ k)%R) as Hpos.
  { intros k. rewrite pow1, Rmult_1_r. left. apply Rinv_0_lt_compat, INR_fact_lt_0. }
  specialize (Hsum Hpos).
  eapply Rlt_le_trans; [|exact Hsum].
  unfold sum_f_R0. rewrite !pow1, !Rmult_1_r.
  rewrite !inv_fact_S. simpl fact. simpl INR. rewrite Rinv_1.
  lra.
Qed.

(** So the divisor [log(2.71828)] of [ucb] lies strictly between 0 and 1. *)
Lemma ln_lit_bounds : (0 < ln (271828 / 100000) < 1)%R.
Proof.
  split.
  - rewrite <- ln_1. apply ln_increasing; lra.
  - apply Rlt_le_trans with (ln (exp 1)).
    + apply ln_increasing; [lra | apply exp_1_lower].
    + rewrite ln_exp. lra.
Qed.

Lemma ln_IZR_pos (k : Z) : 2 ≤ k → (0 < ln (IZR k))%R.
Proof.
  intros Hk. rewrite <- ln_1. apply ln_increasing; [lra|].
  apply (IZR_lt 1). lia.
Qed.

(** Dividing a positive logarithm by [log(2.71828)] makes it larger. *)
Lemma rescaled_log_larger (x m : R) :
  (0 < x)%R → (0 < m)%R →
  (0 <= x / m < x / ln (271828 / 100000) / m)%R.
Proof.
  intros Hx Hm. destruct ln_lit_bounds as [Hl0 Hl1].
  assert (0 < / m)%R as Hm' by (by apply Rinv_0_lt_compat).
  assert (1 < / ln (271828 / 100000))%R as Hinv.
  { rewrite <- Rinv_1 at 1. apply Rinv_lt_contravar; lra. }
  unfold Rdiv. split; [nra|].
  apply Rmult_lt_compat_r; [done | nra].
Qed.

Lemma ucb_exact_real {Action : Type} (h : Heap Action) (c p : node_id)
    (n pn : MCTSNode Action) (is_opponent : bool) :
  h !! c = Some n → parent n = Some p → h !! p = Some pn →
  1 ≤ visits pn → 1 ≤ visits n →
  ucb (F := R) h c is_opponent = Ok (ucb_code is_opponent (wins n) (visits n) (visits pn)).
Proof.
  intros Hc Hp Hpn Hpv Hv. unfold ucb, deref. rewrite Hc. simpl. rewrite Hp, Hpn. simpl.
  unfold py_log, py_div, py_fdiv, py_sqrt.
  rewrite decide_False by lia. simpl.
  rewrite decide_False by lia. simpl.
  rewrite decide_False by lia. simpl.
  destruct (Rlt_dec _ 0) as [Hneg|_].
  - exfalso. destruct ln_lit_bounds as [Hl0 _].
    assert (0 <= ln (IZR (visits pn)))%R as Hln.
    { destruct (decide (visits pn = 1)) as [->|Hne]; [rewrite ln_1; lra|].
      left. apply ln_IZR_pos. lia. }
    assert (0 < IZR (visits n))%R as HN by (apply (IZR_lt 0); lia).
    assert (0 <= ln (IZR (visits pn)) / ln (271828 / 100000) / IZR (visits n))%R.
    { apply Rle_mult_inv_pos; [|done]. by apply Rle_mult_inv_pos. }
    lra.
  - unfold ucb_code, explore_faction. by destruct is_opponent.
Qed.

(** ** Untried actions and children *)

Section Partition.
Context {F : Type} `{PyFloat F}.
Context {Action State Box : Type} `{EqDecision Action} `{EqDecision Box}.
Variable board : Board Action State Box.
Variable rand : nat → nat.
Variable root_state : State.
Implicit Types (h : Heap Action) (n : MCTSNode Action) (s : State).

Lemma node_state_fun h i s1 s2 :
  node_state board root_state h i s1 → node_state board root_state h i s2 → s1 = s2.
Proof.
  intros H1. revert s2. induction H1 as [i n Hi Hp|i n p a s Hi Hp Ha Hs IH];
    intros s2 H2; inversion H2 as [i' n' Hi' Hp'|i' n' p' a' s' Hi' Hp' Ha' Hs']; subst.
  - done.
  - congruence.
  - congruence.
  - assert (n' = n) as -> by congruence.
    assert (p' = p) as -> by congruence.
    assert (a' = a) as -> by congruence.
    by rewrite (IH s' Hs').
Qed.

(** The state of a node depends on the links only. *)
Lemma node_state_links h h' i s :
  (∀ j nj, h !! j = Some nj →
     ∃ nj', h' !! j = Some nj' ∧ parent nj' = parent nj ∧
       parent_action nj' = parent_action nj) →
  node_state board root_state h i s → node_state board root_state h' i s.
Proof.
  intros Hlinks Hs. induction Hs as [i n Hi Hp|i n p a s Hi Hp Ha Hs IH].
  - destruct (Hlinks i n Hi) as (n' & Hi' & Hp' & _).
    apply (node_state_root board root_state h' i n'); congruence.
  - destruct (Hlinks i n Hi) as (n' & Hi' & Hp' & Ha').
    apply (node_state_child board root_state h' i n' p a s); congruence.
Qed.

(** ... and, in a store that grew, on the links of the old nodes only. *)
Lemma node_state_old h h' i s :
  wf_parents h →
  (∀ j nj', (j < length h)%nat → h' !! j = Some nj' →
     ∃ nj, h !! j = Some nj ∧ parent nj = parent nj' ∧
       parent_action nj = parent_action nj') →
  node_state board root_state h' i s → (i < length h)%nat → node_state board root_state h i s.
Proof.
  intros Hwf Hlinks Hs. induction Hs as [i n' Hi Hp|i n' p a s Hi Hp Ha Hs IH];
    intros Hlt.
  - destruct (Hlinks i n' Hlt Hi) as (n & Hi' & Hp' & _).
    apply (node_state_root board root_state h i n); congruence.
  - destruct (Hlinks i n' Hlt Hi) as (n & Hi' & Hp' & Ha').
    apply (node_state_child board root_state h i n p a s); [congruence..|].
    apply IH. pose proof (Hwf i n Hi') as Hpi. rewrite Hp', Hp in Hpi. lia.
Qed.

(** *** [traverse_nodes] keeps the node and the state together *)

Lemma traverse_nodes_body_choice h is_opponent (d : list (Action * node_id))
    (acc sel : selection F Action) :
  for_each (traverse_nodes_body h is_opponent) acc d = Ok sel →
  sel.2 = acc.2 ∨ ∃ a c, sel.2 = Some (c, a) ∧ (a, c) ∈ d.
Proof.
  revert acc. induction d as [|[a c] d IH]; intros acc; simpl.
  - intros [= <-]. by left.
  - intros Hrun. bind_inv Hrun. unfold traverse_nodes_body in Hx. bind_inv Hx.
    destruct (IH x Hrun) as [Heq|(a' & c' & Heq & Hin)].
    + destruct (fgt x0 acc.1); injection Hx as <-.
      * right. exists a, c. split; [done | by left].
      * by left.
    + right. exists a', c'. split; [done | by right].
Qed.

Lemma traverse_nodes_state fuel h starter current_game current_identity bot_identity
    node state :
  children_ok h → node_state board root_state h starter current_game →
  traverse_nodes F board fuel h starter current_game current_identity bot_identity
    = Ok (node, state) →
  node_state board root_state h node state ∧ is_Some (h !! node) ∧
  (∀ n, h !! node = Some n →
     untried_actions n ≠ [] ∨ is_ended board state = true).
Proof.
  intros Hch. revert starter current_game current_identity.
  induction fuel as [|fuel IH]; intros starter current_game current_identity Hs;
    simpl; [discriminate|].
  intros Hrun. bind_inv Hrun. unfold deref in Hx.
  destruct (h !! starter) as [n|] eqn:Hn; [|discriminate]. injection Hx as <-.
  destruct (bool_decide _ && negb _) eqn:Hcond.
  - bind_inv Hrun.
    apply traverse_nodes_body_choice in Hx as [Heq|(a & c & Heq & Hin)];
      rewrite Heq in Hrun; [discriminate|].
    apply IH in Hrun; [done|].
    destruct (Hch starter n a c Hn Hin) as (cn & Hc & Hcp & Hca).
    by apply (node_state_child board root_state h c cn starter a current_game).
  - injection Hrun as <- <-. split; [done|]. split; [by eexists|].
    intros n' Hn'. assert (n' = n) as -> by congruence.
    apply andb_false_iff in Hcond as [Hu|He].
    + left. by apply bool_decide_eq_false_1 in Hu.
    + right. by apply negb_false_iff in He.
Qed.
End Partition.

Section PartitionInvariant.
Context {F : Type} `{PyFloat F}.
Context {Action State Box : Type} `{EqDecision Action} `{EqDecision Box}.
Variable board : Board Action State Box.
Variable rand : nat → nat.
Variable frames : nat.
Variable root_state : State.
Implicit Types (h : Heap Action) (n : MCTSNode Action) (s : State).

(** The game model lists every legal action once. *)
Hypothesis legal_actions_NoDup : ∀ s, NoDup (legal_actions board s).

Lemma expand_leaf_partition h node state h1 node1 state1 :
  wf_parents h → partition_ok board root_state h → all_placed board root_state h →
  node_state board root_state h node state →
  expand_leaf board h node state = Ok (h1, node1, state1) →
  partition_ok board root_state h1 ∧ all_placed board root_state h1 ∧
  (is_ended board state = false →
   ∃ n n1 a, h !! node = Some n ∧ h1 !! node = Some n1 ∧
     untried_actions n = a :: untried_actions n1 ∧
     keys (child_nodes n1) = keys (child_nodes n) ++ [a]).
Proof.
  intros Hwf Hpart Hplaced Hs Hrun.
  apply expand_leaf_Ok in Hrun
    as [(He & -> & -> & ->)|(He & n & a & rest & Hn & Hu & -> & -> & ->)].
  { split; [done|]. split; [done|]. congruence. }
  pose proof (lookup_lt_Some _ _ _ Hn) as Hlt.
  set (h1 := expanded_heap board h node n a rest state).
  assert (∀ j nj, h !! j = Some nj →
            ∃ nj', h1 !! j = Some nj' ∧ parent nj' = parent nj ∧
              parent_action nj' = parent_action nj) as Hfwd.
  { intros j nj Hj.
    destruct (expanded_heap_old board h node n a rest state j nj Hn Hj)
      as (nj' & Hj' & Hp & Ha & _).
    by exists nj'. }
  assert (∀ j nj', (j < length h)%nat → h1 !! j = Some nj' →
            ∃ nj, h !! j = Some nj ∧ parent nj = parent nj' ∧
              parent_action nj = parent_action nj') as Hbwd.
  { intros j nj' Hjlt Hj.
    apply (expanded_heap_lookup board h node n a rest state j nj' Hn) in Hj
      as [(-> & ->)|[(-> & ->)|(Hne & _ & Hj)]]; [lia| |].
    - by exists n.
    - by exists nj'. }
  assert (keys (child_nodes n) ++ a :: rest = legal_actions board state) as Hlegal.
  { rewrite <- Hu. by apply (Hpart node n state). }
  assert (a ∉ keys (child_nodes n)) as Hfresh.
  { pose proof (legal_actions_NoDup state) as Hnd. rewrite <- Hlegal in Hnd.
    apply NoDup_app in Hnd as (_ & Hdisj & _). intros Hin.
    apply (Hdisj a Hin). by left. }
  assert (keys (child_nodes (expanded n a rest (length h)))
            = keys (child_nodes n) ++ [a]) as Hkeys.
  { simpl. rewrite dict_set_fresh by done. unfold keys. by rewrite fmap_app. }
  split; [|split].
  - intros i ni s Hi Hsi.
    apply (expanded_heap_lookup board h node n a rest state i ni Hn) in Hi as Hcase.
    destruct Hcase as [(-> & ->)|[(-> & ->)|(Hne & Hilt & Hi0)]].
    + simpl.
      inversion Hsi as [i' n' Hi' Hp'|i' n' p' a' s' Hi' Hp' Ha' Hs']; subst.
      * rewrite Hi in Hi'. injection Hi' as <-. discriminate.
      * rewrite Hi in Hi'. injection Hi' as <-. simpl in Hp', Ha'.
        injection Hp' as <-. injection Ha' as <-.
        apply (node_state_old board root_state h h1) in Hs'; [|done..].
        by rewrite (node_state_fun board root_state h node s' state Hs' Hs).
    + apply (node_state_old board root_state h h1) in Hsi; [|done..].
      rewrite Hkeys. simpl. rewrite <- app_assoc. simpl.
      rewrite <- Hu. by apply (Hpart node n s).
    + apply (node_state_old board root_state h h1) in Hsi; [|done..].
      by apply (Hpart i ni s).
  - intros i ni Hi.
    apply (expanded_heap_lookup board h node n a rest state i ni Hn) in Hi as Hcase.
    destruct Hcase as [(-> & ->)|[(-> & ->)|(Hne & Hilt & Hi0)]].
    + exists (next_state board state a).
      eapply (node_state_child board root_state h1 (length h) _ node a state);
        [apply expanded_heap_lookup_new | done | done |].
      by apply (node_state_links board root_state h h1).
    + exists state. by apply (node_state_links board root_state h h1).
    + destruct (Hplaced i ni Hi0) as [s Hsi]. exists s.
      by apply (node_state_links board root_state h h1).
  - intros _. exists n, (expanded n a rest (length h)), a.
    split; [done|]. split; [by apply expanded_heap_lookup_node|]. by split.
Qed.

Lemma backpropagate_partition limit h i won h' :
  wf_parents h → partition_ok board root_state h → all_placed board root_state h →
  backpropagate limit h i won = Ok h' →
  partition_ok board root_state h' ∧ all_placed board root_state h'.
Proof.
  intros Hwf Hpart Hplaced Hrun.
  destruct (backpropagate_nodes limit h i won h' Hwf Hrun) as (Hfwd & Hbwd & _).
  assert (∀ j s, node_state board root_state h j s ↔ node_state board root_state h' j s)
    as Hsame.
  { intros j s. split; apply node_state_links.
    - intros k nk Hk. destruct (Hfwd k nk Hk) as (nk' & Hk' & Hpass).
      destruct (passed_links won nk nk' Hpass) as (Hp & Ha & _). by exists nk'.
    - intros k nk' Hk. destruct (Hbwd k nk' Hk) as (nk & Hk0 & Hpass).
      destruct (passed_links won nk nk' Hpass) as (Hp & Ha & _). by exists nk. }
  split.
  - intros j nj' s Hj Hs. destruct (Hbwd j nj' Hj) as (nj & Hj0 & Hpass).
    destruct (passed_links won nj nj' Hpass) as (_ & _ & -> & ->).
    apply (Hpart j nj s Hj0). by apply Hsame.
  - intros j nj' Hj. destruct (Hbwd j nj' Hj) as (nj & Hj0 & _).
    destruct (Hplaced j nj Hj0) as [s Hs]. exists s. by apply Hsame.
Qed.

Lemma search_inv_init :
  search_inv board root_state [MCTSNode_new None None (legal_actions board root_state)].
Proof.
  assert (∀ i n, [MCTSNode_new None None (legal_actions board root_state)] !! i = Some n →
            node_state board root_state
              [MCTSNode_new None None (legal_actions board root_state)] i root_state)
    as Hroot.
  { intros i n Hi. by apply (node_state_root board root_state _ i n);
      [|apply list_lookup_singleton_Some in Hi as [_ <-]]. }
  split; [apply tree_inv_init|]. split; [|split].
  - intros i n s Hi Hs.
    rewrite (node_state_fun board root_state _ i s root_state Hs (Hroot i n Hi)).
    by apply list_lookup_singleton_Some in Hi as [_ <-].
  - intros i n Hi. exists root_state. by apply (Hroot i n).
  - by eexists.
Qed.

Lemma think_body_search_inv v fuel bot_identity st st' :
  search_inv board root_state st.1 →
  think_body F board rand frames v fuel root_state bot_identity st = Ok st' →
  search_inv board root_state st'.1.
Proof.
  intros (Hinv & Hpart & Hplaced & [r Hr]) Hrun.
  pose proof (think_body_inv board rand frames v fuel root_state bot_identity st st' Hinv Hrun)
    as (Hinv' & Hroot').
  destruct Hinv as (Hwf & Hcnt & Hvis & Hch).
  apply think_body_Ok in Hrun
    as (node & state & h1 & node1 & state1 & state2 & won & Htrav & Hexp & _ & _ & Hback).
  assert (node_state board root_state st.1 root_node root_state) as Hs0.
  { apply (node_state_root board root_state st.1 root_node r Hr).
    pose proof (Hwf root_node r Hr) as Hp. destruct (parent r); [|done].
    unfold root_node in Hp. lia. }
  apply (traverse_nodes_state board root_state) in Htrav as (Hs & _); [|done..].
  destruct (expand_leaf_partition st.1 node state h1 node1 state1 Hwf Hpart Hplaced Hs Hexp)
    as (Hpart1 & Hplaced1 & _).
  destruct (expand_leaf_inv board st.1 node state h1 node1 state1 Hwf Hcnt Hvis Hch Hexp)
    as (Hwf1 & _).
  destruct (backpropagate_partition frames h1 node1 won st'.1 Hwf1 Hpart1 Hplaced1 Hback)
    as (Hpart2 & Hplaced2).
  split; [done|]. split; [done|]. split; [done|].
  destruct (Hroot' r Hr) as (r' & Hr' & _). by eexists.
Qed.

Lemma think_loop_search_inv v fuel bot_identity budget st st' :
  search_inv board root_state st.1 →
  think_loop F board rand frames v fuel root_state bot_identity budget st = Ok st' →
  search_inv board root_state st'.1.
Proof.
  revert st. induction budget as [|budget IH]; intros st Hinv; simpl.
  - by intros [= <-].
  - intros Hrun. bind_inv Hrun. apply (IH x); [|done].
    by apply (think_body_search_inv v fuel bot_identity st x).
Qed.

Lemma think_tree_search_inv v fuel budget h :
  think_tree F board rand frames v fuel root_state budget = Ok h → search_inv board root_state h.
Proof.
  unfold think_tree. intros Hrun. bind_inv Hrun. injection Hrun as <-.
  apply (think_loop_search_inv v fuel (current_player board root_state) budget
           ([MCTSNode_new None None (legal_actions board root_state)], 0%nat) x);
    [apply search_inv_init | done].
Qed.

(** The partition, as sets and as sizes. *)
Lemma partition_sets n s :
  keys (child_nodes n) ++ untried_actions n = legal_actions board s →
  (∀ a, a ∈ untried_actions n ∨ a ∈ keys (child_nodes n) ↔ a ∈ legal_actions board s) ∧
  (∀ a, ¬ (a ∈ untried_actions n ∧ a ∈ keys (child_nodes n))) ∧
  (length (untried_actions n) + length (child_nodes n)
     = length (legal_actions board s))%nat.
Proof.
  clear rand frames.
  intros Heq. pose proof (legal_actions_NoDup s) as Hnd. rewrite <- Heq in *.
  apply NoDup_app in Hnd as (_ & Hdisj & _).
  split; [|split].
  - intros a. rewrite elem_of_app. tauto.
  - intros a [Hu Hk]. by apply (Hdisj a).
  - rewrite length_app. unfold keys. rewrite length_fmap. lia.
Qed.
End PartitionInvariant.

(** ** Runs on the small game *)

Lemma pairs_legal_actions_NoDup (s : Pairs.state) : NoDup (Pairs.legal_actions s).
Proof.
  unfold Pairs.legal_actions. destruct (Pairs.is_ended s); [constructor|].
  apply NoDup_filter, NoDup_seq.
Qed.

(** ** The children of the root *)

Section RootChildren.
Context {F : Type} `{PyFloat F} {Action : Type}.
Implicit Types (h : Heap Action) (r n : MCTSNode Action).

Lemma get_best_action_scan h root r :
  h !! root = Some r →
  (∀ a c, (a, c) ∈ child_nodes r → ∃ n, h !! c = Some n ∧ visits n ≠ 0) →
  get_best_action F h root =
    Ok (last_accepted best_init (candidates_of h (child_nodes r))).2.
Proof.
  intros Hr Hd. unfold get_best_action, deref. rewrite Hr. simpl.
  by rewrite (for_each_get_best_action h (child_nodes r) best_init Hd).
Qed.

(** In a tree between two passes the children of the root are visited. *)
Lemma root_children_visited h r :
  tree_inv h → h !! root_node = Some r →
  ∀ a c, (a, c) ∈ child_nodes r → ∃ n, h !! c = Some n ∧ 1 ≤ visits n ∧ 0 ≤ wins n.
Proof.
  intros (_ & Hcnt & Hvis & Hch) Hr a c Hin.
  destruct (Hch root_node r a c Hr Hin) as (n & Hc & Hp & _).
  destruct (Hvis c n root_node Hc Hp) as (Hv & _); [done|].
  exists n. split; [done|]. split; [done|]. by apply (Hcnt c n).
Qed.
End RootChildren.

Section RootChildrenReal.
Context {Action : Type}.
Implicit Types (h : Heap Action) (r n : MCTSNode Action).

Lemma get_best_action_first_child h r a0 c0 rest n0 :
  (∀ a c, (a, c) ∈ child_nodes r → ∃ n, h !! c = Some n ∧ 1 ≤ visits n ∧ 0 ≤ wins n) →
  child_nodes r = (a0, c0) :: rest → h !! c0 = Some n0 →
  get_best_action_body (F := R) h best_init (a0, c0) =
    Ok (win_rate (wins n0) (visits n0), visits n0, Some a0).
Proof.
  intros Hd Hcs Hc0.
  destruct (Hd a0 c0) as (n & Hc & Hv & Hw); [rewrite Hcs; by left|].
  assert (n = n0) as -> by congruence.
  rewrite (get_best_action_body_step h best_init a0 c0 n0 Hc0) by lia.
  unfold replaces_best, best_init. cbn [fst snd].
  rewrite win_rate_above_sentinel by done.
  by rewrite bool_decide_eq_true_2 by lia.
Qed.

Lemma get_best_action_real_some h root r :
  h !! root = Some r → child_nodes r ≠ [] →
  (∀ a c, (a, c) ∈ child_nodes r → ∃ n, h !! c = Some n ∧ 1 ≤ visits n ∧ 0 ≤ wins n) →
  ∃ a, get_best_action R h root = Ok (Some a).
Proof.
  intros Hr Hne Hd.
  rewrite (get_best_action_scan h root r Hr).
  2:{ intros a c Hin. destruct (Hd a c Hin) as (n & Hc & Hv & _).
      exists n. split; [done | lia]. }
  destruct (child_nodes r) as [|[a0 c0] rest] eqn:Hcs; [done|].
  destruct (Hd a0 c0) as (n0 & Hc0 & Hv & Hw); [by left|].
  simpl. rewrite Hc0. simpl.
  unfold replaces_best at 1, best_init. cbn [fst snd].
  rewrite win_rate_above_sentinel by done.
  rewrite bool_decide_eq_true_2 by lia. simpl.
  destruct (last_accepted_is_Some (F := R)
              (win_rate (wins n0) (visits n0), visits n0, Some a0)
              (candidates_of h rest)) as [a Ha]; [by eexists|].
  exists a. f_equal. exact Ha.
Qed.
End RootChildrenReal.

(** ** A search from a terminal state *)

Section TerminalRoot.
Context {F : Type} `{PyFloat F}.
Context {Action State Box : Type} `{EqDecision Action} `{EqDecision Box}.
Variable board : Board Action State Box.
Variable rand : nat → nat.
Variable frames : nat.
Variable current_state : State.
Hypothesis ended : is_ended board current_state = true.
Implicit Types (r : MCTSNode Action) (st : list (MCTSNode Action) * nat).

Lemma think_body_lone_root v fuel bot_identity st st' :
  lone_root st →
  think_body F board rand frames v fuel current_state bot_identity st = Ok st' →
  lone_root st'.
Proof.
  intros (r & Hst & Hp & Hc) Hrun.
  apply think_body_Ok in Hrun
    as (node & state & h1 & node1 & state1 & state2 & won & Htrav & Hexp & _ & _ & Hback).
  rewrite Hst in Htrav, Hexp.
  destruct fuel as [|fuel]; [discriminate|].
  simpl in Htrav. rewrite ended, andb_false_r in Htrav. injection Htrav as <- <-.
  rewrite (expand_leaf_ended board [r] root_node current_state ended) in Hexp.
  injection Hexp as <- <- <-.
  destruct frames as [|frames']; [discriminate|].
  simpl in Hback. rewrite Hp in Hback. injection Hback as Hback.
  exists (set_visits r (visits r + 1)). by rewrite <- Hback.
Qed.

Lemma think_loop_lone_root v fuel bot_identity budget st st' :
  lone_root st →
  think_loop F board rand frames v fuel current_state bot_identity budget st = Ok st' →
  lone_root st'.
Proof.
  revert st. induction budget as [|budget IH]; intros st Hst; simpl.
  - by intros [= <-].
  - intros Hrun. bind_inv Hrun. apply (IH x); [|done].
    by apply (think_body_lone_root v fuel bot_identity st x).
Qed.

(** Whatever the budget, the search returns [None] when it returns. *)
Lemma think_terminal_root v fuel result :
  think F board rand frames v fuel current_state = Ok result → result = None.
Proof.
  unfold think, think_tree. intros Hrun. bind_inv Hrun. bind_inv Hx.
  injection Hx as <-.
  apply think_loop_lone_root in Hx0 as (r & Hst & Hp & Hc); [|by eexists].
  rewrite Hst in Hrun.
  rewrite (get_best_action_no_child [r] root_node r eq_refl Hc) in Hrun.
  by injection Hrun as <-.
Qed.
End TerminalRoot.

(** * Further properties *)

(** ** The way down *)

Lemma for_each_Raise {A S : Type} (body : S → A → result S) (init : S) (l : list A)
    (e : exn) :
  for_each body init l = Raise e → ∃ s x, x ∈ l ∧ body s x = Raise e.
Proof.
  revert init. induction l as [|x l IH]; intros init; simpl; [discriminate|].
  destruct (body init x) as [s|e'] eqn:Hb; simpl.
  - intros Hrun. destruct (IH s Hrun) as (s' & y & Hy & Hby).
    exists s', y. split; [by right | done].
  - intros [= ->]. exists init, x. split; [by left | done].
Qed.

Section Descent.
Context {F : Type} `{PyFloat F}.
Context {Action State Box : Type} `{EqDecision Action} `{EqDecision Box}.
Variable board : Board Action State Box.
Implicit Types (h : Heap Action) (n : MCTSNode Action) (s : State).

Lemma traverse_nodes_way_down fuel h starter s current_identity bot_identity node state :
  traverse_nodes F board fuel h starter s current_identity bot_identity
    = Ok (node, state) →
  descends board h starter s node state ∧
  ∃ n, h !! node = Some n ∧ (untried_actions n ≠ [] ∨ is_ended board state = true).
Proof.
  revert starter s current_identity.
  induction fuel as [|fuel IH]; intros starter s current_identity; simpl; [discriminate|].
  intros Hrun. bind_inv Hrun. unfold deref in Hx.
  destruct (h !! starter) as [n|] eqn:Hn; [|discriminate]. injection Hx as <-.
  destruct (bool_decide _ && negb _) eqn:Hcond.
  - apply andb_true_iff in Hcond as [Hu He].
    apply bool_decide_eq_true_1 in Hu. apply negb_true_iff in He.
    bind_inv Hrun.
    apply traverse_nodes_body_choice in Hx as [Heq|(a & c & Heq & Hin)];
      rewrite Heq in Hrun; [discriminate|].
    apply IH in Hrun as (Hdown & Hstop). split; [|done].
    by apply (descends_child board h starter n a c s node state).
  - injection Hrun as <- <-. split; [apply descends_here|].
    exists n. split; [done|].
    apply andb_false_iff in Hcond as [Hu|He].
    + left. by apply bool_decide_eq_false_1 in Hu.
    + right. by apply negb_false_iff in He.
Qed.

Lemma ucb_fuel h c is_opponent : ucb (F := F) h c is_opponent ≠ Raise OutOfFuel.
Proof.
  unfold ucb, deref. destruct (h !! c) as [n|]; simpl; [|discriminate].
  destruct (parent n) as [p|]; [|discriminate].
  destruct (h !! p) as [pn|]; simpl; [|discriminate].
  unfold py_log, py_div, py_fdiv, py_sqrt.
  destruct (decide (visits pn ≤ 0)); simpl; [discriminate|].
  destruct (decide (visits n = 0)); simpl; [discriminate|].
  destruct (fgt _ _); simpl; discriminate.
Qed.

(** On a tree whose children are younger than their parents the loop of
    [traverse_nodes] makes fewer passes than the store has nodes. *)
Lemma traverse_nodes_fuel fuel h starter s current_identity bot_identity :
  wf_parents h → children_ok h → (starter < length h ≤ fuel + starter)%nat →
  traverse_nodes F board fuel h starter s current_identity bot_identity
    ≠ Raise OutOfFuel.
Proof.
  intros Hwf Hch. revert starter s current_identity.
  induction fuel as [|fuel IH]; intros starter s current_identity Hlt; [lia|].
  simpl. destruct (lookup_lt_is_Some_2 h starter) as [n Hn]; [lia|].
  unfold deref. rewrite Hn. simpl.
  destruct (bool_decide _ && negb _); [|discriminate].
  destruct (for_each _ _ _) as [sel|e] eqn:Hsel; simpl.
  - apply traverse_nodes_body_choice in Hsel as [Heq|(a & c & Heq & Hin)];
      rewrite Heq; [discriminate|].
    destruct (Hch starter n a c Hn Hin) as (cn & Hc & Hcp & _).
    pose proof (Hwf c cn Hc) as Hlink. rewrite Hcp in Hlink.
    apply lookup_lt_Some in Hc. apply IH. lia.
  - apply for_each_Raise in Hsel as (acc & [a c] & _ & Hbody).
    unfold traverse_nodes_body in Hbody.
    destruct (ucb h c _) as [u|e'] eqn:Hu; simpl in Hbody.
    + by destruct (fgt u acc.1).
    + injection Hbody as <-. intros [= ->]. by apply ucb_fuel in Hu.
Qed.
End Descent.

(** ** Playouts *)

Section DictKeys.
Context {K V : Type} `{EqDecision K}.
Implicit Types (d : list (K * V)) (k : K) (v : V).

Lemma dict_get_key d k : k ∈ keys d → ∃ v, dict_get d k = Ok v.
Proof.
  unfold keys. induction d as [|[k' v'] d IH]; simpl.
  - by intros ?%elem_of_nil.
  - intros Hin. destruct (decide (k' = k)) as [->|Hne]; [by eexists|].
    apply elem_of_cons in Hin as [->|Hin]; [done | by apply IH].
Qed.

Lemma dict_get_entry d k v : dict_get d k = Ok v → (k, v) ∈ d.
Proof.
  induction d as [|[k' v'] d IH]; simpl; [discriminate|].
  destruct (decide (k' = k)) as [->|Hne].
  - intros [= ->]. by left.
  - intros Hget. right. by apply IH.
Qed.
End DictKeys.

Section Playouts.
Context {Action State Box : Type} `{EqDecision Action} `{EqDecision Box}.
Variable board : Board Action State Box.
Variable rand : nat → nat.
Implicit Types (s state current_game : State) (a : Action).

Lemma choice_elem {A : Type} tick (l : list A) x : choice rand tick l = Ok x → x ∈ l.
Proof.
  unfold choice. destruct (l !! _) as [y|] eqn:Hy; [|discriminate].
  intros [= <-]. by eapply list_elem_of_lookup_2.
Qed.

Lemma choice_total {A : Type} tick (l : list A) :
  l ≠ [] → ∃ x, choice rand tick l = Ok x.
Proof.
  intros Hne. unfold choice.
  destruct (lookup_lt_is_Some_2 l (rand tick mod length l)%nat) as [x Hx].
  - apply Nat.mod_upper_bound. by destruct l.
  - exists x. by rewrite Hx.
Qed.

Lemma legal_play_trans s1 s2 s3 :
  legal_play board s1 s2 → legal_play board s2 s3 → legal_play board s1 s3.
Proof.
  intros H12 H23. induction H12 as [s|s a s' He Ha _ IH]; [done|].
  apply (legal_play_move board s a s3 He Ha). by apply IH.
Qed.

Lemma legal_play_step s a :
  is_ended board s = false → a ∈ legal_actions board s →
  legal_play board s (next_state board s a).
Proof. intros He Ha. apply (legal_play_move board s a _ He Ha), legal_play_here. Qed.

Lemma rollout_plays fuel s tick s' t :
  rollout board rand fuel s tick = Ok (s', t) →
  legal_play board s s' ∧ is_ended board s' = true ∧ (tick ≤ t)%nat.
Proof.
  revert s tick. induction fuel as [|fuel IH]; intros s tick; simpl; [discriminate|].
  destruct (is_ended board s) eqn:He.
  - intros [= <- <-]. split; [apply legal_play_here|]. split; [done | lia].
  - intros Hrun. bind_inv Hrun. apply choice_elem in Hx.
    apply IH in Hrun as (Hplay & Hend & Ht).
    split; [by apply (legal_play_move board s x s')|]. split; [done | lia].
Qed.

(** *** [heuristic] *)

Lemma heuristic_box_Ok bot_identity (avail_prev avail_next : list (Box * Z)) mini hit :
  bot_identity = 1 ∨ bot_identity = 2 →
  heuristic_box bot_identity avail_prev avail_next mini = Ok hit →
  ∃ before after,
    dict_get avail_prev mini = Ok before ∧ dict_get avail_next mini = Ok after ∧
    hit = bool_decide (before ≠ after) && bool_decide (after = bot_identity).
Proof.
  unfold heuristic_box. intros [-> | ->] Hrun; simpl in Hrun.
  - bind_inv Hrun. bind_inv Hrun. injection Hrun as <-. by exists x, x0.
  - bind_inv Hrun. bind_inv Hrun. injection Hrun as <-. by exists x, x0.
Qed.

Lemma heuristic_boxes_Ok bot_identity (avail_prev avail_next : list (Box * Z)) minis hit :
  bot_identity = 1 ∨ bot_identity = 2 →
  heuristic_boxes bot_identity avail_prev avail_next minis = Ok hit →
  hit = true ↔
  ∃ mini before after,
    mini ∈ minis ∧ dict_get avail_prev mini = Ok before ∧
    dict_get avail_next mini = Ok after ∧ before ≠ after ∧ after = bot_identity.
Proof.
  intros Hbot. induction minis as [|mini minis IH]; simpl.
  - intros [= <-]. split; [discriminate|].
    by intros (mini & _ & _ & ?%elem_of_nil & _).
  - intros Hrun. bind_inv Hrun.
    apply (heuristic_box_Ok _ _ _ _ _ Hbot) in Hx as (before & after & Hp & Hn & ->).
    destruct (bool_decide (before ≠ after) && bool_decide (after = bot_identity))
      eqn:Htest.
    + injection Hrun as <-. split; [intros _|done].
      apply andb_true_iff in Htest as [Hne Heq].
      apply bool_decide_eq_true_1 in Hne. apply bool_decide_eq_true_1 in Heq.
      exists mini, before, after. split; [by left | done].
    + rewrite (IH Hrun). split.
      * intros (m & b & c & Hin & Hrest). exists m, b, c. split; [by right | done].
      * intros (m & b & c & Hin & Hb & Hc & Hne & Heq).
        apply elem_of_cons in Hin as [->|Hin]; [|by exists m, b, c].
        exfalso. assert (b = before) as -> by congruence.
        assert (c = after) as -> by congruence.
        apply andb_false_iff in Htest as [Ht|Ht];
          apply bool_decide_eq_false_1 in Ht; by apply Ht.
Qed.

(** [heuristic] returns the first of [moves] that passes the test. *)
Lemma heuristic_first state moves bot_identity found :
  bot_identity = 1 ∨ bot_identity = 2 →
  heuristic board state moves bot_identity = Ok found →
  match found with
  | Some a =>
      ∃ pre post, moves = pre ++ a :: post ∧ wins_box board state bot_identity a ∧
        ∀ b, b ∈ pre → ¬ wins_box board state bot_identity b
  | None => ∀ b, b ∈ moves → ¬ wins_box board state bot_identity b
  end.
Proof.
  intros Hbot. revert found. induction moves as [|a moves IH]; intros found; simpl.
  - intros [= <-]. by intros b ?%elem_of_nil.
  - intros Hrun. bind_inv Hrun.
    pose proof (heuristic_boxes_Ok _ _ _ _ _ Hbot Hx) as Htest.
    destruct x.
    + injection Hrun as <-. exists [], moves. split; [done|]. split.
      * destruct (proj1 Htest eq_refl) as (m & b & c & Hin & Hrest).
        by exists m, b, c.
      * by intros b ?%elem_of_nil.
    + assert (¬ wins_box board state bot_identity a) as Hno.
      { intros (m & b & c & Hin & Hrest).
        assert (false = true); [|done]. apply Htest. by exists m, b, c. }
      specialize (IH found Hrun). destruct found as [a'|].
      * destruct IH as (pre & post & -> & Hwin & Hpre).
        exists (a :: pre), post. split; [done|]. split; [done|].
        intros b [->|Hb]%elem_of_cons; [done | by apply Hpre].
      * intros b [->|Hb]%elem_of_cons; [done | by apply IH].
Qed.

Lemma heuristic_elem state moves bot_identity a :
  heuristic board state moves bot_identity = Ok (Some a) → a ∈ moves.
Proof.
  induction moves as [|a' moves IH]; simpl; [discriminate|].
  intros Hrun. bind_inv Hrun. destruct x.
  - injection Hrun as <-. by left.
  - right. by apply IH.
Qed.

Lemma heuristic_boxes_other bot_identity (avail_prev avail_next : list (Box * Z)) minis :
  bot_identity ≠ 1 → bot_identity ≠ 2 →
  heuristic_boxes bot_identity avail_prev avail_next minis = Ok false.
Proof.
  intros H1 H2. induction minis as [|mini minis IH]; simpl; [done|].
  unfold heuristic_box. by rewrite !decide_False by done.
Qed.

(** For an identity other than 1 and 2 no test is made. *)
Lemma heuristic_other state moves bot_identity :
  bot_identity ≠ 1 → bot_identity ≠ 2 →
  heuristic board state moves bot_identity = Ok None.
Proof.
  intros H1 H2. induction moves as [|a moves IH]; simpl; [done|].
  by rewrite heuristic_boxes_other.
Qed.

(** Without a box there is nothing to test. *)
Lemma heuristic_no_box state moves bot_identity :
  owned_boxes board state = [] → heuristic board state moves bot_identity = Ok None.
Proof.
  intros Hb. induction moves as [|a moves IH]; simpl; [done|]. by rewrite Hb.
Qed.

Lemma heuristic_boxes_total bot_identity (avail_prev avail_next : list (Box * Z)) minis :
  (∀ mini, mini ∈ minis → mini ∈ keys avail_prev ∧ mini ∈ keys avail_next) →
  ∃ hit, heuristic_boxes bot_identity avail_prev avail_next minis = Ok hit.
Proof.
  induction minis as [|mini minis IH]; intros Hk; simpl; [by eexists|].
  destruct (Hk mini) as [Hp Hn]; [by left|].
  destruct (dict_get_key avail_prev mini Hp) as [p Hgp].
  destruct (dict_get_key avail_next mini Hn) as [n Hgn].
  assert (∃ hit, heuristic_box bot_identity avail_prev avail_next mini = Ok hit)
    as [hit ->].
  { unfold heuristic_box. rewrite Hgp, Hgn. simpl.
    repeat case_decide; by eexists. }
  simpl. destruct hit; [by eexists|]. apply IH. intros m Hm. apply Hk. by right.
Qed.

Lemma heuristic_total state moves bot_identity :
  (∀ a mini, mini ∈ keys (owned_boxes board state) →
     mini ∈ keys (owned_boxes board (next_state board state a))) →
  ∃ found, heuristic board state moves bot_identity = Ok found.
Proof.
  intros Hk. induction moves as [|a moves IH]; simpl; [by eexists|].
  destruct (heuristic_boxes_total bot_identity (owned_boxes board state)
              (owned_boxes board (next_state board state a))
              (keys (owned_boxes board state))) as [hit ->].
  { intros mini Hm. split; [done | by apply Hk]. }
  simpl. destruct hit; [by eexists | done].
Qed.

(** *** The rollout of [mcts_modified.py] *)

Lemma rollout_modified_loop_plays fuel state s bot_identity tick s' t :
  rollout_modified_loop board rand fuel state s bot_identity tick = Ok (s', t) →
  legal_play board s s' ∧ is_ended board s' = true ∧ (tick ≤ t)%nat.
Proof.
  revert s tick. induction fuel as [|fuel IH]; intros s tick; simpl; [discriminate|].
  destruct (is_ended board s) eqn:He.
  - intros [= <- <-]. split; [apply legal_play_here|]. split; [done | lia].
  - intros Hrun. bind_inv Hrun. destruct x as [a|].
    + apply heuristic_elem in Hx.
      apply IH in Hrun as (Hplay & Hend & Ht).
      split; [by apply (legal_play_move board s a s')|]. split; [done | lia].
    + bind_inv Hrun. apply choice_elem in Hx0.
      apply IH in Hrun as (Hplay & Hend & Ht).
      split; [by apply (legal_play_move board s x s')|]. split; [done | lia].
Qed.

Lemma rollout_of_plays v fuel s bot_identity tick s' t :
  rollout_of board rand v fuel s bot_identity tick = Ok (s', t) →
  legal_play board s s' ∧ is_ended board s' = true ∧ (tick ≤ t)%nat.
Proof. destruct v; [apply rollout_plays | apply rollout_modified_loop_plays]. Qed.

(** When the heuristic finds nothing the two rollouts are the same. *)
Lemma rollout_modified_loop_plain fuel state s bot_identity tick :
  (∀ moves, heuristic board state moves bot_identity = Ok None) →
  rollout_modified_loop board rand fuel state s bot_identity tick
    = rollout board rand fuel s tick.
Proof.
  intros Hnone. revert s tick. induction fuel as [|fuel IH]; intros s tick; simpl; [done|].
  destruct (is_ended board s); [done|]. rewrite Hnone. simpl.
  destruct (choice rand tick _); simpl; [apply IH | done].
Qed.

(** *** Games that end *)

Section Finite.
Variable size : State → nat.
Variable start : State.
Hypothesis can_move : ∀ s,
  legal_play board start s → is_ended board s = false → legal_actions board s ≠ [].
Hypothesis shrinks : ∀ s a,
  legal_play board start s → is_ended board s = false → a ∈ legal_actions board s →
  (size (next_state board s a) < size s)%nat.

Lemma rollout_total fuel s tick :
  legal_play board start s → (size s < fuel)%nat →
  ∃ s' t, rollout board rand fuel s tick = Ok (s', t).
Proof.
  revert s tick. induction fuel as [|fuel IH]; intros s tick Hs Hlt; [lia|].
  simpl. destruct (is_ended board s) eqn:He; [by eexists _, _|].
  destruct (choice_total tick (legal_actions board s)) as [a Ha]; [by apply can_move|].
  rewrite Ha. simpl. apply choice_elem in Ha.
  pose proof (shrinks s a Hs He Ha).
  apply IH; [|lia].
  apply (legal_play_trans start s); [done | by apply legal_play_step].
Qed.

Lemma rollout_modified_loop_total fuel state s bot_identity tick :
  (∀ a mini, mini ∈ keys (owned_boxes board state) →
     mini ∈ keys (owned_boxes board (next_state board state a))) →
  legal_play board start s → (size s < fuel)%nat →
  ∃ s' t, rollout_modified_loop board rand fuel state s bot_identity tick = Ok (s', t).
Proof.
  intros Hk. revert s tick. induction fuel as [|fuel IH]; intros s tick Hs Hlt; [lia|].
  simpl. destruct (is_ended board s) eqn:He; [by eexists _, _|].
  destruct (heuristic_total state (legal_actions board s) bot_identity Hk)
    as [found Hfound].
  rewrite Hfound. simpl. destruct found as [a|].
  - apply heuristic_elem in Hfound. pose proof (shrinks s a Hs He Hfound).
    apply IH; [|lia].
    apply (legal_play_trans start s); [done | by apply legal_play_step].
  - destruct (choice_total tick (legal_actions board s)) as [a Ha]; [by apply can_move|].
    rewrite Ha. simpl. apply choice_elem in Ha.
    pose proof (shrinks s a Hs He Ha).
    apply IH; [|lia].
    apply (legal_play_trans start s); [done | by apply legal_play_step].
Qed.

Lemma rollout_of_total v fuel s bot_identity tick :
  (∀ s a mini, mini ∈ keys (owned_boxes board s) →
     mini ∈ keys (owned_boxes board (next_state board s a))) →
  legal_play board start s → (size s < fuel)%nat →
  ∃ s' t, rollout_of board rand v fuel s bot_identity tick = Ok (s', t).
Proof.
  intros Hk Hs Hlt. destruct v; simpl.
  - by apply rollout_total.
  - apply rollout_modified_loop_total; [apply Hk | done..].
Qed.
End Finite.
End Playouts.

(** ** The way up *)

Section WayUp.
Context {Action : Type}.
Implicit Types (h : Heap Action) (n : MCTSNode Action).

Lemma ancestor_le h i j : wf_parents h → ancestor h i j → (j ≤ i)%nat.
Proof.
  intros Hwf Ha. induction Ha as [i|i n p j Hi Hp _ IH]; [lia|].
  pose proof (Hwf i n Hi) as Hlink. rewrite Hp in Hlink. lia.
Qed.

(** Being an ancestor depends on the parent references only. *)
Lemma ancestor_links h h' i j :
  (∀ k nk, h !! k = Some nk → ∃ nk', h' !! k = Some nk' ∧ parent nk' = parent nk) →
  ancestor h i j → ancestor h' i j.
Proof.
  intros Hlinks Ha. induction Ha as [i|i n p j Hi Hp _ IH]; [apply ancestor_self|].
  destruct (Hlinks i n Hi) as (n' & Hi' & Hp').
  apply (ancestor_up h' i n' p j); [done | congruence | done].
Qed.

Lemma ancestor_insert h i n n' k j :
  h !! i = Some n → parent n' = parent n →
  ancestor (<[i := n']> h) k j ↔ ancestor h k j.
Proof.
  intros Hi Hp. pose proof (lookup_lt_Some _ _ _ Hi) as Hlt.
  split; apply ancestor_links; intros m nm Hm; destruct (decide (m = i)) as [->|Hne].
  - rewrite list_lookup_insert_eq in Hm by done. injection Hm as <-. by exists n.
  - rewrite list_lookup_insert_ne in Hm by done. by exists nm.
  - exists n'. rewrite list_lookup_insert_eq by done. split; congruence.
  - exists nm. by rewrite list_lookup_insert_ne.
Qed.

(** [backpropagate] bumps the start node and its ancestors, and nothing
    else. *)
Lemma backpropagate_path limit h i won h' :
  wf_parents h → backpropagate limit h i won = Ok h' →
  length h' = length h ∧
  ∀ j nj, h !! j = Some nj →
    (ancestor h i j → h' !! j = Some (bump won nj)) ∧
    (¬ ancestor h i j → h' !! j = Some nj).
Proof.
  revert h i. induction limit as [|limit IH]; intros h i Hwf; simpl; [discriminate|].
  unfold deref. destruct (h !! i) as [n|] eqn:Hi; simpl; [|discriminate].
  pose proof (lookup_lt_Some _ _ _ Hi) as Hlt.
  pose proof (Hwf i n Hi) as Hlink.
  destruct (parent n) as [p|] eqn:Hp.
  - intros Hrun.
    set (n2 := set_wins (set_visits n (visits n + 1)) (wins n + (if won then 1 else 0))).
    apply IH in Hrun as (Hlen & Hnodes); [|by apply (wf_parents_insert h i n)].
    split; [by rewrite Hlen, length_insert|]. intros j nj Hj.
    pose proof (λ k, ancestor_insert h i n n2 p k Hi eq_refl) as Hanc.
    destruct (decide (j = i)) as [->|Hne].
    + assert (nj = n) as -> by congruence.
      destruct (Hnodes i n2) as [_ Hno]; [by apply list_lookup_insert_eq|].
      split.
      * intros _. rewrite Hno; [unfold bump; by rewrite Hp|].
        intros Ha%Hanc. apply ancestor_le in Ha; [lia | done].
      * intros Hna. exfalso. apply Hna, ancestor_self.
    + destruct (Hnodes j nj) as [Hyes Hno]; [by rewrite list_lookup_insert_ne|].
      split.
      * intros Ha. apply Hyes, Hanc.
        inversion Ha as [|i' n' p' j' Hi' Hp' Hup]; subst; [done|].
        assert (n' = n) as -> by congruence. congruence.
      * intros Hna. apply Hno. intros Ha%Hanc. apply Hna.
        by apply (ancestor_up h i n p j).
  - intros [= <-]. split; [by rewrite length_insert|]. intros j nj Hj.
    destruct (decide (j = i)) as [->|Hne].
    + assert (nj = n) as -> by congruence. split.
      * intros _. rewrite list_lookup_insert_eq by done. unfold bump. by rewrite Hp.
      * intros Hna. exfalso. apply Hna, ancestor_self.
    + rewrite list_lookup_insert_ne by done. split; [|done].
      intros Ha. inversion Ha as [|i' n' p' j' Hi' Hp' Hup]; subst; [done|].
      congruence.
Qed.
(** The calls that a path takes depend on the parent references only. *)
Lemma path_frames_links h h' i k :
  (∀ j nj, h !! j = Some nj → ∃ nj', h' !! j = Some nj' ∧ parent nj' = parent nj) →
  path_frames h i k → path_frames h' i k.
Proof.
  intros Hlinks Hk. induction Hk as [i n Hi Hp|i n p k Hi Hp _ IH].
  - destruct (Hlinks i n Hi) as (n' & Hi' & Hp').
    apply (path_frames_root h' i n'); congruence.
  - destruct (Hlinks i n Hi) as (n' & Hi' & Hp').
    apply (path_frames_up h' i n' p k); [done | congruence | done].
Qed.

Lemma path_frames_insert h i n n' j k :
  h !! i = Some n → parent n' = parent n →
  path_frames h j k → path_frames (<[i := n']> h) j k.
Proof.
  intros Hi Hp. pose proof (lookup_lt_Some _ _ _ Hi) as Hlt.
  apply path_frames_links. intros m nm Hm. destruct (decide (m = i)) as [->|Hne].
  - exists n'. rewrite list_lookup_insert_eq by done. split; congruence.
  - exists nm. by rewrite list_lookup_insert_ne.
Qed.

(** In a store whose parents are older than their children every node has
    a path to the root, of at most as many nodes as its index tells. *)
Lemma path_frames_exists h i :
  wf_parents h → is_Some (h !! i) → ∃ k, path_frames h i k ∧ (1 ≤ k ≤ S i)%nat.
Proof.
  intros Hwf. induction (lt_wf i) as [i _ IH]. intros [n Hi].
  pose proof (Hwf i n Hi) as Hlink. pose proof (lookup_lt_Some _ _ _ Hi) as Hlt.
  destruct (parent n) as [p|] eqn:Hp.
  - destruct (IH p Hlink) as (k & Hk & Hle); [apply lookup_lt_is_Some; lia|].
    exists (S k). split; [by apply (path_frames_up h i n p k) | lia].
  - exists 1%nat. split; [by apply (path_frames_root h i n) | lia].
Qed.

(** [backpropagate] returns when the interpreter has a frame for each node
    of the path, *)
Lemma backpropagate_returns frames h i won k :
  path_frames h i k → (k ≤ frames)%nat → ∃ h', backpropagate frames h i won = Ok h'.
Proof.
  revert h i k. induction frames as [|frames IH]; intros h i k Hk Hle.
  { inversion Hk; lia. }
  simpl. unfold deref.
  inversion Hk as [i' n Hi Hp|i' n p k' Hi Hp Hk']; subst; rewrite Hi; simpl; rewrite Hp.
  - by eexists.
  - apply (IH _ p k'); [|lia]. by apply (path_frames_insert h i n).
Qed.

(** and raises [RecursionError] when it has not. *)
Lemma backpropagate_overflow frames h i won k :
  path_frames h i k → (frames < k)%nat →
  backpropagate frames h i won = Raise RecursionError.
Proof.
  revert h i k. induction frames as [|frames IH]; intros h i k Hk Hlt; [done|].
  simpl. unfold deref.
  inversion Hk as [i' n Hi Hp|i' n p k' Hi Hp Hk']; subst; [lia|].
  rewrite Hi. simpl. rewrite Hp.
  apply (IH _ p k'); [|lia]. by apply (path_frames_insert h i n).
Qed.
End WayUp.

(** From the last node of a chain of 1500 nodes [backpropagate] raises
    [RecursionError] with the 990 frames of the examples; it returns when
    the recursion limit is raised to leave 1500 frames. *)
Lemma backpropagate_deep_chain :
  backpropagate fixture_frames (fixture_chain 1500) 1499%nat true
    = Raise RecursionError ∧
  ∃ h', backpropagate 1500 (fixture_chain 1500) 1499%nat true = Ok h'.
Proof. split; [vm_compute; reflexivity | eexists; vm_compute; reflexivity]. Qed.

(** ** What a search keeps *)

Section ExpanderBack.
Context {Action State Box : Type} `{EqDecision Action}.
Variable board : Board Action State Box.
Implicit Types (h : Heap Action) (n : MCTSNode Action) (node : node_id) (state : State).

(** An old node of an expanded store, seen from the new store. *)
Lemma expanded_heap_back h node n a rest state j nj' :
  h !! node = Some n → (j < length h)%nat →
  expanded_heap board h node n a rest state !! j = Some nj' →
  ∃ nj, h !! j = Some nj ∧
    parent nj' = parent nj ∧ parent_action nj' = parent_action nj ∧
    wins nj' = wins nj ∧ visits nj' = visits nj ∧
    (j ≠ node → nj' = nj) ∧ (j = node → nj' = expanded n a rest (length h)).
Proof.
  intros Hn Hlt Hj.
  apply (expanded_heap_lookup board h node n a rest state j nj' Hn) in Hj
    as [(-> & ->)|[(-> & ->)|(Hne & _ & Hj)]]; [lia| |].
  - exists n. by repeat split.
  - exists nj'. by repeat split.
Qed.

Lemma expand_leaf_length h node state h1 node1 state1 :
  expand_leaf board h node state = Ok (h1, node1, state1) →
  (length h ≤ length h1 ≤ S (length h))%nat.
Proof.
  intros Hrun. apply expand_leaf_Ok in Hrun
    as [(_ & -> & _)|(_ & n & a & rest & _ & _ & -> & _)]; [lia|].
  rewrite expanded_heap_length. lia.
Qed.

Lemma keys_dict_set {V : Type} (d : list (Action * V)) a v :
  keys d `prefix_of` keys (dict_set d a v).
Proof.
  unfold keys. induction d as [|[a' v'] d IH]; simpl; [apply prefix_nil|].
  destruct (decide (a' = a)) as [->|Hne]; simpl; [done|].
  by apply prefix_cons.
Qed.

Lemma dict_get_set_ne {V : Type} (d : list (Action * V)) a v a' :
  a' ≠ a → dict_get (dict_set d a v) a' = dict_get d a'.
Proof.
  intros Hne. induction d as [|[k w] d IH]; simpl.
  - by rewrite decide_False.
  - destruct (decide (k = a)) as [->|Hk]; simpl.
    + by rewrite !decide_False.
    + destruct (decide (k = a')); [done | apply IH].
Qed.

Lemma expand_leaf_grows h node state h1 node1 state1 :
  expand_leaf board h node state = Ok (h1, node1, state1) → grows h h1.
Proof.
  intros Hrun. apply expand_leaf_Ok in Hrun
    as [(_ & -> & _)|(_ & n & a & rest & Hn & Hu & -> & _)].
  - intros j nj Hj. exists nj. repeat split; [done | lia | lia | done | done].
  - intros j nj Hj. destruct (decide (j = node)) as [->|Hne].
    + assert (nj = n) as -> by congruence.
      exists (expanded n a rest (length h)).
      rewrite expanded_heap_lookup_node by done. simpl.
      repeat split; [lia | lia | | apply keys_dict_set].
      rewrite Hu. by apply suffix_cons_r.
    + exists nj. rewrite expanded_heap_lookup_other;
        [|done | by eapply lookup_lt_Some].
      repeat split; [done | lia | lia | done | done].
Qed.
End ExpanderBack.

Section GrowsFacts.
Context {Action : Type}.
Implicit Types (h : Heap Action).

Lemma grows_refl h : grows h h.
Proof.
  intros j nj Hj. exists nj. repeat split; [done | lia | lia | done | done].
Qed.

Lemma grows_trans h1 h2 h3 : grows h1 h2 → grows h2 h3 → grows h1 h3.
Proof.
  intros H12 H23 j n1 Hj.
  destruct (H12 j n1 Hj) as (n2 & Hj2 & Hp2 & Ha2 & Hv2 & Hw2 & Hu2 & Hk2).
  destruct (H23 j n2 Hj2) as (n3 & Hj3 & Hp3 & Ha3 & Hv3 & Hw3 & Hu3 & Hk3).
  exists n3. split; [done|]. split; [congruence|]. split; [congruence|].
  split; [lia|]. split; [lia|]. split; by etrans.
Qed.

Lemma backpropagate_grows limit h i won h' :
  wf_parents h → backpropagate limit h i won = Ok h' → grows h h'.
Proof.
  intros Hwf Hrun j nj Hj.
  destruct (backpropagate_nodes limit h i won h' Hwf Hrun) as (Hfwd & _).
  destruct (Hfwd j nj Hj) as (nj' & Hj' & Hpass). exists nj'. split; [done|].
  destruct (passed_links won nj nj' Hpass) as (-> & -> & -> & ->).
  split; [done|]. split; [done|].
  destruct Hpass as [->| ->]; [repeat split; (lia || done)|].
  destruct (bump_counts won nj) as [Hv [Hw|[Hw _]]]; repeat split; (lia || done).
Qed.

Lemma backpropagate_length limit h i won h' :
  backpropagate limit h i won = Ok h' → length h' = length h.
Proof.
  revert h i. induction limit as [|limit IH]; intros h i; simpl; [discriminate|].
  intros Hrun. bind_inv Hrun. destruct (parent x).
  - apply IH in Hrun. by rewrite length_insert in Hrun.
  - injection Hrun as <-. by rewrite length_insert.
Qed.
End GrowsFacts.

Section SearchKeeps.
Context {F : Type} `{PyFloat F}.
Context {Action State Box : Type} `{EqDecision Action} `{EqDecision Box}.
Variable board : Board Action State Box.
Variable rand : nat → nat.
Variable frames : nat.
Implicit Types (h : Heap Action) (n : MCTSNode Action) (st : list (MCTSNode Action) * nat).

(** What every pass keeps, the loop keeps. *)
Lemma think_loop_keeps (P : Heap Action → Prop) v fuel current_state bot_identity
    budget st st' :
  (∀ st0 st1, tree_inv st0.1 → P st0.1 →
     think_body F board rand frames v fuel current_state bot_identity st0 = Ok st1 → P st1.1) →
  tree_inv st.1 → P st.1 →
  think_loop F board rand frames v fuel current_state bot_identity budget st = Ok st' →
  P st'.1.
Proof.
  intros Hstep. revert st. induction budget as [|budget IH]; intros st Hinv HP; simpl.
  - by intros [= <-].
  - intros Hrun. bind_inv Hrun. apply (IH x); [| |done].
    + by apply (think_body_inv board rand frames v fuel current_state bot_identity st x).
    + by apply (Hstep st x).
Qed.

Lemma think_tree_keeps (P : Heap Action → Prop) v fuel current_state budget h :
  P [MCTSNode_new None None (legal_actions board current_state)] →
  (∀ st0 st1, tree_inv st0.1 → P st0.1 →
     think_body F board rand frames v fuel current_state (current_player board current_state)
       st0 = Ok st1 → P st1.1) →
  think_tree F board rand frames v fuel current_state budget = Ok h → P h.
Proof.
  intros Hinit Hstep. unfold think_tree. intros Hrun. bind_inv Hrun.
  injection Hrun as <-.
  apply (think_loop_keeps P v fuel current_state (current_player board current_state)
           budget ([MCTSNode_new None None (legal_actions board current_state)], 0%nat) x);
    [done | apply tree_inv_init | done | done].
Qed.

(** The store after the expansion of a pass, and the tree after it. *)
Lemma think_body_stages v fuel current_state bot_identity st st' :
  tree_inv st.1 →
  think_body F board rand frames v fuel current_state bot_identity st = Ok st' →
  ∃ node state h1 node1 state1 state2 won,
    traverse_nodes F board fuel st.1 root_node current_state bot_identity bot_identity
      = Ok (node, state) ∧
    expand_leaf board st.1 node state = Ok (h1, node1, state1) ∧
    rollout_of board rand v fuel state1 bot_identity st.2 = Ok (state2, st'.2) ∧
    is_win board state2 bot_identity = Ok won ∧
    backpropagate frames h1 node1 won = Ok st'.1 ∧
    wf_parents h1 ∧ counts_ok h1 ∧ children_ok h1.
Proof.
  intros (Hwf & Hcnt & Hvis & Hch) Hrun.
  apply think_body_Ok in Hrun
    as (node & state & h1 & node1 & state1 & state2 & won & Htrav & Hexp & Hroll & Hwin
        & Hback).
  destruct (expand_leaf_inv board st.1 node state h1 node1 state1 Hwf Hcnt Hvis Hch Hexp)
    as (Hwf1 & Hcnt1 & _ & Hch1 & _).
  by exists node, state, h1, node1, state1, state2, won.
Qed.

(** *** The size of the store *)

Lemma think_body_length v fuel current_state bot_identity st st' :
  think_body F board rand frames v fuel current_state bot_identity st = Ok st' →
  (length st.1 ≤ length st'.1 ≤ S (length st.1))%nat.
Proof.
  intros Hrun. apply think_body_Ok in Hrun
    as (node & state & h1 & node1 & state1 & state2 & won & _ & Hexp & _ & _ & Hback).
  apply expand_leaf_length in Hexp. apply backpropagate_length in Hback. lia.
Qed.

Lemma think_loop_length v fuel current_state bot_identity budget st st' :
  think_loop F board rand frames v fuel current_state bot_identity budget st = Ok st' →
  (length st.1 ≤ length st'.1 ≤ length st.1 + budget)%nat.
Proof.
  revert st. induction budget as [|budget IH]; intros st; simpl.
  - intros [= <-]. lia.
  - intros Hrun. bind_inv Hrun. apply think_body_length in Hx. apply IH in Hrun. lia.
Qed.

(** *** Growth *)

Lemma think_body_grows v fuel current_state bot_identity st st' :
  tree_inv st.1 →
  think_body F board rand frames v fuel current_state bot_identity st = Ok st' →
  grows st.1 st'.1.
Proof.
  intros Hinv Hrun.
  apply think_body_stages in Hrun
    as (node & state & h1 & node1 & state1 & state2 & won & _ & Hexp & _ & _ & Hback
        & Hwf1 & _); [|done].
  apply (grows_trans st.1 h1).
  - by apply (expand_leaf_grows board st.1 node state h1 node1 state1).
  - by apply (backpropagate_grows frames h1 node1 won).
Qed.

Lemma think_loop_grows v fuel current_state bot_identity budget st st' :
  tree_inv st.1 →
  think_loop F board rand frames v fuel current_state bot_identity budget st = Ok st' →
  grows st.1 st'.1.
Proof.
  revert st. induction budget as [|budget IH]; intros st Hinv; simpl.
  - intros [= <-]. apply grows_refl.
  - intros Hrun. bind_inv Hrun. apply (grows_trans st.1 x.1).
    + by apply (think_body_grows v fuel current_state bot_identity).
    + apply IH; [|done].
      by apply (think_body_inv board rand frames v fuel current_state bot_identity st x).
Qed.

(** More passes continue the loop where fewer passes leave it. *)
Lemma think_loop_add v fuel current_state bot_identity budget more st :
  think_loop F board rand frames v fuel current_state bot_identity (budget + more) st =
    think_loop F board rand frames v fuel current_state bot_identity budget st ≫=
      think_loop F board rand frames v fuel current_state bot_identity more.
Proof.
  revert st. induction budget as [|budget IH]; intros st; simpl; [done|].
  destruct (think_body F board rand frames v fuel current_state bot_identity st) as [st1|e];
    simpl; [apply IH | done].
Qed.

Lemma think_tree_grows v fuel current_state budget more h h' :
  think_tree F board rand frames v fuel current_state budget = Ok h →
  think_tree F board rand frames v fuel current_state (budget + more) = Ok h' →
  grows h h'.
Proof.
  unfold think_tree. intros Hrun Hrun'. bind_inv Hrun. injection Hrun as <-.
  bind_inv Hrun'. injection Hrun' as <-.
  rewrite think_loop_add, Hx in Hx0. simpl in Hx0.
  apply (think_loop_grows v fuel current_state (current_player board current_state)
           more x x0); [|done].
  apply (think_loop_inv board rand frames v fuel current_state
           (current_player board current_state) budget
           ([MCTSNode_new None None (legal_actions board current_state)], 0%nat) x);
    [apply tree_inv_init | done].
Qed.

(** *** The root *)

Lemma root_ok_init current_state :
  root_ok board current_state [MCTSNode_new None None (legal_actions board current_state)].
Proof.
  eexists. split; [done|]. split; [done|]. split; [done|].
  intros a [Hin|Hin]; [by apply elem_of_nil in Hin | done].
Qed.

Lemma think_body_root_ok v fuel current_state bot_identity st st' :
  tree_inv st.1 → root_ok board current_state st.1 →
  think_body F board rand frames v fuel current_state bot_identity st = Ok st' →
  root_ok board current_state st'.1.
Proof.
  intros Hinv (r & Hr & Hp & Hw & Hlegal) Hrun.
  apply think_body_stages in Hrun
    as (node & state & h1 & node1 & state1 & state2 & won & _ & Hexp & _ & _ & Hback
        & Hwf1 & _); [|done].
  assert (∃ r1, h1 !! root_node = Some r1 ∧ parent r1 = None ∧ wins r1 = 0 ∧
            ∀ a, a ∈ keys (child_nodes r1) ∨ a ∈ untried_actions r1 →
              a ∈ legal_actions board current_state) as (r1 & Hr1 & Hp1 & Hw1 & Hlegal1).
  { apply expand_leaf_Ok in Hexp
      as [(_ & -> & _)|(_ & n & a & rest & Hn & Hu & -> & _)]; [by exists r|].
    destruct (decide (node = root_node)) as [->|Hne].
    - assert (n = r) as -> by congruence.
      exists (expanded r a rest (length st.1)).
      rewrite expanded_heap_lookup_node by done.
      split; [done|]. split; [done|]. split; [done|].
      intros b [Hb|Hb]; simpl in Hb.
      + apply list_elem_of_fmap in Hb as ([b' c] & -> & Hb). simpl.
        apply elem_of_dict_set in Hb as [[= -> ->]|Hb].
        * apply Hlegal. right. rewrite Hu. by left.
        * apply Hlegal. left. apply list_elem_of_fmap. by exists (b', c).
      + apply Hlegal. right. rewrite Hu. by right.
    - exists r. rewrite expanded_heap_lookup_other;
        [done | done | by eapply lookup_lt_Some]. }
  destruct (backpropagate_nodes frames h1 node1 won st'.1 Hwf1 Hback) as (_ & _ & _ & Hroot).
  exists (bump won r1). split; [by apply Hroot|].
  destruct (bump_links won r1) as (-> & _ & -> & ->).
  split; [done|]. split; [|done].
  destruct (bump_counts won r1) as [_ [->|(_ & Hpar & _)]]; done.
Qed.

Lemma think_tree_root_ok v fuel current_state budget h :
  think_tree F board rand frames v fuel current_state budget = Ok h →
  root_ok board current_state h.
Proof.
  apply (think_tree_keeps (root_ok board current_state)); [apply root_ok_init|].
  intros st0 st1. apply think_body_root_ok.
Qed.

(** An action that [get_best_action] returns is the key of a child. *)
Lemma get_best_action_body_key h (d : list (Action * node_id))
    (acc acc' : best_so_far F Action) :
  for_each (get_best_action_body h) acc d = Ok acc' →
  acc'.2 = acc.2 ∨ ∃ a c n, acc'.2 = Some a ∧ (a, c) ∈ d ∧ h !! c = Some n.
Proof.
  revert acc. induction d as [|[a c] d IH]; intros acc; simpl.
  - intros [= <-]. by left.
  - intros Hrun. bind_inv Hrun.
    assert (x.2 = acc.2 ∨ ∃ n, x.2 = Some a ∧ h !! c = Some n) as Hstep.
    { destruct acc as [[val visit] chosen]. unfold get_best_action_body in Hx.
      bind_inv Hx. bind_inv Hx. unfold deref in Hx0.
      destruct (h !! c) as [n|]; [|discriminate].
      destruct (fgt x1 val); [|injection Hx as <-; by left].
      destruct (decide _); injection Hx as <-; [right; by exists n | by left]. }
    destruct (IH x Hrun) as [Heq|(a' & c' & n' & Heq & Hin & Hc)].
    + destruct Hstep as [Hs|(n & Hs & Hc)]; [left; congruence|].
      right. exists a, c, n. split; [congruence|]. split; [by left | done].
    + right. exists a', c', n'. split; [done|]. split; [by right | done].
Qed.

Lemma get_best_action_key h root a :
  get_best_action F h root = Ok (Some a) →
  ∃ r c n, h !! root = Some r ∧ (a, c) ∈ child_nodes r ∧ h !! c = Some n.
Proof.
  unfold get_best_action, deref. intros Hrun. bind_inv Hrun.
  destruct (h !! root) as [r|]; [|discriminate]. injection Hx as <-.
  bind_inv Hrun. injection Hrun as Hrun.
  apply get_best_action_body_key in Hx as [Heq|(a' & c & n & Heq & Hin & Hc)].
  - rewrite Hrun in Heq. discriminate.
  - exists r, c, n. split; [done|]. split; [congruence | done].
Qed.

(** *** Visits, up the tree *)

Lemma think_body_visits_up v fuel current_state bot_identity st st' :
  tree_inv st.1 → visits_up st.1 →
  think_body F board rand frames v fuel current_state bot_identity st = Ok st' →
  visits_up st'.1.
Proof.
  intros Hinv Hup Hrun.
  apply think_body_stages in Hrun
    as (node & state & h1 & node1 & state1 & state2 & won & _ & Hexp & _ & _ & Hback
        & Hwf1 & Hcnt1 & _); [|done].
  assert (visits_up h1) as Hup1.
  { apply expand_leaf_Ok in Hexp
      as [(_ & -> & _)|(_ & n & a & rest & Hn & Hu & -> & _)]; [done|].
    intros i ni p pn Hi Hp Hpn.
    pose proof (Hwf1 i ni Hi) as Hlink. rewrite Hp in Hlink.
    apply lookup_lt_Some in Hi as Hlt. rewrite expanded_heap_length in Hlt.
    destruct (expanded_heap_back board st.1 node n a rest state p pn Hn) as
      (pn0 & Hpn0 & _ & _ & _ & Hpv & _); [lia | done|].
    destruct (decide (i = length st.1)) as [->|Hold].
    - rewrite expanded_heap_lookup_new in Hi. injection Hi as <-. simpl.
      pose proof (Hcnt1 p pn Hpn). lia.
    - destruct (expanded_heap_back board st.1 node n a rest state i ni Hn) as
        (ni0 & Hi0 & Hp0 & _ & _ & Hv & _); [lia | done|].
      rewrite Hv, Hpv. apply (Hup i ni0 p pn0); congruence. }
  destruct (backpropagate_spec frames h1 node1 won st'.1 Hwf1 Hback)
    as (B & Hlook & _ & _ & _ & _ & Hclosed).
  intros i ni' p pn' Hi Hp Hpn. rewrite Hlook in Hi, Hpn.
  apply fmap_Some in Hi as (ni & Hi & ->). apply fmap_Some in Hpn as (pn & Hpn & ->).
  assert (parent ni = Some p) as Hp1.
  { destruct (B i); [|done]. by destruct (bump_links won ni) as (<- & _). }
  pose proof (Hup1 i ni p pn Hi Hp1 Hpn) as Hle.
  destruct (B i) eqn:HBi.
  - rewrite (Hclosed i ni p HBi Hi Hp1).
    destruct (bump_counts won ni) as [-> _]. destruct (bump_counts won pn) as [-> _]. lia.
  - destruct (B p); [|done]. destruct (bump_counts won pn) as [-> _]. lia.
Qed.

Lemma think_tree_visits_up v fuel current_state budget h :
  think_tree F board rand frames v fuel current_state budget = Ok h → visits_up h.
Proof.
  apply (think_tree_keeps visits_up).
  - intros i n p pn Hi Hp. by apply list_lookup_singleton_Some in Hi as [_ <-].
  - intros st0 st1. apply think_body_visits_up.
Qed.
End SearchKeeps.

(** ** Parents and children *)

Section Registered.
Context {F : Type} `{PyFloat F}.
Context {Action State Box : Type} `{EqDecision Action} `{EqDecision Box}.
Variable board : Board Action State Box.
Variable rand : nat → nat.
Variable frames : nat.
Variable root_state : State.
Implicit Types (h : Heap Action) (n : MCTSNode Action) (st : list (MCTSNode Action) * nat).

Hypothesis legal_actions_NoDup : ∀ s, NoDup (legal_actions board s).

(** What every pass keeps on a tree with the partition, the loop keeps. *)
Lemma think_loop_keeps_search (P : Heap Action → Prop) v fuel bot_identity budget st st' :
  (∀ st0 st1, search_inv board root_state st0.1 → P st0.1 →
     think_body F board rand frames v fuel root_state bot_identity st0 = Ok st1 → P st1.1) →
  search_inv board root_state st.1 → P st.1 →
  think_loop F board rand frames v fuel root_state bot_identity budget st = Ok st' →
  P st'.1.
Proof.
  intros Hstep. revert st. induction budget as [|budget IH]; intros st Hinv HP; simpl.
  - by intros [= <-].
  - intros Hrun. bind_inv Hrun. apply (IH x); [| |done].
    + by apply (think_body_search_inv board rand frames root_state legal_actions_NoDup
                  v fuel bot_identity st x).
    + by apply (Hstep st x).
Qed.

Lemma think_tree_keeps_search (P : Heap Action → Prop) v fuel budget h :
  P [MCTSNode_new None None (legal_actions board root_state)] →
  (∀ st0 st1, search_inv board root_state st0.1 → P st0.1 →
     think_body F board rand frames v fuel root_state (current_player board root_state)
       st0 = Ok st1 → P st1.1) →
  think_tree F board rand frames v fuel root_state budget = Ok h → P h.
Proof.
  intros Hinit Hstep. unfold think_tree. intros Hrun. bind_inv Hrun.
  injection Hrun as <-.
  apply (think_loop_keeps_search P v fuel (current_player board root_state)
           budget ([MCTSNode_new None None (legal_actions board root_state)], 0%nat) x);
    [done | apply search_inv_init | done | done].
Qed.

(** The state of the root is the state of the search. *)
Lemma node_state_root_node h :
  search_inv board root_state h → node_state board root_state h root_node root_state.
Proof.
  intros ((Hwf & _) & _ & _ & [r Hr]).
  apply (node_state_root board root_state h root_node r Hr).
  pose proof (Hwf root_node r Hr) as Hp. destruct (parent r); [|done].
  unfold root_node in Hp. lia.
Qed.

(** The first untried action of a node is not the action of a child. *)
Lemma untried_fresh h i n s a rest :
  partition_ok board root_state h → h !! i = Some n →
  node_state board root_state h i s → untried_actions n = a :: rest →
  (a ∉ keys (child_nodes n)) ∧ a ∈ legal_actions board s.
Proof.
  intros Hpart Hi Hs Hu. pose proof (Hpart i n s Hi Hs) as Hlegal.
  rewrite Hu in Hlegal. pose proof (legal_actions_NoDup s) as Hnd.
  rewrite <- Hlegal in *. split.
  - apply NoDup_app in Hnd as (_ & Hdisj & _). intros Hin.
    apply (Hdisj a Hin). by left.
  - apply elem_of_app. right. by left.
Qed.

Lemma expand_leaf_registered h node state h1 node1 state1 :
  partition_ok board root_state h → node_state board root_state h node state →
  registered h → expand_leaf board h node state = Ok (h1, node1, state1) →
  registered h1.
Proof.
  intros Hpart Hs Hreg Hexp.
  apply expand_leaf_Ok in Hexp
    as [(_ & -> & _)|(_ & n & a & rest & Hn & Hu & -> & _)]; [done|].
  destruct (untried_fresh h node n state a rest Hpart Hn Hs Hu) as (Hfresh & _).
  pose proof (lookup_lt_Some _ _ _ Hn) as Hlt.
  assert (∀ i ni p, h !! i = Some ni → parent ni = Some p →
            ∃ pn b, expanded_heap board h node n a rest state !! p = Some pn ∧
              parent_action ni = Some b ∧ dict_get (child_nodes pn) b = Ok i) as Hold.
  { intros i ni p Hi Hp. destruct (Hreg i ni p Hi Hp) as (pn & b & Hpn & Hb & Hget).
    destruct (decide (p = node)) as [->|Hne].
    - assert (pn = n) as -> by congruence.
      exists (expanded n a rest (length h)), b.
      rewrite expanded_heap_lookup_node by done. split; [done|]. split; [done|].
      simpl. rewrite dict_get_set_ne; [done|]. intros ->. apply Hfresh.
      apply dict_get_entry in Hget. apply list_elem_of_fmap. by exists (a, i).
    - exists pn, b. rewrite expanded_heap_lookup_other;
        [done | done | by eapply lookup_lt_Some]. }
  intros i ni p Hi Hp.
  apply (expanded_heap_lookup board h node n a rest state i ni Hn) in Hi
    as [(-> & ->)|[(-> & ->)|(Hne & _ & Hi)]].
  - injection Hp as <-. exists (expanded n a rest (length h)), a.
    rewrite expanded_heap_lookup_node by done. split; [done|]. split; [done|].
    simpl. apply dict_get_set_eq.
  - by apply (Hold node n).
  - by apply (Hold i ni).
Qed.

Lemma backpropagate_registered limit h i won h' :
  wf_parents h → registered h → backpropagate limit h i won = Ok h' → registered h'.
Proof.
  intros Hwf Hreg Hback.
  destruct (backpropagate_nodes limit h i won h' Hwf Hback) as (Hfwd & Hbwd & _).
  intros j nj' p Hj Hp. destruct (Hbwd j nj' Hj) as (nj & Hj1 & Hpass).
  destruct (passed_links won nj nj' Hpass) as (Hp' & Ha' & _). rewrite Hp' in Hp.
  destruct (Hreg j nj p Hj1 Hp) as (pn & b & Hpn & Hb & Hget).
  destruct (Hfwd p pn Hpn) as (pn' & Hpn' & Hpassp).
  destruct (passed_links won pn pn' Hpassp) as (_ & _ & Hc & _).
  exists pn', b. split; [done|]. split; [congruence|]. by rewrite Hc.
Qed.

(** The stages of a pass on a tree with the partition: the node and the
    state of the way down belong together, and the expansion keeps the
    partition. *)
Lemma think_body_search_stages v fuel bot_identity st st' :
  search_inv board root_state st.1 →
  think_body F board rand frames v fuel root_state bot_identity st = Ok st' →
  ∃ node state h1 node1 state1 won,
    node_state board root_state st.1 node state ∧
    expand_leaf board st.1 node state = Ok (h1, node1, state1) ∧
    backpropagate frames h1 node1 won = Ok st'.1 ∧
    wf_parents h1 ∧ children_ok h1 ∧
    partition_ok board root_state h1 ∧ all_placed board root_state h1.
Proof.
  intros Hsearch Hrun. pose proof (node_state_root_node st.1 Hsearch) as Hs0.
  destruct Hsearch as (Hinv & Hpart & Hplaced & _).
  apply think_body_stages in Hrun
    as (node & state & h1 & node1 & state1 & state2 & won & Htrav & Hexp & _ & _ & Hback
        & Hwf1 & _ & Hch1); [|done].
  destruct Hinv as (Hwf & _ & _ & Hch).
  apply (traverse_nodes_state board root_state) in Htrav as (Hs & _); [|done..].
  destruct (expand_leaf_partition board root_state legal_actions_NoDup st.1 node state
              h1 node1 state1 Hwf Hpart Hplaced Hs Hexp) as (Hpart1 & Hplaced1 & _).
  by exists node, state, h1, node1, state1, won.
Qed.

Lemma think_body_registered v fuel bot_identity st st' :
  search_inv board root_state st.1 → registered st.1 →
  think_body F board rand frames v fuel root_state bot_identity st = Ok st' →
  registered st'.1.
Proof.
  intros Hsearch Hreg Hrun. pose proof Hsearch as (_ & Hpart & _).
  apply think_body_search_stages in Hrun
    as (node & state & h1 & node1 & state1 & won & Hs & Hexp & Hback & Hwf1 & _);
    [|done].
  apply (backpropagate_registered frames h1 node1 won); [done| |done].
  by apply (expand_leaf_registered st.1 node state h1 node1 state1).
Qed.

Lemma think_tree_registered v fuel budget h :
  think_tree F board rand frames v fuel root_state budget = Ok h → registered h.
Proof.
  apply (think_tree_keeps_search registered).
  - intros i n p Hi Hp. by apply list_lookup_singleton_Some in Hi as [_ <-].
  - intros st0 st1. apply think_body_registered.
Qed.
End Registered.

(** ** The selection, over the exact reals *)

(** The exploration term of [ucb]. *)
Lemma ucb_code_bounds (is_opponent : bool) (W N Np : Z) :
  0 ≤ W ≤ N → 1 ≤ N → 1 ≤ Np →
  (0 <= 2 * sqrt (ln (IZR Np) / ln (271828 / 100000) / IZR N) ∧
   2 * sqrt (ln (IZR Np) / ln (271828 / 100000) / IZR N)
     <= ucb_code is_opponent W N Np
     <= 1 + 2 * sqrt (ln (IZR Np) / ln (271828 / 100000) / IZR N))%R.
Proof.
  intros [HW0 HWN] HN HNp. unfold ucb_code.
  pose proof (sqrt_pos (ln (IZR Np) / ln (271828 / 100000) / IZR N)) as Hs.
  assert (0 <= IZR W)%R as H0 by (by apply (IZR_le 0)).
  assert (IZR W <= IZR N)%R as H1 by (by apply IZR_le).
  assert (0 < IZR N)%R as H2 by (apply (IZR_lt 0); lia).
  assert (0 <= IZR W / IZR N <= 1)%R as [Hr0 Hr1].
  { split; [by apply Rle_mult_inv_pos|].
    apply (Rmult_le_reg_r (IZR N)); [done|].
    unfold Rdiv. rewrite Rmult_assoc, Rinv_l by lra. lra. }
  destruct is_opponent; lra.
Qed.

Section SelectionReal.
Context {Action : Type}.
Implicit Types (h : Heap Action) (n : MCTSNode Action).

(** The inner loop of [traverse_nodes] leaves the first of the greatest
    values that exceed the value it starts with. *)
Lemma selection_first_max h is_opponent (d : list (Action * node_id))
    (acc : selection R Action) :
  (∀ a c, (a, c) ∈ d → ∃ u, ucb (F := R) h c is_opponent = Ok u) →
  ∃ sel, for_each (traverse_nodes_body h is_opponent) acc d = Ok sel ∧
    ((sel = acc ∧
      ∀ a c u, (a, c) ∈ d → ucb (F := R) h c is_opponent = Ok u → (u <= acc.1)%R) ∨
     (∃ pre a c post u,
        d = pre ++ (a, c) :: post ∧ sel = (u, Some (c, a)) ∧
        ucb (F := R) h c is_opponent = Ok u ∧ (acc.1 < u)%R ∧
        (∀ a' c' u', (a', c') ∈ pre →
           ucb (F := R) h c' is_opponent = Ok u' → (u' < u)%R) ∧
        (∀ a' c' u', (a', c') ∈ post →
           ucb (F := R) h c' is_opponent = Ok u' → (u' <= u)%R))).
Proof.
  revert acc. induction d as [|[a c] d IH]; intros acc Hd; simpl.
  - exists acc. split; [done|]. left. split; [done|].
    by intros a c u ?%elem_of_nil.
  - destruct (Hd a c) as [u Hu]; [by left|].
    unfold traverse_nodes_body at 1. rewrite Hu. simpl.
    assert (∀ a' c', (a', c') ∈ d → ∃ u', ucb (F := R) h c' is_opponent = Ok u') as Hd'.
    { intros a' c' Hin. apply (Hd a' c'). by right. }
    destruct (Rlt_dec acc.1 u) as [Hlt|Hge]; simpl.
    + destruct (IH (u, Some (c, a)) Hd') as (sel & Hrun & Hsel).
      exists sel. split; [done|]. right.
      destruct Hsel as [(-> & Hall)|(pre & a2 & c2 & post & u2 & -> & -> & Hu2 & Hlt2
                                       & Hpre & Hpost)].
      * exists [], a, c, d, u. repeat split; [done | done |..].
        -- by intros a' c' u' ?%elem_of_nil.
        -- intros a' c' u' Hin Hu'. by apply (Hall a' c' u').
      * simpl in Hlt2. exists ((a, c) :: pre), a2, c2, post, u2.
        repeat split; [done | lra | | done].
        intros a' c' u' [[= -> ->]|Hin]%elem_of_cons Hu'.
        -- assert (u' = u) as -> by congruence. done.
        -- by apply (Hpre a' c' u').
    + destruct (IH acc Hd') as (sel & Hrun & Hsel).
      exists sel. split; [done|].
      destruct Hsel as [(-> & Hall)|(pre & a2 & c2 & post & u2 & -> & -> & Hu2 & Hlt2
                                       & Hpre & Hpost)].
      * left. split; [done|].
        intros a' c' u' [[= -> ->]|Hin]%elem_of_cons Hu'.
        -- assert (u' = u) as -> by congruence. lra.
        -- by apply (Hall a' c' u').
      * right. exists ((a, c) :: pre), a2, c2, post, u2.
        repeat split; [done | done | | done].
        intros a' c' u' [[= -> ->]|Hin]%elem_of_cons Hu'.
        -- assert (u' = u) as -> by congruence. lra.
        -- by apply (Hpre a' c' u').
Qed.

(** A child in a tree between two passes has a value, which is not
    negative. *)
Lemma ucb_child h i n a c is_opponent :
  tree_inv h → h !! i = Some n → (a, c) ∈ child_nodes n →
  ∃ u, ucb (F := R) h c is_opponent = Ok u ∧ (0 <= u)%R.
Proof.
  intros (Hwf & Hcnt & Hvis & Hch) Hi Hin.
  destruct (Hch i n a c Hi Hin) as (cn & Hc & Hcp & _).
  destruct (Hvis c cn i Hc Hcp) as (Hv & pn & Hpn & Hpv); [done|].
  rewrite (ucb_exact_real h c i cn pn is_opponent Hc Hcp Hpn Hpv Hv).
  eexists. split; [done|].
  pose proof (ucb_code_bounds is_opponent (wins cn) (visits cn) (visits pn)
                (Hcnt c cn Hc) Hv Hpv). lra.
Qed.

(** With a child to choose from, the loop chooses the first child of the
    greatest value. *)
Lemma selection_chooses h i n is_opponent :
  tree_inv h → h !! i = Some n → child_nodes n ≠ [] →
  ∃ pre a c post u,
    child_nodes n = pre ++ (a, c) :: post ∧
    for_each (traverse_nodes_body h is_opponent) selection_init (child_nodes n)
      = Ok (u, Some (c, a)) ∧
    ucb (F := R) h c is_opponent = Ok u ∧
    (∀ a' c' u', (a', c') ∈ pre →
       ucb (F := R) h c' is_opponent = Ok u' → (u' < u)%R) ∧
    (∀ a' c' u', (a', c') ∈ post →
       ucb (F := R) h c' is_opponent = Ok u' → (u' <= u)%R).
Proof.
  intros Hinv Hi Hne.
  destruct (selection_first_max h is_opponent (child_nodes n) selection_init)
    as (sel & Hrun & [(-> & Hall)|(pre & a & c & post & u & Hd & -> & Hu & _ & Hpre
                                     & Hpost)]).
  { intros a c Hin. destruct (ucb_child h i n a c is_opponent Hinv Hi Hin) as (u & Hu & _).
    by exists u. }
  - exfalso. destruct (child_nodes n) as [|[a c] d] eqn:Hd; [done|].
    destruct (ucb_child h i n a c is_opponent Hinv Hi) as (u & Hu & Hpos);
      [rewrite Hd; by left|].
    specialize (Hall a c u). simpl in Hall.
    assert (u <= IZR (-1000000000))%R as Hle by (apply Hall; [by left | done]).
    lra.
  - by exists pre, a, c, post, u.
Qed.
End SelectionReal.

(** ** The first pass *)

Section FirstPass.
Context {F : Type} `{PyFloat F}.
Context {Action State Box : Type} `{EqDecision Action} `{EqDecision Box}.
Variable board : Board Action State Box.
Variable rand : nat → nat.
Variable frames : nat.
Implicit Types (h : Heap Action) (n : MCTSNode Action) (st : list (MCTSNode Action) * nat).

Lemma grows_child h h' i n :
  grows h h' → h !! i = Some n → child_nodes n ≠ [] →
  ∃ n', h' !! i = Some n' ∧ child_nodes n' ≠ [].
Proof.
  intros Hg Hi Hne. destruct (Hg i n Hi) as (n' & Hi' & _ & _ & _ & _ & _ & Hk).
  exists n'. split; [done|]. intros Hnil. rewrite Hnil in Hk.
  apply prefix_nil_inv in Hk. unfold keys in Hk.
  apply fmap_nil_inv in Hk. done.
Qed.

(** From a state that is not terminal and has a legal action, the first
    pass gives the root a child, and the root keeps it. *)
Lemma think_tree_root_child v fuel current_state budget h :
  is_ended board current_state = false → legal_actions board current_state ≠ [] →
  think_tree F board rand frames v fuel current_state (S budget) = Ok h →
  ∃ r, h !! root_node = Some r ∧ child_nodes r ≠ [].
Proof.
  intros He Hlegal. unfold think_tree. intros Hrun. bind_inv Hrun.
  injection Hrun as <-. simpl in Hx. bind_inv Hx.
  set (root := MCTSNode_new None None (legal_actions board current_state)) in *.
  pose proof (think_body_inv board rand frames v fuel current_state
                (current_player board current_state) ([root], 0%nat) x0
                (tree_inv_init _) Hx0) as (Hinv1 & _).
  assert (∃ r1, x0.1 !! root_node = Some r1 ∧ child_nodes r1 ≠ []) as (r1 & Hr1 & Hc1).
  { apply think_body_stages in Hx0
      as (node & state & h1 & node1 & state1 & state2 & won & Htrav & Hexp & _ & _ & Hback
          & Hwf1 & _); [|apply tree_inv_init].
    destruct fuel as [|fuel']; [discriminate|]. simpl in Htrav.
    rewrite bool_decide_eq_false_2 in Htrav by done. simpl in Htrav.
    injection Htrav as <- <-.
    apply expand_leaf_Ok in Hexp
      as [(Hended & _)|(_ & n & a & rest & Hn & Hu & -> & _)]; [congruence|].
    injection Hn as <-.
    apply (grows_child (expanded_heap board [root] root_node root a rest current_state)
             x0.1 root_node (expanded root a rest 1)).
    - by apply (backpropagate_grows frames _ node1 won).
    - done.
    - done. }
  apply (grows_child x0.1 x.1 root_node r1); [|done..].
  by apply (think_loop_grows board rand frames v fuel current_state
              (current_player board current_state) budget x0 x).
Qed.
End FirstPass.

(** ** Searches that return *)

Section Totality.
Context {Action State Box : Type} `{EqDecision Action} `{EqDecision Box}.
Variable board : Board Action State Box.
Variable rand : nat → nat.
Variable frames : nat.
Variable size : State → nat.
Variable current_state : State.
Implicit Types (h : Heap Action) (n : MCTSNode Action) (st : list (MCTSNode Action) * nat).
Implicit Types (s state : State).

Hypothesis legal_actions_NoDup : ∀ s, NoDup (legal_actions board s).
Hypothesis can_move : ∀ s,
  legal_play board current_state s → is_ended board s = false →
  legal_actions board s ≠ [].
Hypothesis shrinks : ∀ s a,
  legal_play board current_state s → is_ended board s = false →
  a ∈ legal_actions board s → (size (next_state board s a) < size s)%nat.
Hypothesis scored : ∀ s,
  legal_play board current_state s → is_ended board s = true →
  ∃ outcome, points_values board s = Some outcome ∧
    current_player board current_state ∈ keys outcome.
Hypothesis boxes_stay : ∀ s a mini,
  mini ∈ keys (owned_boxes board s) →
  mini ∈ keys (owned_boxes board (next_state board s a)).

Lemma legal_play_size_from s0 s :
  legal_play board current_state s0 → legal_play board s0 s → (size s ≤ size s0)%nat.
Proof.
  intros H0 Hplay. induction Hplay as [s|s a s' He Ha _ IH]; [lia|].
  pose proof (shrinks s a H0 He Ha).
  assert (size s' ≤ size (next_state board s a))%nat; [|lia].
  apply IH. apply (legal_play_trans board current_state s); [done|].
  by apply legal_play_step.
Qed.

Lemma legal_play_size s :
  legal_play board current_state s → (size s ≤ size current_state)%nat.
Proof. apply legal_play_size_from, legal_play_here. Qed.

(** The way down returns; each step down takes one more call on the way
    up and leaves a state of smaller size. *)
Lemma traverse_nodes_total fuel h starter s current_identity bot_identity k0 :
  search_inv board current_state h →
  node_state board current_state h starter s → legal_play board current_state s →
  path_frames h starter k0 →
  (starter < length h ≤ fuel + starter)%nat →
  ∃ node state k,
    traverse_nodes R board fuel h starter s current_identity bot_identity
      = Ok (node, state) ∧
    node_state board current_state h node state ∧
    legal_play board current_state state ∧
    path_frames h node k ∧ (k + size state ≤ k0 + size s)%nat ∧
    ∃ n, h !! node = Some n ∧ (untried_actions n ≠ [] ∨ is_ended board state = true).
Proof.
  intros (Hinv & Hpart & Hplaced & Hroot). revert starter s current_identity k0.
  induction fuel as [|fuel IH]; intros starter s current_identity k0 Hs Hplay Hk0 Hlt;
    [lia|].
  destruct (lookup_lt_is_Some_2 h starter) as [n Hn]; [lia|].
  simpl. unfold deref. rewrite Hn. simpl.
  destruct (bool_decide _ && negb _) eqn:Hcond.
  - apply andb_true_iff in Hcond as [Hu He].
    apply bool_decide_eq_true_1 in Hu. apply negb_true_iff in He.
    pose proof (Hpart starter n s Hn Hs) as Hlegal. rewrite Hu, app_nil_r in Hlegal.
    assert (child_nodes n ≠ []) as Hne.
    { intros Hnil. rewrite Hnil in Hlegal. by apply (can_move s Hplay He). }
    destruct (selection_chooses h starter n (bool_decide (current_identity ≠ bot_identity))
                Hinv Hn Hne) as (pre & a & c & post & u & Hd & Hsel & _).
    rewrite Hsel. simpl.
    assert ((a, c) ∈ child_nodes n) as Hin.
    { rewrite Hd. apply elem_of_app. right. by left. }
    destruct Hinv as (Hwf & _ & _ & Hch).
    destruct (Hch starter n a c Hn Hin) as (cn & Hc & Hcp & Hca).
    pose proof (Hwf c cn Hc) as Hlink. rewrite Hcp in Hlink.
    apply lookup_lt_Some in Hc as Hclt.
    assert (a ∈ legal_actions board s) as Ha.
    { rewrite <- Hlegal. apply list_elem_of_fmap. by exists (a, c). }
    pose proof (shrinks s a Hplay He Ha) as Hsize.
    destruct (IH c (next_state board s a) (if decide (current_identity = 2) then 1 else 2)
                (S k0)) as (node & state & k & Hrun & Hns & Hpl & Hk & Hle & Hstop);
      [| | |lia|].
    + by apply (node_state_child board current_state h c cn starter a s).
    + apply (legal_play_trans board current_state s); [done|].
      by apply legal_play_step.
    + by apply (path_frames_up h c cn starter k0).
    + exists node, state, k. split; [done|]. split; [done|]. split; [done|].
      split; [done|]. split; [lia | done].
  - exists starter, s, k0. split; [done|]. split; [done|]. split; [done|].
    split; [done|]. split; [lia|].
    exists n. split; [done|].
    apply andb_false_iff in Hcond as [Hu|He].
    + left. by apply bool_decide_eq_false_1 in Hu.
    + right. by apply negb_false_iff in He.
Qed.

Lemma is_win_total s :
  legal_play board current_state s → is_ended board s = true →
  ∃ won, is_win board s (current_player board current_state) = Ok won.
Proof.
  intros Hplay He. destruct (scored s Hplay He) as (outcome & Hpv & Hkey).
  destruct (dict_get_key outcome _ Hkey) as [score Hscore].
  unfold is_win. rewrite Hpv, Hscore. by eexists.
Qed.

(** The rollout, the test of the outcome and the way up, from the node and
    the state that the expansion leaves. *)
Lemma think_body_tail v fuel h1 node1 state1 tick k :
  path_frames h1 node1 k → (k ≤ frames)%nat →
  legal_play board current_state state1 → (size current_state < fuel)%nat →
  ∃ st',
    ('(state, tick') ← rollout_of board rand v fuel state1
                         (current_player board current_state) tick;
     won ← is_win board state (current_player board current_state);
     h2 ← backpropagate frames h1 node1 won;
     Ok (h2, tick')) = Ok st'.
Proof.
  intros Hk Hframes Hplay Hsize.
  destruct (rollout_of_total board rand size current_state can_move shrinks v fuel state1
              (current_player board current_state) tick boxes_stay Hplay)
    as (state2 & tick' & Hroll).
  { pose proof (legal_play_size state1 Hplay). lia. }
  rewrite Hroll. simpl.
  apply rollout_of_plays in Hroll as (Hplay2 & He2 & _).
  destruct (is_win_total state2) as [won Hwon]; [|done|].
  { by apply (legal_play_trans board current_state state1). }
  rewrite Hwon. simpl.
  destruct (backpropagate_returns frames h1 node1 won k Hk Hframes) as [h2 Hback].
  rewrite Hback. by eexists.
Qed.

(** A pass returns when the loop bound exceeds the size of the store and
    of the current state, and the interpreter has a frame for every state
    of the longest game. *)
Lemma think_body_total v fuel st :
  search_inv board current_state st.1 →
  (length st.1 < fuel)%nat → (size current_state < fuel)%nat →
  (size current_state < frames)%nat →
  ∃ st', think_body R board rand frames v fuel current_state
           (current_player board current_state) st = Ok st'.
Proof.
  intros Hsearch Hlen Hsize Hframes.
  pose proof (node_state_root_node board current_state st.1 Hsearch) as Hs0.
  pose proof Hsearch as (Hinv & Hpart & Hplaced & [r Hr]).
  apply lookup_lt_Some in Hr as Hpos.
  assert (path_frames st.1 root_node 1) as Hk0.
  { apply (path_frames_root st.1 root_node r Hr).
    destruct Hinv as (Hwf & _). pose proof (Hwf root_node r Hr) as Hlink.
    destruct (parent r); [unfold root_node in Hlink; lia | done]. }
  destruct (traverse_nodes_total fuel st.1 root_node current_state
              (current_player board current_state) (current_player board current_state)
              1%nat Hsearch Hs0 (legal_play_here board current_state) Hk0)
    as (node & state & k & Htrav & Hs & Hplay & Hk & Hle & n & Hn & Hstop);
    [unfold root_node; lia|].
  unfold think_body. rewrite Htrav. simpl.
  destruct Hinv as (Hwf & Hcnt & Hvis & Hch).
  destruct (is_ended board state) eqn:He.
  - rewrite (expand_leaf_ended board st.1 node state He). simpl.
    apply (think_body_tail v fuel st.1 node state st.2 k); [done | lia | done..].
  - destruct Hstop as [Hu|?]; [|congruence].
    destruct (untried_actions n) as [|a rest] eqn:Hua; [done|].
    pose proof (expand_leaf_running board st.1 node state n a rest He Hn Hua) as Hexp.
    rewrite Hexp. simpl.
    destruct (untried_fresh board current_state legal_actions_NoDup st.1 node n state a rest
                Hpart Hn Hs Hua) as (_ & Ha).
    pose proof (shrinks state a Hplay He Ha) as Hshrink.
    apply (think_body_tail v fuel _ (length st.1) (next_state board state a) st.2 (S k));
      [ | lia | | done].
    + eapply path_frames_up; [apply expanded_heap_lookup_new | done |].
      apply (path_frames_links st.1); [|done]. intros j nj Hj.
      destruct (expanded_heap_old board st.1 node n a rest state j nj Hn Hj)
        as (nj' & Hj' & Hp & _).
      by exists nj'.
    + apply (legal_play_trans board current_state state); [done|].
      by apply legal_play_step.
Qed.

Lemma think_loop_total v fuel budget st :
  search_inv board current_state st.1 →
  (length st.1 + budget ≤ fuel)%nat → (size current_state < fuel)%nat →
  (size current_state < frames)%nat →
  ∃ st', think_loop R board rand frames v fuel current_state
           (current_player board current_state) budget st = Ok st'.
Proof.
  revert st. induction budget as [|budget IH]; intros st Hsearch Hlen Hsize Hframes;
    simpl; [by eexists|].
  destruct (think_body_total v fuel st Hsearch) as [st1 Hbody]; [lia | done | done|].
  rewrite Hbody. simpl. apply IH; [| |done|done].
  - by apply (think_body_search_inv board rand frames current_state legal_actions_NoDup v fuel
                (current_player board current_state) st st1).
  - apply think_body_length in Hbody. lia.
Qed.

Lemma think_tree_total v fuel budget :
  (budget < fuel)%nat → (size current_state < fuel)%nat →
  (size current_state < frames)%nat →
  ∃ h, think_tree R board rand frames v fuel current_state budget = Ok h.
Proof.
  intros Hlen Hsize Hframes. unfold think_tree.
  destruct (think_loop_total v fuel budget
              ([MCTSNode_new None None (legal_actions board current_state)], 0%nat))
    as [st Hloop]; [apply search_inv_init | simpl; lia | done | done|].
  rewrite Hloop. by eexists.
Qed.

(** [get_best_action] on the tree of a search. *)
Lemma get_best_action_total v fuel budget h :
  think_tree R board rand frames v fuel current_state budget = Ok h →
  ∃ best, get_best_action R h root_node = Ok best.
Proof.
  intros Hrun. apply think_tree_inv in Hrun as (Hinv & r & Hr & _).
  destruct (child_nodes r) as [|e d] eqn:Hd.
  - exists None. by apply (get_best_action_no_child h root_node r).
  - destruct (get_best_action_real_some h root_node r Hr) as [a Ha].
    + by rewrite Hd.
    + by apply root_children_visited.
    + by exists (Some a).
Qed.

Lemma think_total v fuel :
  (num_nodes < fuel)%nat → (size current_state < fuel)%nat →
  (size current_state < frames)%nat →
  ∃ best, think R board rand frames v fuel current_state = Ok best.
Proof.
  intros Hlen Hsize Hframes. unfold think.
  destruct (think_tree_total v fuel num_nodes Hlen Hsize Hframes) as [h Hrun].
  rewrite Hrun. simpl. by apply (get_best_action_total v fuel num_nodes).
Qed.
End Totality.

(** ** The small game ends *)

Lemma pairs_can_move (s : Pairs.state) :
  Pairs.is_ended s = false → Pairs.legal_actions s ≠ [].
Proof.
  intros He. unfold Pairs.legal_actions. rewrite He. unfold Pairs.is_ended in He.
  apply orb_false_iff in He as [_ He]. by apply bool_decide_eq_false_1 in He.
Qed.

(** A mark other than 0 fills an empty cell. *)
Lemma pairs_shrinks (s : Pairs.state) (a : nat) :
  Pairs.to_move s ≠ 0 → a ∈ Pairs.empty_cells s →
  (length (Pairs.empty_cells (Pairs.next_state s a)) < length (Pairs.empty_cells s))%nat.
Proof.
  intros Hmark Ha. unfold Pairs.empty_cells in *. simpl. rewrite length_insert.
  apply list_elem_of_filter in Ha as Ha'. destruct Ha' as [Hzero Hseq].
  apply elem_of_seq in Hseq.
  rewrite <- (list_filter_filter_l (λ i, Pairs.cell (Pairs.next_state s a) i = 0)
                (λ i, Pairs.cell s i = 0)).
  - apply (length_filter_lt _ _ a); [done|].
    unfold Pairs.cell. simpl. rewrite list_lookup_insert_eq by lia. done.
  - intros i. unfold Pairs.cell. simpl. destruct (decide (i = a)) as [->|Hne].
    + rewrite list_lookup_insert_eq by lia. done.
    + by rewrite list_lookup_insert_ne.
Qed.

Lemma pairs_to_move (s0 s : Pairs.state) :
  legal_play Pairs.board s0 s → Pairs.to_move s0 ≠ 0 → Pairs.to_move s ≠ 0.
Proof.
  intros Hplay. induction Hplay as [s|s a s' He Ha _ IH]; [done|].
  intros _. apply IH. simpl. by destruct (decide (Pairs.to_move s = 2)).
Qed.

Lemma pairs_play_shrinks (s : Pairs.state) (a : nat) :
  legal_play Pairs.board Pairs.start s → is_ended Pairs.board s = false →
  a ∈ legal_actions Pairs.board s →
  (length (Pairs.empty_cells (next_state Pairs.board s a))
     < length (Pairs.empty_cells s))%nat.
Proof.
  intros Hplay He Ha. apply pairs_shrinks.
  - by apply (pairs_to_move Pairs.start s Hplay).
  - change (a ∈ Pairs.legal_actions s) in Ha. unfold Pairs.legal_actions in Ha.
    change (Pairs.is_ended s = false) in He. by rewrite He in Ha.
Qed.

Lemma pairs_scored (s : Pairs.state) :
  is_ended Pairs.board s = true →
  ∃ outcome, points_values Pairs.board s = Some outcome ∧ 1 ∈ keys outcome.
Proof.
  intros He. change (Pairs.is_ended s = true) in He.
  change (points_values Pairs.board s) with (Pairs.points_values s).
  unfold Pairs.points_values. rewrite He. eexists. split; [done|].
  repeat case_decide; by left.
Qed.

Lemma pairs_boxes_stay (s : Pairs.state) (a mini : nat) :
  mini ∈ keys (owned_boxes Pairs.board s) →
  mini ∈ keys (owned_boxes Pairs.board (next_state Pairs.board s a)).
Proof. done. Qed.

(** The tree of six passes is a tree of a search. *)
Lemma fixture_tree_run :
  think_tree float Pairs.board Pairs.rand fixture_frames Vanilla 100 Pairs.start 6 = Ok fixture_tree.
Proof. vm_compute. reflexivity. Qed.

(** With four frames left the search of the small game, whose paths have
    up to five nodes, stops on [RecursionError]; with five it returns. *)
Lemma think_short_of_frames :
  think float Pairs.board Pairs.rand 4 Modified 100 Pairs.start = Raise RecursionError ∧
  think float Pairs.board Pairs.rand 5 Modified 100 Pairs.start = Ok (Some 3%nat).
Proof. split; vm_compute; reflexivity. Qed.

(** ** The exceptions of a search *)

Lemma raises_only_Ok {A : Type} (allowed : list exn) (a : A) :
  raises_only allowed (Ok a).
Proof. intros e. discriminate. Qed.

Lemma raises_only_Raise {A : Type} (allowed : list exn) (e : exn) :
  e ∈ allowed → raises_only allowed (Raise (A := A) e).
Proof. intros He e' [= <-]. done. Qed.

Lemma raises_only_bind {A B : Type} (allowed : list exn) (m : result A)
    (f : A → result B) :
  raises_only allowed m → (∀ a, m = Ok a → raises_only allowed (f a)) →
  raises_only allowed (m ≫= f).
Proof.
  intros Hm Hf. destruct m as [a|e]; simpl; [by apply Hf|].
  intros e' [= <-]. by apply Hm.
Qed.

Lemma raises_only_for_each {A S : Type} (allowed : list exn) (body : S → A → result S)
    (init : S) (l : list A) :
  (∀ s x, x ∈ l → raises_only allowed (body s x)) →
  raises_only allowed (for_each body init l).
Proof.
  revert init. induction l as [|x l IH]; intros init Hb; simpl.
  - apply raises_only_Ok.
  - apply raises_only_bind; [apply Hb; by left|].
    intros s _. apply IH. intros s' y Hy. apply Hb. by right.
Qed.

(** Closes [e ∈ allowed] for an exception [e] that is listed. *)
Ltac listed := repeat constructor.

(** Closes [raises_only allowed' r] from [H : raises_only allowed r] when
    the exceptions [allowed] are among [allowed']. *)
Ltac widen H :=
  let e := fresh "e" in
  let He := fresh "He" in
  intros e He; apply H in He;
  repeat (apply elem_of_cons in He as [->|He]; [listed|]);
  by apply elem_of_nil in He.

Section Exceptions.
Context {F : Type} `{PyFloat F}.
Context {Action State Box : Type} `{EqDecision Action} `{EqDecision Box}.
Variable board : Board Action State Box.
Variable rand : nat → nat.
Variable frames : nat.
Implicit Types (h : Heap Action) (n : MCTSNode Action) (st : list (MCTSNode Action) * nat).

Lemma dict_get_raises {K V : Type} `{EqDecision K} (d : list (K * V)) (k : K) :
  raises_only [KeyError] (dict_get d k).
Proof.
  induction d as [|[k' v] d IH]; simpl; [apply raises_only_Raise; listed|].
  destruct (decide (k' = k)); [apply raises_only_Ok | done].
Qed.

(** On a node of a tree between two passes only the square root of [ucb]
    can raise. *)
Lemma ucb_raises h c is_opponent :
  tree_inv h → is_Some (h !! c) →
  raises_only [ValueError Sqrt] (ucb (F := F) h c is_opponent).
Proof.
  intros (_ & _ & Hvis & _) [n Hc]. unfold ucb, deref. rewrite Hc. simpl.
  destruct (parent n) as [p|] eqn:Hp; [|apply raises_only_Ok].
  destruct (Hvis c n p Hc Hp) as (Hv & pn & Hpn & Hpv); [done|].
  rewrite Hpn. simpl. unfold py_log, py_div, py_fdiv, py_sqrt.
  rewrite decide_False by lia. simpl.
  rewrite decide_False by lia. simpl.
  rewrite decide_False by lia. simpl.
  destruct (fgt _ _); simpl; [apply raises_only_Raise; listed | apply raises_only_Ok].
Qed.

Lemma traverse_nodes_raises fuel h starter s current_identity bot_identity :
  tree_inv h → is_Some (h !! starter) →
  raises_only [ValueError Sqrt; NoneTypeError; OutOfFuel]
    (traverse_nodes F board fuel h starter s current_identity bot_identity).
Proof.
  intros Hinv. revert starter s current_identity.
  induction fuel as [|fuel IH]; intros starter s current_identity [n Hn]; simpl;
    [apply raises_only_Raise; listed|].
  unfold deref. rewrite Hn. simpl.
  destruct (bool_decide _ && negb _); [|apply raises_only_Ok].
  pose proof Hinv as (_ & _ & _ & Hch).
  apply raises_only_bind.
  - apply raises_only_for_each. intros acc [a c] Hin. unfold traverse_nodes_body.
    destruct (Hch starter n a c Hn Hin) as (cn & Hc & _).
    apply raises_only_bind.
    + pose proof (ucb_raises h c (bool_decide (current_identity ≠ bot_identity)) Hinv
                    (ex_intro _ cn Hc)) as Hu.
      widen Hu.
    + intros u _. destruct (fgt u acc.1); apply raises_only_Ok.
  - intros sel Hsel.
    apply traverse_nodes_body_choice in Hsel as [Heq|(a & c & Heq & Hin)]; rewrite Heq.
    + apply raises_only_Raise. listed.
    + destruct (Hch starter n a c Hn Hin) as (cn & Hc & _). apply IH. by eexists.
Qed.

Lemma expand_leaf_returns h node state n :
  h !! node = Some n → untried_actions n ≠ [] ∨ is_ended board state = true →
  ∃ h1 node1 state1,
    expand_leaf board h node state = Ok (h1, node1, state1) ∧ is_Some (h1 !! node1).
Proof.
  intros Hn Hstop. destruct (is_ended board state) eqn:He.
  - exists h, node, state. split; [by apply expand_leaf_ended | by eexists].
  - destruct Hstop as [Hu|?]; [|congruence].
    destruct (untried_actions n) as [|a rest] eqn:Hua; [done|].
    eexists _, _, _. split; [by apply (expand_leaf_running board h node state n a rest)|].
    rewrite expanded_heap_lookup_new. by eexists.
Qed.

Lemma choice_raises {A : Type} tick (l : list A) :
  raises_only [IndexError] (choice rand tick l).
Proof.
  unfold choice. destruct (l !! _); [apply raises_only_Ok|].
  apply raises_only_Raise. listed.
Qed.

Lemma rollout_raises fuel s tick :
  raises_only [IndexError; OutOfFuel] (rollout board rand fuel s tick).
Proof.
  revert s tick. induction fuel as [|fuel IH]; intros s tick; simpl;
    [apply raises_only_Raise; listed|].
  destruct (is_ended board s); [apply raises_only_Ok|].
  apply raises_only_bind; [|intros a _; apply IH].
  pose proof (choice_raises tick (legal_actions board s)) as Hc. widen Hc.
Qed.

Lemma heuristic_boxes_raises bot_identity (avail_prev avail_next : list (Box * Z)) minis :
  raises_only [KeyError] (heuristic_boxes bot_identity avail_prev avail_next minis).
Proof.
  induction minis as [|mini minis IH]; simpl; [apply raises_only_Ok|].
  apply raises_only_bind.
  - unfold heuristic_box.
    repeat (case_decide;
            [repeat (apply raises_only_bind; [apply dict_get_raises|]; intros ? _);
             apply raises_only_Ok|]).
    apply raises_only_Ok.
  - intros [] _; [apply raises_only_Ok | apply IH].
Qed.

Lemma heuristic_raises state moves bot_identity :
  raises_only [KeyError] (heuristic board state moves bot_identity).
Proof.
  induction moves as [|a moves IH]; simpl; [apply raises_only_Ok|].
  apply raises_only_bind; [apply heuristic_boxes_raises|].
  intros [] _; [apply raises_only_Ok | apply IH].
Qed.

Lemma rollout_modified_loop_raises fuel state s bot_identity tick :
  raises_only [IndexError; KeyError; OutOfFuel]
    (rollout_modified_loop board rand fuel state s bot_identity tick).
Proof.
  revert s tick. induction fuel as [|fuel IH]; intros s tick; simpl;
    [apply raises_only_Raise; listed|].
  destruct (is_ended board s); [apply raises_only_Ok|].
  apply raises_only_bind.
  - pose proof (heuristic_raises state (legal_actions board s) bot_identity) as Hh.
    widen Hh.
  - intros [a|] _; [apply IH|].
    apply raises_only_bind; [|intros a _; apply IH].
    pose proof (choice_raises tick (legal_actions board s)) as Hc. widen Hc.
Qed.

Lemma rollout_of_raises v fuel s bot_identity tick :
  raises_only [IndexError; KeyError; OutOfFuel]
    (rollout_of board rand v fuel s bot_identity tick).
Proof.
  destruct v; simpl; [|apply rollout_modified_loop_raises].
  pose proof (rollout_raises fuel s tick) as Hr. widen Hr.
Qed.

Lemma is_win_raises s identity_of_bot :
  points_values board s ≠ None → raises_only [KeyError] (is_win board s identity_of_bot).
Proof.
  intros Hpv. unfold is_win. destruct (points_values board s) as [outcome|]; [|done].
  apply raises_only_bind; [apply dict_get_raises|]. intros score _. apply raises_only_Ok.
Qed.

Lemma backpropagate_raises limit h i won :
  wf_parents h → is_Some (h !! i) →
  raises_only [RecursionError] (backpropagate limit h i won).
Proof.
  revert h i. induction limit as [|limit IH]; intros h i Hwf [n Hi]; simpl;
    [apply raises_only_Raise; listed|].
  unfold deref. rewrite Hi. simpl.
  pose proof (Hwf i n Hi) as Hlink. pose proof (lookup_lt_Some _ _ _ Hi) as Hlt.
  destruct (parent n) as [p|] eqn:Hp; [|apply raises_only_Ok].
  apply IH; [by apply (wf_parents_insert h i n)|].
  apply lookup_lt_is_Some. rewrite length_insert. lia.
Qed.

(** [get_best_action] returns on the tree of a search. *)
Lemma get_best_action_returns h :
  tree_inv h → is_Some (h !! root_node) → ∃ best, get_best_action F h root_node = Ok best.
Proof.
  intros Hinv [r Hr]. eexists. apply (get_best_action_scan h root_node r Hr).
  intros a c Hin. destruct (root_children_visited h r Hinv Hr a c Hin) as (n & Hc & Hv & _).
  exists n. split; [done | lia].
Qed.

Section Scored.
Hypothesis scored : ∀ s, is_ended board s = true → points_values board s ≠ None.

Lemma think_body_raises v fuel current_state bot_identity st :
  tree_inv st.1 → is_Some (st.1 !! root_node) →
  raises_only [IndexError; KeyError; NoneTypeError; ValueError Sqrt; RecursionError; OutOfFuel]
    (think_body F board rand frames v fuel current_state bot_identity st).
Proof.
  intros Hinv Hroot. unfold think_body.
  apply raises_only_bind.
  { pose proof (traverse_nodes_raises fuel st.1 root_node current_state bot_identity
                  bot_identity Hinv Hroot) as Ht. widen Ht. }
  intros [node state] Htrav.
  apply traverse_nodes_way_down in Htrav as (_ & n & Hn & Hstop).
  destruct (expand_leaf_returns st.1 node state n Hn Hstop)
    as (h1 & node1 & state1 & Hexp & Hnode1).
  rewrite Hexp. simpl.
  destruct Hinv as (Hwf & Hcnt & Hvis & Hch).
  destruct (expand_leaf_inv board st.1 node state h1 node1 state1 Hwf Hcnt Hvis Hch Hexp)
    as (Hwf1 & _).
  apply raises_only_bind.
  { pose proof (rollout_of_raises v fuel state1 bot_identity st.2) as Hr. widen Hr. }
  intros [state2 tick] Hroll. apply rollout_of_plays in Hroll as (_ & He2 & _).
  apply raises_only_bind.
  { pose proof (is_win_raises state2 bot_identity (scored state2 He2)) as Hw. widen Hw. }
  intros won _. apply raises_only_bind; [|intros; apply raises_only_Ok].
  pose proof (backpropagate_raises frames h1 node1 won Hwf1 Hnode1) as Hb. widen Hb.
Qed.

Lemma think_loop_raises v fuel current_state bot_identity budget st :
  tree_inv st.1 → is_Some (st.1 !! root_node) →
  raises_only [IndexError; KeyError; NoneTypeError; ValueError Sqrt; RecursionError; OutOfFuel]
    (think_loop F board rand frames v fuel current_state bot_identity budget st).
Proof.
  revert st. induction budget as [|budget IH]; intros st Hinv Hroot; simpl;
    [apply raises_only_Ok|].
  apply raises_only_bind; [by apply think_body_raises|].
  intros st1 Hbody.
  destruct (think_body_inv board rand frames v fuel current_state bot_identity st st1 Hinv Hbody)
    as (Hinv1 & Hroot1).
  apply IH; [done|]. destruct Hroot as [r Hr].
  destruct (Hroot1 r Hr) as (r1 & Hr1 & _). by eexists.
Qed.

Lemma think_raises v fuel current_state :
  raises_only [IndexError; KeyError; NoneTypeError; ValueError Sqrt; RecursionError; OutOfFuel]
    (think F board rand frames v fuel current_state).
Proof.
  unfold think. apply raises_only_bind.
  - unfold think_tree. apply raises_only_bind; [|intros; apply raises_only_Ok].
    apply think_loop_raises; [apply tree_inv_init | by eexists].
  - intros h Hrun. apply think_tree_inv in Hrun as (Hinv & r & Hr & _).
    destruct (get_best_action_returns h Hinv) as [best ->]; [by eexists|].
    apply raises_only_Ok.
Qed.
End Scored.
End Exceptions.

(** ** Where the engine raises *)

Lemma for_each_app {A S : Type} (body : S → A → result S) (init : S) (l1 l2 : list A) :
  for_each body init (l1 ++ l2) = for_each body init l1 ≫= λ s, for_each body s l2.
Proof.
  revert init. induction l1 as [|x l1 IH]; intros init; simpl; [done|].
  destruct (body init x) as [s|e]; simpl; [apply IH | done].
Qed.

Section Edges.
Context {F : Type} `{PyFloat F}.
Context {Action State Box : Type} `{EqDecision Action} `{EqDecision Box}.
Variable board : Board Action State Box.
Variable rand : nat → nat.
Variable frames : nat.
Implicit Types (h : Heap Action) (n : MCTSNode Action).

Lemma ucb_root h c n is_opponent :
  h !! c = Some n → parent n = None → ucb (F := F) h c is_opponent = Ok (of_int (-1)).
Proof. intros Hc Hp. unfold ucb, deref. rewrite Hc. simpl. by rewrite Hp. Qed.

(** The logarithm is taken first. *)
Lemma ucb_parent_unvisited h c n p pn is_opponent :
  h !! c = Some n → parent n = Some p → h !! p = Some pn → visits pn ≤ 0 →
  ucb (F := F) h c is_opponent = Raise (ValueError Log).
Proof.
  intros Hc Hp Hpn Hv. unfold ucb, deref. rewrite Hc. simpl. rewrite Hp, Hpn. simpl.
  unfold py_log. by rewrite decide_True.
Qed.

Lemma ucb_unvisited h c n p pn is_opponent :
  h !! c = Some n → parent n = Some p → h !! p = Some pn → 1 ≤ visits pn →
  visits n = 0 → ucb (F := F) h c is_opponent = Raise ZeroDivisionError.
Proof.
  intros Hc Hp Hpn Hpv Hv. unfold ucb, deref. rewrite Hc. simpl. rewrite Hp, Hpn. simpl.
  unfold py_log, py_div. destruct (decide (visits pn ≤ 0)); [lia|]. simpl.
  by rewrite decide_True.
Qed.

Lemma get_best_action_unvisited h root r pre a c post n :
  h !! root = Some r → child_nodes r = pre ++ (a, c) :: post →
  (∀ a' c', (a', c') ∈ pre → ∃ n', h !! c' = Some n' ∧ visits n' ≠ 0) →
  h !! c = Some n → visits n = 0 →
  get_best_action F h root = Raise ZeroDivisionError.
Proof.
  intros Hr Hd Hpre Hc Hv. unfold get_best_action, deref. rewrite Hr. simpl.
  rewrite Hd, for_each_app, (for_each_get_best_action h pre best_init Hpre). simpl.
  destruct (last_accepted best_init (candidates_of h pre)) as [[val visit] chosen].
  unfold get_best_action_body, deref, py_div. rewrite Hc. simpl.
  by rewrite decide_True.
Qed.

(** A state that is not terminal and has no legal action. *)
Lemma traverse_nodes_no_child fuel h starter n s current_identity bot_identity :
  h !! starter = Some n → untried_actions n = [] → child_nodes n = [] →
  is_ended board s = false →
  traverse_nodes F board (S fuel) h starter s current_identity bot_identity
    = Raise NoneTypeError.
Proof.
  intros Hn Hu Hc He. simpl. unfold deref. rewrite Hn. simpl.
  rewrite Hu, He, Hc. by rewrite bool_decide_eq_true_2.
Qed.

Lemma rollout_of_no_legal_action v fuel s bot_identity tick :
  is_ended board s = false → legal_actions board s = [] →
  rollout_of board rand v (S fuel) s bot_identity tick = Raise IndexError.
Proof.
  intros He Hl. destruct v; simpl; unfold rollout_modified; simpl; by rewrite He, Hl.
Qed.

Lemma think_loop_no_legal_action v fuel current_state bot_identity budget tick :
  is_ended board current_state = false → legal_actions board current_state = [] →
  think_loop F board rand frames v (S fuel) current_state bot_identity (S budget)
    ([MCTSNode_new None None (legal_actions board current_state)], tick)
    = Raise NoneTypeError.
Proof.
  intros He Hl. cbn [think_loop]. unfold think_body. cbn [fst snd].
  rewrite (traverse_nodes_no_child fuel _ root_node
             (MCTSNode_new None None (legal_actions board current_state)));
    [done | done | by rewrite Hl | done | done].
Qed.

Lemma think_no_legal_action v fuel current_state :
  is_ended board current_state = false → legal_actions board current_state = [] →
  think F board rand frames v (S fuel) current_state = Raise NoneTypeError.
Proof.
  intros He Hl. unfold think, think_tree.
  by rewrite (think_loop_no_legal_action v fuel current_state _ 999 0%nat He Hl).
Qed.
End Edges.

(** ** Visits add up *)

Section LinksFacts.
Context {Action : Type} `{EqDecision Action}.
Implicit Types (h : Heap Action) (n : MCTSNode Action).

Lemma links_insert h i n n' :
  h !! i = Some n → parent n' = parent n → parent_action n' = parent_action n →
  child_nodes n' = child_nodes n → links (<[i := n']> h) = links h.
Proof.
  intros Hi Hp Ha Hc. unfold links. rewrite list_fmap_insert, Hp, Ha, Hc.
  apply list_insert_id. by rewrite list_lookup_fmap, Hi.
Qed.

Lemma links_lookup h h' j n' :
  links h = links h' → h' !! j = Some n' →
  ∃ n, h !! j = Some n ∧ parent n = parent n' ∧ parent_action n = parent_action n' ∧
    child_nodes n = child_nodes n'.
Proof.
  intros Heq Hj.
  pose proof (list_lookup_fmap_Some_2
                (λ n, (parent n, parent_action n, child_nodes n)) h' j n' Hj) as Hl.
  fold (links h') in Hl. rewrite <- Heq in Hl.
  apply list_lookup_fmap_Some_1 in Hl as (n & Htriple & Hn).
  exists n. split; [done|]. by injection Htriple as -> -> ->.
Qed.

Lemma children_ok_links h h' : links h = links h' → children_ok h → children_ok h'.
Proof.
  intros Heq Hch i n' a c Hi Hin.
  destruct (links_lookup h h' i n' Heq Hi) as (n & Hn & _ & _ & Hc).
  rewrite <- Hc in Hin. destruct (Hch i n a c Hn Hin) as (cn & Hcn & Hcp & Hca).
  destruct (links_lookup h' h c cn (eq_sym Heq) Hcn) as (cn' & Hcn' & Hp' & Ha' & _).
  exists cn'. split; [done|]. split; congruence.
Qed.

Lemma registered_links h h' : links h = links h' → registered h → registered h'.
Proof.
  intros Heq Hreg i n' p Hi Hp.
  destruct (links_lookup h h' i n' Heq Hi) as (n & Hn & Hp' & Ha' & _).
  rewrite <- Hp' in Hp. destruct (Hreg i n p Hn Hp) as (pn & a & Hpn & Ha & Hget).
  destruct (links_lookup h' h p pn (eq_sym Heq) Hpn) as (pn' & Hpn' & _ & _ & Hc).
  exists pn', a. split; [done|]. split; [congruence|]. by rewrite Hc.
Qed.

Lemma child_ids_links h h' :
  links h = links h' →
  (∀ j n, h !! j = Some n → NoDup (child_nodes n).*2) →
  ∀ j n', h' !! j = Some n' → NoDup (child_nodes n').*2.
Proof.
  intros Heq Hnd j n' Hj.
  destruct (links_lookup h h' j n' Heq Hj) as (n & Hn & _ & _ & <-). by apply (Hnd j n).
Qed.

Lemma child_visits_app h (d1 d2 : list (Action * node_id)) :
  child_visits h (d1 ++ d2) = child_visits h d1 + child_visits h d2.
Proof. induction d1 as [|e d1 IH]; simpl; [done|]. rewrite IH. lia. Qed.

Lemma child_visits_same h h' (d : list (Action * node_id)) :
  (∀ a c, (a, c) ∈ d → visits <$> h' !! c = visits <$> h !! c) →
  child_visits h' d = child_visits h d.
Proof.
  induction d as [|[a c] d IH]; intros Hsame; simpl; [done|].
  rewrite (Hsame a c) by (by left). rewrite IH; [done|].
  intros a' c' Hin. apply (Hsame a' c'). by right.
Qed.

(** One child has one more visit, the others have the visits they had. *)
Lemma child_visits_bumped h h' (d : list (Action * node_id)) a0 c0 n0 n0' :
  NoDup d.*2 → (a0, c0) ∈ d → h !! c0 = Some n0 → h' !! c0 = Some n0' →
  visits n0' = visits n0 + 1 →
  (∀ c, c ≠ c0 → visits <$> h' !! c = visits <$> h !! c) →
  child_visits h' d = child_visits h d + 1.
Proof.
  intros Hnd Hin Hc0 Hc0' Hv Hsame. induction d as [|[a c] d IH]; simpl.
  { by apply elem_of_nil in Hin. }
  simpl in Hnd. apply NoDup_cons in Hnd as [Hfresh Hnd].
  apply elem_of_cons in Hin as [[= <- <-]|Hin].
  - rewrite Hc0, Hc0'. simpl. rewrite (child_visits_same h h' d); [lia|].
    intros a' c' Hin'. apply Hsame. intros ->. apply Hfresh.
    apply list_elem_of_fmap. by exists (a', c0).
  - rewrite Hsame, (IH Hnd Hin); [lia|].
    intros ->. apply Hfresh. apply list_elem_of_fmap. by exists (a0, c0).
Qed.

(** Children under different actions are different nodes. *)
Lemma child_ids_NoDup h i n :
  children_ok h → h !! i = Some n → NoDup (keys (child_nodes n)) →
  NoDup (child_nodes n).*2.
Proof.
  intros Hch Hi. unfold keys.
  assert (∀ a c, (a, c) ∈ child_nodes n →
            ∃ cn, h !! c = Some cn ∧ parent_action cn = Some a) as Hact.
  { intros a c Hin. destruct (Hch i n a c Hi Hin) as (cn & Hc & _ & Ha). by exists cn. }
  clear Hi. induction (child_nodes n) as [|[a c] d IH]; simpl; [constructor|].
  intros [Hfresh Hnd]%NoDup_cons. apply NoDup_cons. split.
  - intros ([a' c'] & Heq & Hin)%list_elem_of_fmap. simpl in Heq. subst c'.
    destruct (Hact a c) as (cn & Hc & Ha); [by left|].
    destruct (Hact a' c) as (cn' & Hc' & Ha'); [by right|].
    assert (a' = a) as -> by congruence.
    apply Hfresh. apply list_elem_of_fmap. by exists (a, c).
  - apply IH; [|done]. intros a' c' Hin. apply (Hact a' c'). by right.
Qed.
End LinksFacts.

Section AddUp.
Context {F : Type} `{PyFloat F}.
Context {Action State Box : Type} `{EqDecision Action} `{EqDecision Box}.
Variable board : Board Action State Box.
Variable rand : nat → nat.
Variable frames : nat.
Variable root_state : State.
Implicit Types (h : Heap Action) (n : MCTSNode Action) (st : list (MCTSNode Action) * nat).

Hypothesis legal_actions_NoDup : ∀ s, NoDup (legal_actions board s).

Lemma node_state_of_links h h' i s :
  links h = links h' →
  node_state board root_state h i s → node_state board root_state h' i s.
Proof.
  intros Heq. apply node_state_links. intros j nj Hj.
  destruct (links_lookup h' h j nj (eq_sym Heq) Hj) as (nj' & Hj' & Hp & Ha & _).
  by exists nj'.
Qed.

(** One step of [backpropagate]: the node gets its visit, and its parent is
    one visit short. *)
Lemma adds_up_bump h i n n' :
  wf_parents h → children_ok h → registered h →
  (∀ j nj, h !! j = Some nj → NoDup (child_nodes nj).*2) →
  h !! i = Some n → parent n' = parent n → parent_action n' = parent_action n →
  child_nodes n' = child_nodes n → visits n' = visits n + 1 →
  (∀ j, j ≠ i → adds_up_at board root_state 0 h j) →
  adds_up_at board root_state 1 h i →
  (∀ j, Some j ≠ parent n → adds_up_at board root_state 0 (<[i := n']> h) j) ∧
  (∀ p, parent n = Some p → adds_up_at board root_state 1 (<[i := n']> h) p).
Proof.
  intros Hwf Hch Hreg Hnd Hi Hp Ha Hc Hv Hlaw Hpend.
  pose proof (lookup_lt_Some _ _ _ Hi) as Hlt.
  pose proof (links_insert h i n n' Hi Hp Ha Hc) as Hlinks.
  assert (∀ c, c ≠ i → visits <$> <[i := n']> h !! c = visits <$> h !! c) as Hother.
  { intros c Hne. by rewrite list_lookup_insert_ne. }
  split.
  - intros j Hj nj1 s Hj1 Hs He.
    apply (node_state_of_links _ h j s Hlinks) in Hs.
    destruct (decide (j = i)) as [->|Hne].
    + rewrite list_lookup_insert_eq in Hj1 by done. injection Hj1 as <-.
      rewrite Hp, Hc, Hv. pose proof (Hpend n s Hi Hs He) as Heq.
      rewrite (child_visits_same h); [lia|].
      intros a c Hin. apply Hother. intros ->.
      destruct (Hch i n a i Hi Hin) as (cn & Hcn & Hcp & _).
      pose proof (Hwf i cn Hcn) as Hlink. rewrite Hcp in Hlink. lia.
    + rewrite list_lookup_insert_ne in Hj1 by done.
      pose proof (Hlaw j Hne nj1 s Hj1 Hs He) as Heq.
      rewrite (child_visits_same h); [done|].
      intros a c Hin. apply Hother. intros ->.
      destruct (Hch j nj1 a i Hj1 Hin) as (cn & Hcn & Hcp & _).
      assert (cn = n) as -> by congruence. congruence.
  - intros p Hpar pn1 s Hp1 Hs He.
    apply (node_state_of_links _ h p s Hlinks) in Hs.
    pose proof (Hwf i n Hi) as Hlink. rewrite Hpar in Hlink.
    rewrite list_lookup_insert_ne in Hp1 by lia.
    destruct (Hreg i n p Hi Hpar) as (pn & a & Hpn & _ & Hget).
    assert (pn = pn1) as -> by congruence.
    apply dict_get_entry in Hget.
    pose proof (Hlaw p ltac:(lia) pn1 s Hp1 Hs He) as Heq.
    rewrite (child_visits_bumped h (<[i := n']> h) (child_nodes pn1) a i n n');
      [lia | by apply (Hnd p) | done | done | by apply list_lookup_insert_eq | done
       | done].
Qed.

Lemma backpropagate_adds_up limit h i won h' :
  wf_parents h → children_ok h → registered h →
  (∀ j nj, h !! j = Some nj → NoDup (child_nodes nj).*2) →
  (∀ j, j ≠ i → adds_up_at board root_state 0 h j) →
  adds_up_at board root_state 1 h i →
  backpropagate limit h i won = Ok h' → visits_add_up board root_state h'.
Proof.
  revert h i. induction limit as [|limit IH]; intros h i Hwf Hch Hreg Hnd Hlaw Hpend;
    simpl; [discriminate|].
  unfold deref. destruct (h !! i) as [n|] eqn:Hi; simpl; [|discriminate].
  destruct (parent n) as [p|] eqn:Hp.
  - set (n2 := set_wins (set_visits n (visits n + 1)) (wins n + (if won then 1 else 0))).
    destruct (adds_up_bump h i n n2 Hwf Hch Hreg Hnd Hi eq_refl eq_refl eq_refl eq_refl
                Hlaw Hpend) as (Hlaw1 & Hpend1).
    pose proof (links_insert h i n n2 Hi eq_refl eq_refl eq_refl) as Hlinks.
    apply IH.
    + by apply (wf_parents_insert h i n).
    + by apply (children_ok_links h).
    + by apply (registered_links h).
    + by apply (child_ids_links h).
    + intros j Hne. apply Hlaw1. congruence.
    + apply Hpend1. by rewrite Hp.
  - intros [= <-].
    destruct (adds_up_bump h i n (set_visits n (visits n + 1)) Hwf Hch Hreg Hnd Hi
                eq_refl eq_refl eq_refl eq_refl Hlaw Hpend) as (Hlaw1 & _).
    intros j. apply Hlaw1. by rewrite Hp.
Qed.

(** After the expansion every node but the new one has its visits, and the
    new one, or the terminal one, awaits its own. *)
Lemma expand_leaf_adds_up h node state h1 node1 state1 :
  wf_parents h → children_ok h → partition_ok board root_state h →
  node_state board root_state h node state → visits_add_up board root_state h →
  expand_leaf board h node state = Ok (h1, node1, state1) →
  (∀ j, j ≠ node1 → adds_up_at board root_state 0 h1 j) ∧
  adds_up_at board root_state 1 h1 node1.
Proof.
  intros Hwf Hch Hpart Hs Hadd Hexp.
  apply expand_leaf_Ok in Hexp
    as [(He & -> & -> & _)|(_ & n & a & rest & Hn & Hu & -> & -> & _)].
  { split; [by intros j _|]. intros n s Hn Hs' He'.
    rewrite (node_state_fun board root_state h node s state Hs' Hs) in He'. congruence. }
  destruct (untried_fresh board root_state legal_actions_NoDup h node n state a rest
              Hpart Hn Hs Hu) as (Hfresh & _).
  pose proof (lookup_lt_Some _ _ _ Hn) as Hlt.
  set (h1 := expanded_heap board h node n a rest state).
  assert (∀ j nj', (j < length h)%nat → h1 !! j = Some nj' →
            ∃ nj, h !! j = Some nj ∧ parent nj = parent nj' ∧
              parent_action nj = parent_action nj') as Hbwd.
  { intros j nj' Hjlt Hj.
    destruct (expanded_heap_back board h node n a rest state j nj' Hn Hjlt Hj)
      as (nj & Hj0 & Hp & Ha & _).
    by exists nj. }
  assert (∀ c cn, h !! c = Some cn → visits <$> h1 !! c = visits <$> h !! c) as Hold.
  { intros c cn Hc.
    destruct (expanded_heap_old board h node n a rest state c cn Hn Hc)
      as (cn' & Hc' & _ & _ & _ & Hv).
    unfold h1. rewrite Hc', Hc. simpl. by rewrite Hv. }
  assert (∀ j nj, h !! j = Some nj →
            child_visits h1 (child_nodes nj) = child_visits h (child_nodes nj)) as Hsum.
  { intros j nj Hj. apply child_visits_same. intros b c Hin.
    destruct (Hch j nj b c Hj Hin) as (cn & Hc & _). by apply (Hold c cn). }
  split.
  - intros j Hne nj1 s Hj1 Hs1 He1.
    apply lookup_lt_Some in Hj1 as Hjlt. unfold h1 in Hjlt.
    rewrite expanded_heap_length in Hjlt.
    destruct (expanded_heap_back board h node n a rest state j nj1 Hn) as
      (nj & Hj0 & Hp & _ & _ & Hv & Hother & Hnode); [lia | done|].
    apply (node_state_old board root_state h h1) in Hs1; [|done | done | lia].
    pose proof (Hadd j nj s Hj0 Hs1 He1) as Heq. rewrite Hp, Hv.
    destruct (decide (j = node)) as [->|Hjn].
    + rewrite (Hnode eq_refl). simpl. rewrite dict_set_fresh by done.
      rewrite child_visits_app. assert (nj = n) as -> by congruence.
      rewrite (Hsum node n Hn). simpl.
      unfold h1. rewrite expanded_heap_lookup_new. simpl. lia.
    + rewrite (Hother Hjn). by rewrite (Hsum j nj Hj0).
  - intros n1 s Hn1 _ _. unfold h1 in Hn1. rewrite expanded_heap_lookup_new in Hn1.
    by injection Hn1 as <-.
Qed.

Lemma think_body_adds_up v fuel bot_identity st st' :
  search_inv board root_state st.1 →
  registered st.1 ∧ visits_add_up board root_state st.1 →
  think_body F board rand frames v fuel root_state bot_identity st = Ok st' →
  registered st'.1 ∧ visits_add_up board root_state st'.1.
Proof.
  intros Hsearch [Hreg Hadd] Hrun.
  split; [by apply (think_body_registered board rand frames root_state legal_actions_NoDup
                      v fuel bot_identity st st')|].
  pose proof Hsearch as ((Hwf & _ & _ & Hch) & Hpart & _).
  apply (think_body_search_stages board rand frames root_state legal_actions_NoDup) in Hrun
    as (node & state & h1 & node1 & state1 & won & Hs & Hexp & Hback & Hwf1 & Hch1
        & Hpart1 & Hplaced1); [|done].
  destruct (expand_leaf_adds_up st.1 node state h1 node1 state1 Hwf Hch Hpart Hs Hadd Hexp)
    as (Hlaw1 & Hpend1).
  apply (backpropagate_adds_up frames h1 node1 won); [done | done | | | done..].
  - by apply (expand_leaf_registered board root_state legal_actions_NoDup
                st.1 node state h1 node1 state1).
  - intros j nj Hj. apply (child_ids_NoDup h1 j nj Hch1 Hj).
    destruct (Hplaced1 j nj Hj) as [s Hsj].
    pose proof (legal_actions_NoDup s) as Hnd. rewrite <- (Hpart1 j nj s Hj Hsj) in Hnd.
    by apply NoDup_app in Hnd as (Hkeys & _).
Qed.

Lemma think_tree_adds_up v fuel budget h :
  think_tree F board rand frames v fuel root_state budget = Ok h →
  registered h ∧ visits_add_up board root_state h.
Proof.
  apply (think_tree_keeps_search board rand frames root_state legal_actions_NoDup
           (λ h, registered h ∧ visits_add_up board root_state h)).
  - split.
    + intros i n p Hi Hp. by apply list_lookup_singleton_Some in Hi as [_ <-].
    + intros i n s Hi _ _. by apply list_lookup_singleton_Some in Hi as [_ <-].
  - intros st0 st1. apply think_body_adds_up.
Qed.
End AddUp.

(** ** The two files *)

Section Variants.
Context {F : Type} `{PyFloat F}.
Context {Action State Box : Type} `{EqDecision Action} `{EqDecision Box}.
Variable board : Board Action State Box.
Variable rand : nat → nat.
Variable frames : nat.
Implicit Types (st : list (MCTSNode Action) * nat).

Lemma think_body_variants fuel current_state bot_identity st :
  bot_identity ≠ 1 → bot_identity ≠ 2 →
  think_body F board rand frames Modified fuel current_state bot_identity st =
    think_body F board rand frames Vanilla fuel current_state bot_identity st.
Proof.
  intros H1 H2. unfold think_body.
  destruct (traverse_nodes F board fuel st.1 root_node current_state bot_identity
              bot_identity) as [[node state]|e]; simpl; [|done].
  destruct (expand_leaf board st.1 node state) as [[[h1 node1] state1]|e]; simpl; [|done].
  unfold rollout_modified.
  rewrite (rollout_modified_loop_plain board rand fuel state1 state1 bot_identity st.2);
    [done|].
  intros moves. by apply heuristic_other.
Qed.

Lemma think_loop_variants fuel current_state bot_identity budget st :
  bot_identity ≠ 1 → bot_identity ≠ 2 →
  think_loop F board rand frames Modified fuel current_state bot_identity budget st =
    think_loop F board rand frames Vanilla fuel current_state bot_identity budget st.
Proof.
  intros H1 H2. revert st. induction budget as [|budget IH]; intros st; simpl; [done|].
  rewrite think_body_variants by done.
  destruct (think_body F board rand frames Vanilla fuel current_state bot_identity st)
    as [st1|e]; simpl; [apply IH | done].
Qed.

Lemma think_variants fuel current_state :
  current_player board current_state ≠ 1 → current_player board current_state ≠ 2 →
  think F board rand frames Modified fuel current_state =
    think F board rand frames Vanilla fuel current_state.
Proof.
  intros H1 H2. unfold think, think_tree. by rewrite think_loop_variants.
Qed.
End Variants.

(** ** A child that beats the others *)

Section Dominant.
Context {Action : Type}.
Implicit Types (h : Heap Action) (r n : MCTSNode Action).
Implicit Types (best : best_so_far R Action).

Lemma last_accepted_app best (l1 l2 : list (Action * (Z * Z))) :
  last_accepted best (l1 ++ l2) = last_accepted (last_accepted best l1) l2.
Proof.
  revert best. induction l1 as [|[a [w v]] l1 IH]; intros best; simpl; [done|].
  apply IH.
Qed.

(** The best so far is what the scan started with, or a candidate. *)
Lemma last_accepted_from best (l : list (Action * (Z * Z))) :
  last_accepted best l = best ∨
  ∃ a w v, (a, (w, v)) ∈ l ∧ last_accepted best l = (win_rate w v, v, Some a).
Proof.
  revert best. induction l as [|[a [w v]] l IH]; intros best; simpl; [by left|].
  destruct (replaces_best w v best).
  - right. destruct (IH (win_rate w v, v, Some a)) as [Heq|(a' & w' & v' & Hin & Heq)].
    + exists a, w, v. split; [by left | done].
    + exists a', w', v'. split; [by right | done].
  - destruct (IH best) as [Heq|(a' & w' & v' & Hin & Heq)]; [by left|].
    right. exists a', w', v'. split; [by right | done].
Qed.

(** Candidates of a win-rate that is not greater are skipped. *)
Lemma last_accepted_skips best (l : list (Action * (Z * Z))) :
  (∀ a w v, (a, (w, v)) ∈ l → (win_rate (F := R) w v <= best.1.1)%R) →
  last_accepted best l = best.
Proof.
  induction l as [|[a [w v]] l IH]; intros Hle; simpl; [done|].
  assert (replaces_best w v best = false) as ->.
  { pose proof (Hle a w v ltac:(by left)) as Hwv.
    unfold replaces_best, win_rate in *. simpl in *.
    destruct (Rlt_dec _ _); [lra | done]. }
  apply IH. intros a' w' v' Hin. apply (Hle a' w' v'). by right.
Qed.

Lemma elem_of_candidates_of h (d : list (Action * node_id)) a w v :
  (a, (w, v)) ∈ candidates_of h d →
  ∃ c n, (a, c) ∈ d ∧ h !! c = Some n ∧ w = wins n ∧ v = visits n.
Proof.
  unfold candidates_of. intros ([a' c] & Hin & Hsome)%list_elem_of_omap.
  simpl in Hsome. destruct (h !! c) as [n|] eqn:Hc; [|discriminate].
  injection Hsome as <- <- <-. by exists c, n.
Qed.

Lemma get_best_action_dominant_child h root r pre post a c n :
  h !! root = Some r → child_nodes r = pre ++ (a, c) :: post →
  h !! c = Some n → 1 ≤ visits n → 0 ≤ wins n →
  (∀ a' c', (a', c') ∈ pre ++ post →
     ∃ n', h !! c' = Some n' ∧ 1 ≤ visits n' ∧ visits n' < visits n ∧
       (win_rate (F := R) (wins n') (visits n') < win_rate (wins n) (visits n))%R) →
  get_best_action R h root = Ok (Some a).
Proof.
  intros Hr Hd Hc Hv Hw Hothers.
  rewrite (get_best_action_scan h root r Hr).
  2:{ intros a' c' Hin. rewrite Hd in Hin.
      apply elem_of_app in Hin as [Hin|[[= -> ->]|Hin]%elem_of_cons].
      - destruct (Hothers a' c') as (n' & Hc' & Hv' & _); [apply elem_of_app; by left|].
        exists n'. split; [done | lia].
      - exists n. split; [done | lia].
      - destruct (Hothers a' c') as (n' & Hc' & Hv' & _); [apply elem_of_app; by right|].
        exists n'. split; [done | lia]. }
  rewrite Hd. unfold candidates_of. rewrite omap_app. simpl. rewrite Hc. simpl.
  fold (candidates_of h pre). fold (candidates_of h post).
  rewrite last_accepted_app. simpl.
  assert (replaces_best (wins n) (visits n) (last_accepted best_init (candidates_of h pre))
          = true) as ->.
  { unfold replaces_best.
    destruct (last_accepted_from best_init (candidates_of h pre))
      as [->|(a' & w' & v' & Hin & ->)].
    - unfold best_init. cbn [fst snd].
      rewrite win_rate_above_sentinel by done.
      by rewrite bool_decide_eq_true_2 by lia.
    - apply elem_of_candidates_of in Hin as (c' & n' & Hin & Hc' & -> & ->).
      destruct (Hothers a' c') as (n'' & Hc'' & _ & Hlt & Hrate);
        [apply elem_of_app; by left|].
      assert (n'' = n') as -> by congruence. cbn [fst snd].
      rewrite bool_decide_eq_true_2 by lia. unfold win_rate in *. simpl in Hrate |- *.
      destruct (Rlt_dec _ _); [done | lra]. }
  rewrite last_accepted_skips; [done|].
  intros a' w' v' Hin. cbn [fst snd].
  apply elem_of_candidates_of in Hin as (c' & n' & Hin & Hc' & -> & ->).
  destruct (Hothers a' c') as (n'' & Hc'' & _ & _ & Hrate); [apply elem_of_app; by right|].
  assert (n'' = n') as -> by congruence. unfold win_rate in *. simpl in Hrate |- *. lra.
Qed.
End Dominant.

(** * Main results *)

(** C1: [get_best_action] scans the children in order; a child replaces
    the best so far exactly when its win-rate is strictly greater than the
    best win-rate and its visit count strictly greater than the best visit
    count, and leaves it unchanged otherwise; the action returned is the
    last one accepted.  This holds of every root whose children have a
    win-rate (visits other than 0), hence of the tree of every search.  So A
    (3 of 4) is chosen before B (5 of 10), the most visited child, and
    before C (1 of 1), the child of the highest win-rate. *)
Theorem get_best_action_last_accepted :
  (∀ (F : Type) (PF : PyFloat F) (Action : Type) (h : Heap Action)
     (root : node_id) (r : MCTSNode Action),
     h !! root = Some r →
     (∀ a c, (a, c) ∈ child_nodes r → ∃ n, h !! c = Some n ∧ visits n ≠ 0) →
     (∀ best a c n, (a, c) ∈ child_nodes r → h !! c = Some n →
        get_best_action_body h best (a, c) =
          Ok (if fgt (win_rate (wins n) (visits n)) best.1.1
                 && bool_decide (visits n > best.1.2)
              then (win_rate (wins n) (visits n), visits n, Some a) else best)) ∧
     get_best_action F h root =
       Ok (last_accepted best_init (candidates_of h (child_nodes r))).2) ∧
  (∀ (F : Type) (PF : PyFloat F) (Action State Box : Type) (EA : EqDecision Action)
     (EB : EqDecision Box) (board : Board Action State Box) (rand : nat → nat) (frames : nat)
     (v : variant) (fuel : nat) (current_state : State) (budget : nat)
     (h : Heap Action) (r : MCTSNode Action),
     think_tree F board rand frames v fuel current_state budget = Ok h →
     h !! root_node = Some r →
     get_best_action F h root_node =
       Ok (last_accepted best_init (candidates_of h (child_nodes r))).2) ∧
  get_best_action float fixture_two root_node = Ok (Some child_A) ∧
  get_best_action float fixture_three root_node = Ok (Some child_A).
Proof.
  split; [|split; [|split; vm_compute; reflexivity]].
  - intros F PF Action h root r Hr Hd. split.
    + intros best a c n Hin Hc. destruct (Hd a c Hin) as (n' & Hc' & Hv).
      assert (n' = n) as -> by congruence.
      by rewrite (get_best_action_body_step h best a c n Hc Hv).
    + by apply get_best_action_scan.
  - intros F PF Action State Box EA EB board rand frames v fuel current_state budget h r
      Hrun Hr.
    apply think_tree_inv in Hrun as (Hinv & _).
    apply (get_best_action_scan h root_node r Hr).
    intros a c Hin.
    destruct (root_children_visited h r Hinv Hr a c Hin) as (n & Hc & Hv & _).
    exists n. split; [done | lia].
Qed.

Lemma get_best_action_last_accepted_witness :
  get_best_action float fixture_three root_node =
    Ok (last_accepted (F := float) best_init
          (candidates_of fixture_three [(child_A, 1%nat); (child_B, 2%nat); (child_C, 3%nat)])).2.
Proof.
  refine (proj2 (proj1 get_best_action_last_accepted float float64 fixture_action
                   fixture_three root_node _ eq_refl _)).
  intros a c Hin. vm_compute in Hin.
  repeat (apply elem_of_cons in Hin as [Hin|Hin];
          [injection Hin as -> ->; eexists; split; [reflexivity | discriminate]|]).
  by apply elem_of_nil in Hin.
Defined.

(** C2: in the rollout of [mcts_modified.py] the heuristic is called with
    the state that [rollout] was called with, not with the state of the
    current step.  From the empty row, at the third step, marking cell 1
    gives box 0 to player 1; scanning the successors of the current state
    finds that action, but the code scans the successors of the empty row,
    finds none, and falls back to the random choice: the game ends in a draw
    where the rollout of the spec ends with box 0 owned by player 1. *)
Theorem rollout_heuristic_stale_state :
  Pairs.legal_actions fixture_third_step = [1; 3]%nat ∧
  heuristic Pairs.board fixture_third_step [1; 3]%nat 1 = Ok (Some 1%nat) ∧
  heuristic Pairs.board Pairs.start [1; 3]%nat 1 = Ok None ∧
  rollout_modified Pairs.board fixture_rand 10 Pairs.start 1 0 =
    Ok ({| Pairs.cells := [1; 2; 2; 1]; Pairs.to_move := 1 |}, 4%nat) ∧
  rollout_by_spec Pairs.board fixture_rand 10 Pairs.start 1 0 =
    Ok ({| Pairs.cells := [1; 1; 2; 0]; Pairs.to_move := 2 |}, 2%nat).
Proof. repeat split; vm_compute; reflexivity. Qed.

(** C3: for a node with parent visits [Np >= 2] and own visits [N >= 1],
    [ucb] returns exploitation + exploration with the exploitation of the
    spec, [1 - W/N] for an opponent node and [W/N] otherwise, but its
    exploration is [2 * sqrt ((ln Np / ln 2.71828) / N)]: the logarithm is
    taken to the base 2.71828, not to the base e, and the value differs from
    the spec's [2 * sqrt (ln Np / N)]. *)
Theorem ucb_log_base (Action : Type) (h : Heap Action) (c p : node_id)
    (n pn : MCTSNode Action) (is_opponent : bool) :
  h !! c = Some n → parent n = Some p → h !! p = Some pn →
  2 ≤ visits pn → 1 ≤ visits n →
  ucb (F := R) h c is_opponent = Ok (ucb_code is_opponent (wins n) (visits n) (visits pn)) ∧
  ucb (F := R) h c is_opponent ≠ Ok (ucb_spec is_opponent (wins n) (visits n) (visits pn)).
Proof.
  intros Hc Hp Hpn Hpv Hv.
  rewrite (ucb_exact_real h c p n pn is_opponent Hc Hp Hpn) by lia.
  split; [done|]. intros [= Heq]. unfold ucb_code, ucb_spec in Heq.
  assert (0 < IZR (visits n))%R as HN by (apply (IZR_lt 0); lia).
  destruct (rescaled_log_larger (ln (IZR (visits pn))) (IZR (visits n))
              (ln_IZR_pos _ Hpv) HN) as [H0 Hlt].
  apply sqrt_lt_1 in Hlt; [lra | done | lra].
Qed.

Lemma ucb_log_base_witness :
  ucb (F := R) fixture_ucb 1%nat false = Ok (ucb_code false 1 1 4) ∧
  ucb (F := R) fixture_ucb 1%nat false ≠ Ok (ucb_spec false 1 1 4).
Proof.
  refine (ucb_log_base fixture_action fixture_ucb 1%nat 0%nat _ _ false
            eq_refl eq_refl eq_refl _ _); simpl; lia.
Defined.

(** C4: when [think] has run its loop, [num_nodes] = 1000 passes (and so
    for any other budget), the root's [visits] equals the number of passes;
    a run of [think] that returns has built the tree of 1000 passes, and
    its result is [get_best_action] on that tree.  A pass that returns
    adds exactly 1 to the visits of the root.  A call of [backpropagate]
    that returns, on a store in which parents are older than their
    children, has gone through a set [B] of nodes that holds the start
    node, with every node its parent, and the root, and no node younger
    than the start node; it adds exactly 1 to the visits of the nodes of
    [B] and leaves the visits of all others as they are.  (The call does
    not return when the path is longer than the frames left: it raises
    [RecursionError].) *)
Theorem think_root_visits (F : Type) (PF : PyFloat F) (Action State Box : Type)
    (EA : EqDecision Action) (EB : EqDecision Box) (board : Board Action State Box)
    (rand : nat → nat) (frames : nat) (v : variant) (fuel : nat) (current_state : State) :
  (∀ h, think_tree F board rand frames v fuel current_state num_nodes = Ok h →
     ∃ r, h !! root_node = Some r ∧ visits r = 1000) ∧
  (∀ budget h, think_tree F board rand frames v fuel current_state budget = Ok h →
     ∃ r, h !! root_node = Some r ∧ visits r = Z.of_nat budget) ∧
  (∀ best, think F board rand frames v fuel current_state = Ok best →
     ∃ h r, think_tree F board rand frames v fuel current_state num_nodes = Ok h ∧
       h !! root_node = Some r ∧ visits r = 1000 ∧
       get_best_action F h root_node = Ok best) ∧
  (∀ bot_identity st st' r,
     tree_inv st.1 →
     think_body F board rand frames v fuel current_state bot_identity st = Ok st' →
     st.1 !! root_node = Some r →
     ∃ r', st'.1 !! root_node = Some r' ∧ visits r' = visits r + 1) ∧
  (∀ (h : Heap Action) i won frames' h',
     wf_parents h → backpropagate frames' h i won = Ok h' →
     ∃ B : node_id → bool,
       B i = true ∧ B root_node = true ∧
       (∀ j, (i < j)%nat → B j = false) ∧
       (∀ j nj p, B j = true → h !! j = Some nj → parent nj = Some p → B p = true) ∧
       (∀ j nj, h !! j = Some nj →
          ∃ nj', h' !! j = Some nj' ∧
            visits nj' = if B j then visits nj + 1 else visits nj)).
Proof.
  split; [|split; [|split; [|split]]].
  - intros h Hrun. apply think_tree_inv in Hrun as (_ & r & Hr & Hv). by exists r.
  - intros budget h Hrun. by apply think_tree_inv in Hrun as (_ & Hroot).
  - intros best Hrun. unfold think in Hrun. bind_inv Hrun.
    pose proof (think_tree_inv board rand frames v fuel current_state num_nodes x Hx)
      as (_ & r & Hr & Hv).
    by exists x, r.
  - intros bot_identity st st' r Hinv Hrun Hr.
    destruct (think_body_inv board rand frames v fuel current_state bot_identity st st'
                Hinv Hrun) as (_ & Hroot).
    by apply Hroot.
  - intros h i won frames' h' Hwf Hrun.
    destruct (backpropagate_spec frames' h i won h' Hwf Hrun)
      as (B & Hlook & _ & HBi & HBroot & Hyoung & Hup).
    exists B. split; [done|]. split; [done|]. split; [done|]. split; [done|].
    intros j nj Hj. rewrite Hlook, Hj. simpl. eexists. split; [done|].
    destruct (B j); [|done]. by destruct (bump_counts won nj) as [-> _].
Qed.

Lemma think_root_visits_witness :
  ∃ best h r,
    think float Pairs.board Pairs.rand fixture_frames Vanilla 100 Pairs.start = Ok best ∧
    think_tree float Pairs.board Pairs.rand fixture_frames Vanilla 100 Pairs.start num_nodes
      = Ok h ∧
    h !! root_node = Some r ∧ visits r = 1000 ∧
    get_best_action float h root_node = Ok best.
Proof.
  assert (∃ best, think float Pairs.board Pairs.rand fixture_frames Vanilla 100 Pairs.start
                  = Ok best) as [best Hrun].
  { eexists. vm_compute. reflexivity. }
  destruct (proj1 (proj2 (proj2 (think_root_visits float float64 nat Pairs.state nat _ _
                     Pairs.board Pairs.rand fixture_frames Vanilla 100%nat Pairs.start)))
              best Hrun) as (h & r & Htree & Hr & Hv & Hbest).
  exists best, h, r. split; [exact Hrun|]. split; [exact Htree|].
  split; [exact Hr|]. split; [exact Hv | exact Hbest].
Defined.

(** C5: after any number of passes of the loop every node below the root
    has [wins <= visits] (and so has the root).  A node is created with both
    counters at zero, and a [backpropagate] leaves a node as it is or adds
    exactly 1 to its visits and 0 or 1 to its wins. *)
Theorem wins_le_visits (F : Type) (PF : PyFloat F) (Action State Box : Type)
    (EA : EqDecision Action) (EB : EqDecision Box) (board : Board Action State Box)
    (rand : nat → nat) (frames : nat) (v : variant) (fuel : nat) (current_state : State) :
  (∀ budget h i n,
     think_tree F board rand frames v fuel current_state budget = Ok h →
     h !! i = Some n → parent n ≠ None → 0 ≤ wins n ≤ visits n) ∧
  (∀ p a (l : list Action),
     wins (MCTSNode_new p a l) = 0 ∧ visits (MCTSNode_new p a l) = 0) ∧
  (∀ frames' (h : Heap Action) i won h',
     wf_parents h → backpropagate frames' h i won = Ok h' →
     ∀ j nj, h !! j = Some nj →
       ∃ nj', h' !! j = Some nj' ∧
         (nj' = nj ∨
          visits nj' = visits nj + 1 ∧ (wins nj' = wins nj ∨ wins nj' = wins nj + 1))).
Proof.
  split; [|split].
  - intros budget h i n Hrun Hi _.
    apply think_tree_inv in Hrun as ((_ & Hcnt & _) & _). by apply (Hcnt i).
  - done.
  - intros frames' h i won h' Hwf Hrun j nj Hj.
    destruct (backpropagate_nodes frames' h i won h' Hwf Hrun) as (Hfwd & _).
    destruct (Hfwd j nj Hj) as (nj' & Hj' & Hpass). exists nj'. split; [done|].
    destruct Hpass as [->| ->]; [by left | right].
    destruct (bump_counts won nj) as [Hv [Hw|[Hw _]]]; auto.
Qed.

Lemma wins_le_visits_witness :
  ∃ h,
    think_tree float Pairs.board Pairs.rand fixture_frames Modified 100 Pairs.start 200 = Ok h ∧
    ∀ i n, h !! i = Some n → parent n ≠ None → 0 ≤ wins n ≤ visits n.
Proof.
  assert (∃ h, think_tree float Pairs.board Pairs.rand fixture_frames Modified 100 Pairs.start 200
               = Ok h) as [h Hrun].
  { eexists. vm_compute. reflexivity. }
  exists h. split; [exact Hrun|]. intros i n.
  exact (proj1 (wins_le_visits float float64 nat Pairs.state nat _ _ Pairs.board
                  Pairs.rand fixture_frames Modified 100%nat Pairs.start) 200%nat h i n Hrun).
Defined.

(** C6: provided the game model lists no action twice among the legal
    actions of a state, in every tree that the loop leaves each node has a
    state, the one its path of actions leads to, and its untried actions and
    the actions of its children make up the legal actions of that state, the
    list the node was created with: together they are that set, no action is
    in both, and the sizes add up.  [expand_leaf] keeps this: on a state
    that is not terminal it moves the first untried action to the end of the
    children's actions, and on a terminal state it leaves the store as it
    is.  [backpropagate] keeps it too, and [traverse_nodes] and the rollouts
    do not touch the tree. *)
Theorem untried_children_partition (F : Type) (PF : PyFloat F)
    (Action State Box : Type) (EA : EqDecision Action) (EB : EqDecision Box)
    (board : Board Action State Box) (rand : nat → nat) (frames : nat) (v : variant) (fuel : nat)
    (current_state : State) :
  (∀ s, NoDup (legal_actions board s)) →
  (∀ budget h i n,
     think_tree F board rand frames v fuel current_state budget = Ok h → h !! i = Some n →
     ∃ s, node_state board current_state h i s ∧
       (∀ a, a ∈ untried_actions n ∨ a ∈ keys (child_nodes n)
             ↔ a ∈ legal_actions board s) ∧
       (∀ a, ¬ (a ∈ untried_actions n ∧ a ∈ keys (child_nodes n))) ∧
       (length (untried_actions n) + length (child_nodes n)
          = length (legal_actions board s))%nat) ∧
  (∀ h node state h1 node1 state1,
     wf_parents h → partition_ok board current_state h →
     all_placed board current_state h → node_state board current_state h node state →
     expand_leaf board h node state = Ok (h1, node1, state1) →
     partition_ok board current_state h1 ∧ all_placed board current_state h1 ∧
     (is_ended board state = false →
      ∃ n n1 a, h !! node = Some n ∧ h1 !! node = Some n1 ∧
        untried_actions n = a :: untried_actions n1 ∧
        keys (child_nodes n1) = keys (child_nodes n) ++ [a]) ∧
     (is_ended board state = true → h1 = h)) ∧
  (∀ frames' h i won h',
     wf_parents h → partition_ok board current_state h →
     all_placed board current_state h →
     backpropagate frames' h i won = Ok h' →
     partition_ok board current_state h' ∧ all_placed board current_state h').
Proof.
  intros Hnd. split; [|split].
  - intros budget h i n Hrun Hi.
    apply (think_tree_search_inv board rand frames current_state Hnd) in Hrun
      as (_ & Hpart & Hplaced & _).
    destruct (Hplaced i n Hi) as [s Hs]. exists s. split; [done|].
    apply (partition_sets board Hnd). by apply (Hpart i n s).
  - intros h node state h1 node1 state1 Hwf Hpart Hplaced Hs Hrun.
    destruct (expand_leaf_partition board current_state Hnd h node state h1 node1
                state1 Hwf Hpart Hplaced Hs Hrun) as (Hpart1 & Hplaced1 & Hmove).
    split; [done|]. split; [done|]. split; [done|].
    intros He. rewrite (expand_leaf_ended board h node state He) in Hrun.
    by injection Hrun as <- _ _.
  - intros frames' h i won h'. by apply (backpropagate_partition board current_state).
Qed.

Lemma untried_children_partition_witness :
  ∃ h,
    think_tree float Pairs.board Pairs.rand fixture_frames Vanilla 100 Pairs.start 200 = Ok h ∧
    ∀ i n, h !! i = Some n →
      ∃ s, node_state Pairs.board Pairs.start h i s ∧
        (length (untried_actions n) + length (child_nodes n)
           = length (Pairs.legal_actions s))%nat.
Proof.
  assert (∃ h, think_tree float Pairs.board Pairs.rand fixture_frames Vanilla 100 Pairs.start 200
               = Ok h) as [h Hrun].
  { eexists. vm_compute. reflexivity. }
  exists h. split; [exact Hrun|]. intros i n Hi.
  destruct (proj1 (untried_children_partition float float64 nat Pairs.state nat _ _
                     Pairs.board Pairs.rand fixture_frames Vanilla 100%nat Pairs.start
                     pairs_legal_actions_NoDup) 200%nat h i n Hrun Hi)
    as (s & Hs & _ & _ & Hlen).
  exists s. split; [exact Hs | exact Hlen].
Defined.

(** C6 as it is stated, for every game model and every call of
    [expand_leaf], does not hold.  When the game model lists an action twice
    ([Twice]), after one pass that action is both untried and the key of a
    child, and after two passes the root has no untried action and one
    child for a list of two legal actions: the second child was registered
    under the key of the first.  And a call of [expand_leaf] on a terminal
    state moves no action. *)
Lemma untried_children_partition_counterexample :
  (∃ h r,
     think_tree float Twice.board Pairs.rand fixture_frames Vanilla 10 0%nat 1 = Ok h ∧
     h !! root_node = Some r ∧
     0%nat ∈ untried_actions r ∧ 0%nat ∈ keys (child_nodes r)) ∧
  (∃ h r,
     think_tree float Twice.board Pairs.rand fixture_frames Vanilla 10 0%nat 2 = Ok h ∧
     h !! root_node = Some r ∧
     (length (untried_actions r) + length (child_nodes r))%nat = 1%nat ∧
     length (legal_actions Twice.board 0%nat) = 2%nat) ∧
  is_ended Pairs.board fixture_finished = true ∧
  expand_leaf Pairs.board [MCTSNode_new None None []] root_node fixture_finished
    = Ok ([MCTSNode_new None None []], root_node, fixture_finished).
Proof.
  split; [|split; [|split]].
  - eexists _, _. split; [vm_compute; reflexivity|]. split; [reflexivity|].
    split; simpl; by left.
  - eexists _, _. split; [vm_compute; reflexivity|]. split; [reflexivity|].
    split; reflexivity.
  - reflexivity.
  - reflexivity.
Qed.

(** C7: on a terminal state [expand_leaf] returns its node and state and the
    store as it was.  Otherwise it takes the first untried action off the
    node, computes the successor state, appends a new node whose untried
    actions are the legal actions of the successor and whose counters are
    zero, registers it in the node's children under the action, and returns
    the new node with the successor state; no other node changes.  (On a
    state that is not terminal and a node with no untried action the index
    [untried_actions[0]] raises.) *)
Theorem expand_leaf_cases (Action State Box : Type) (EA : EqDecision Action)
    (board : Board Action State Box) (h : Heap Action) (node : node_id) (state : State) :
  (is_ended board state = true → expand_leaf board h node state = Ok (h, node, state)) ∧
  (∀ n move_chosen rest,
     is_ended board state = false → h !! node = Some n →
     untried_actions n = move_chosen :: rest →
     ∃ h' n',
       expand_leaf board h node state =
         Ok (h', length h, next_state board state move_chosen) ∧
       length h' = S (length h) ∧
       h' !! length h =
         Some (MCTSNode_new (Some node) (Some move_chosen)
                 (legal_actions board (next_state board state move_chosen))) ∧
       h' !! node = Some n' ∧
       untried_actions n' = rest ∧
       child_nodes n' = dict_set (child_nodes n) move_chosen (length h) ∧
       dict_get (child_nodes n') move_chosen = Ok (length h) ∧
       parent n' = parent n ∧ parent_action n' = parent_action n ∧
       wins n' = wins n ∧ visits n' = visits n ∧
       (∀ j, j ≠ node → (j < length h)%nat → h' !! j = h !! j)) ∧
  (∀ n, is_ended board state = false → h !! node = Some n → untried_actions n = [] →
     expand_leaf board h node state = Raise IndexError).
Proof.
  split; [apply expand_leaf_ended|]. split.
  - intros n a rest He Hn Hu.
    exists (expanded_heap board h node n a rest state), (expanded n a rest (length h)).
    split; [by apply expand_leaf_running|].
    split; [apply expanded_heap_length|].
    split; [apply expanded_heap_lookup_new|].
    split; [by apply expanded_heap_lookup_node|].
    repeat split; try done.
    + simpl. apply dict_get_set_eq.
    + intros j Hne Hlt. by apply expanded_heap_lookup_other.
  - intros n He Hn Hu. unfold expand_leaf, deref. rewrite He, Hn. simpl. by rewrite Hu.
Qed.

Lemma expand_leaf_cases_witness :
  ∃ h' n',
    expand_leaf Pairs.board [MCTSNode_new None None [0; 1; 2; 3]%nat] root_node
      Pairs.start
      = Ok (h', 1%nat, {| Pairs.cells := [1; 0; 0; 0]; Pairs.to_move := 2 |}) ∧
    h' !! 1%nat = Some (MCTSNode_new (Some root_node) (Some 0%nat) [1; 2; 3]%nat) ∧
    h' !! root_node = Some n' ∧
    untried_actions n' = [1; 2; 3]%nat ∧ child_nodes n' = [(0, 1)]%nat.
Proof.
  destruct (proj1 (proj2 (expand_leaf_cases nat Pairs.state nat _ Pairs.board
                            [MCTSNode_new None None [0; 1; 2; 3]%nat] root_node
                            Pairs.start))
              _ 0%nat [1; 2; 3]%nat eq_refl eq_refl eq_refl)
    as (h' & n' & Hrun & _ & Hnew & Hnode & Hu & Hc & _).
  exists h', n'. repeat split; assumption.
Defined.

(** C8: no run of the loop, and no call of [get_best_action] on the tree it
    leaves, stops on a division by zero or on the logarithm of zero.  In
    every tree that the loop leaves, each node below the root has
    [visits >= 1] and so has its parent, and each child registered in a
    node is such a node; on such a tree [ucb] raises neither error. *)
Theorem no_division_by_zero (F : Type) (PF : PyFloat F) (Action State Box : Type)
    (EA : EqDecision Action) (EB : EqDecision Box) (board : Board Action State Box)
    (rand : nat → nat) (frames : nat) (v : variant) (fuel : nat) (current_state : State) :
  (∀ budget, arith_safe (think_tree F board rand frames v fuel current_state budget)) ∧
  arith_safe (think F board rand frames v fuel current_state) ∧
  (∀ budget h, think_tree F board rand frames v fuel current_state budget = Ok h →
     arith_safe (get_best_action F h root_node) ∧
     (∀ c is_opponent, arith_safe (ucb (F := F) h c is_opponent)) ∧
     (∀ i n p, h !! i = Some n → parent n = Some p →
        1 ≤ visits n ∧ ∃ pn, h !! p = Some pn ∧ 1 ≤ visits pn) ∧
     (∀ i n a c, h !! i = Some n → (a, c) ∈ child_nodes n →
        ∃ cn, h !! c = Some cn ∧ parent cn = Some i ∧ 1 ≤ visits cn)).
Proof.
  split; [|split].
  - intros budget. apply think_tree_safe.
  - apply think_safe.
  - intros budget h Hrun.
    apply think_tree_inv in Hrun as ((Hwf & Hcnt & Hvis & Hch) & _).
    split; [by apply get_best_action_safe|].
    split; [intros; by apply ucb_safe|].
    split.
    + intros i n p Hi Hp. by apply (Hvis i n p).
    + intros i n a c Hi Hin. destruct (Hch i n a c Hi Hin) as (cn & Hc & Hcp & _).
      destruct (Hvis c cn i Hc Hcp) as (Hv & _); [done|]. by exists cn.
Qed.

Lemma no_division_by_zero_witness :
  think float Pairs.board Pairs.rand fixture_frames Vanilla 100 Pairs.start = Ok (Some 3%nat) ∧
  arith_safe (think float Pairs.board Pairs.rand fixture_frames Vanilla 100 Pairs.start).
Proof.
  split; [vm_compute; reflexivity|].
  exact (proj1 (proj2 (no_division_by_zero float float64 nat Pairs.state nat _ _
                         Pairs.board Pairs.rand fixture_frames Vanilla 100%nat Pairs.start))).
Defined.

(** C9: on a root without children [get_best_action] returns [None] and
    raises nothing.  Such is the root of a search of zero passes, and the
    root of a search from a terminal state: there [think] returns [None]
    whenever it returns. *)
Theorem get_best_action_empty :
  (∀ (F : Type) (PF : PyFloat F) (Action : Type) (h : Heap Action)
     (root : node_id) (r : MCTSNode Action),
     h !! root = Some r → child_nodes r = [] → get_best_action F h root = Ok None) ∧
  (∀ (F : Type) (PF : PyFloat F) (Action State Box : Type) (EA : EqDecision Action)
     (EB : EqDecision Box) (board : Board Action State Box) (rand : nat → nat) (frames : nat)
     (v : variant) (fuel : nat) (current_state : State),
     think_tree F board rand frames v fuel current_state 0 ≫=
       (λ h, get_best_action F h root_node) = Ok None) ∧
  (∀ (F : Type) (PF : PyFloat F) (Action State Box : Type) (EA : EqDecision Action)
     (EB : EqDecision Box) (board : Board Action State Box) (rand : nat → nat) (frames : nat)
     (v : variant) (fuel : nat) (current_state : State) (result : option Action),
     is_ended board current_state = true →
     think F board rand frames v fuel current_state = Ok result → result = None).
Proof.
  split; [|split].
  - intros. by eapply get_best_action_no_child.
  - intros. reflexivity.
  - intros F PF Action State Box EA EB board rand frames v fuel current_state result He Hrun.
    by apply (think_terminal_root board rand frames current_state He v fuel).
Qed.

Lemma get_best_action_empty_witness :
  get_best_action float fixture_bare root_node = Ok None.
Proof.
  exact (proj1 get_best_action_empty float float64 fixture_action fixture_bare
           root_node _ eq_refl eq_refl).
Defined.

(** C10: when the root has a child and every child has been visited (and
    holds no negative wins), [get_best_action] returns an action: the first
    child scanned replaces the sentinels, its win-rate being at least 0 and
    its visit count at least 1, and a chosen action is only ever replaced by
    another one.  Such is the root of every tree that a search leaves, once
    it has a child.  Stated over the exact numbers that the floats stand
    for. *)
Theorem get_best_action_some :
  (∀ (Action : Type) (h : Heap Action) (root : node_id) (r : MCTSNode Action),
     h !! root = Some r →
     child_nodes r ≠ [] →
     (∀ a c, (a, c) ∈ child_nodes r →
        ∃ n, h !! c = Some n ∧ 1 ≤ visits n ∧ 0 ≤ wins n) →
     (∃ a, get_best_action R h root = Ok (Some a)) ∧
     (∀ a0 c0 rest n0, child_nodes r = (a0, c0) :: rest → h !! c0 = Some n0 →
        get_best_action_body (F := R) h best_init (a0, c0) =
          Ok (win_rate (wins n0) (visits n0), visits n0, Some a0))) ∧
  (∀ (Action State Box : Type) (EA : EqDecision Action) (EB : EqDecision Box)
     (board : Board Action State Box) (rand : nat → nat) (frames : nat) (v : variant) (fuel : nat)
     (current_state : State) (budget : nat) (h : Heap Action) (r : MCTSNode Action),
     think_tree R board rand frames v fuel current_state budget = Ok h →
     h !! root_node = Some r → child_nodes r ≠ [] →
     ∃ a, get_best_action R h root_node = Ok (Some a)).
Proof.
  split.
  - intros Action h root r Hr Hne Hd. split.
    + by apply (get_best_action_real_some h root r).
    + intros a0 c0 rest n0 Hcs Hc0.
      by apply (get_best_action_first_child h r a0 c0 rest n0).
  - intros Action State Box EA EB board rand frames v fuel current_state budget h r
      Hrun Hr Hne.
    apply think_tree_inv in Hrun as (Hinv & _).
    apply (get_best_action_real_some h root_node r Hr Hne).
    by apply root_children_visited.
Qed.

Lemma get_best_action_some_witness :
  (∃ a, get_best_action R fixture_three root_node = Ok (Some a)) ∧
  (∀ a0 c0 rest n0,
     [(child_A, 1%nat); (child_B, 2%nat); (child_C, 3%nat)] = (a0, c0) :: rest →
     fixture_three !! c0 = Some n0 →
     get_best_action_body (F := R) fixture_three best_init (a0, c0) =
       Ok (win_rate (wins n0) (visits n0), visits n0, Some a0)).
Proof.
  refine (proj1 get_best_action_some fixture_action fixture_three root_node _
            eq_refl _ _).
  - discriminate.
  - intros a c Hin. vm_compute in Hin.
    repeat (apply elem_of_cons in Hin as [Hin|Hin];
            [injection Hin as -> ->; eexists; split; [reflexivity | simpl; lia]|]).
    by apply elem_of_nil in Hin.
Defined.

(** * Further results *)

(** X1: when [traverse_nodes] returns, the node it returns is a node of the
    store that has an untried action or whose state is terminal; it is
    reached from the start node by child references, through nodes without
    untried actions and states that are not terminal, and the state returned
    is the start state advanced by the actions of these children. *)
Theorem traverse_nodes_stops (F : Type) (PF : PyFloat F) (Action State Box : Type)
    (EA : EqDecision Action) (EB : EqDecision Box) (board : Board Action State Box)
    (fuel : nat) (h : Heap Action) (starter : node_id) (current_game : State)
    (current_identity bot_identity : Z) (node : node_id) (state : State) :
  traverse_nodes F board fuel h starter current_game current_identity bot_identity
    = Ok (node, state) →
  descends board h starter current_game node state ∧
  ∃ n, h !! node = Some n ∧ (untried_actions n ≠ [] ∨ is_ended board state = true).
Proof. apply traverse_nodes_way_down. Qed.

Lemma traverse_nodes_stops_witness :
  descends Pairs.board fixture_tree root_node Pairs.start 2%nat
    {| Pairs.cells := [0; 1; 0; 0]; Pairs.to_move := 2 |} ∧
  ∃ n, fixture_tree !! 2%nat = Some n ∧
    (untried_actions n ≠ [] ∨
     is_ended Pairs.board {| Pairs.cells := [0; 1; 0; 0]; Pairs.to_move := 2 |} = true).
Proof.
  apply (traverse_nodes_stops float float64 nat Pairs.state nat _ _ Pairs.board 100
           fixture_tree root_node Pairs.start 1 1).
  vm_compute. reflexivity.
Defined.

(** X2: on a store in which every parent is older than its children and
    every registered child names its parent, the loop of [traverse_nodes]
    ends: with a loop bound of the size of the store the bound is never
    reached, whatever the float arithmetic and the game model. *)
Theorem traverse_nodes_terminates (F : Type) (PF : PyFloat F) (Action State Box : Type)
    (EA : EqDecision Action) (EB : EqDecision Box) (board : Board Action State Box)
    (fuel : nat) (h : Heap Action) (starter : node_id) (current_game : State)
    (current_identity bot_identity : Z) :
  wf_parents h → children_ok h → is_Some (h !! starter) → (length h ≤ fuel)%nat →
  traverse_nodes F board fuel h starter current_game current_identity bot_identity
    ≠ Raise OutOfFuel.
Proof.
  intros Hwf Hch Hs Hlen. apply traverse_nodes_fuel; [done | done|].
  apply lookup_lt_is_Some in Hs. lia.
Qed.

Lemma traverse_nodes_terminates_witness :
  (length fixture_tree ≤ 7)%nat ∧
  traverse_nodes float Pairs.board 7 fixture_tree root_node Pairs.start 1 1
    ≠ Raise OutOfFuel.
Proof.
  destruct (think_tree_inv Pairs.board Pairs.rand fixture_frames Vanilla 100%nat Pairs.start 6%nat
              fixture_tree fixture_tree_run) as ((Hwf & _ & _ & Hch) & r & Hr & _).
  split; [simpl; lia|].
  apply (traverse_nodes_terminates float float64 nat Pairs.state nat _ _ Pairs.board
           7%nat fixture_tree root_node Pairs.start 1 1 Hwf Hch).
  - by exists r.
  - simpl. lia.
Defined.

(** X3: in a tree between two passes, at a node without untried actions
    that has children and whose state is not terminal, [traverse_nodes]
    goes on from the first child of the greatest UCB value: every child has
    a value, the children scanned before the chosen one have a strictly
    smaller value and those scanned after it a value that is not greater;
    the state is advanced by the child's action and the identity flips
    between 1 and 2.  Over the exact reals. *)
Theorem traverse_nodes_first_maximum (Action State Box : Type) (EA : EqDecision Action)
    (EB : EqDecision Box) (board : Board Action State Box) (fuel : nat)
    (h : Heap Action) (starter : node_id) (n : MCTSNode Action) (current_game : State)
    (current_identity bot_identity : Z) :
  tree_inv h → h !! starter = Some n → untried_actions n = [] → child_nodes n ≠ [] →
  is_ended board current_game = false →
  ∃ pre a c post u,
    child_nodes n = pre ++ (a, c) :: post ∧
    ucb (F := R) h c (bool_decide (current_identity ≠ bot_identity)) = Ok u ∧
    (∀ a' c', (a', c') ∈ child_nodes n →
       ∃ u', ucb (F := R) h c' (bool_decide (current_identity ≠ bot_identity)) = Ok u') ∧
    (∀ a' c' u', (a', c') ∈ pre →
       ucb (F := R) h c' (bool_decide (current_identity ≠ bot_identity)) = Ok u' →
       (u' < u)%R) ∧
    (∀ a' c' u', (a', c') ∈ post →
       ucb (F := R) h c' (bool_decide (current_identity ≠ bot_identity)) = Ok u' →
       (u' <= u)%R) ∧
    traverse_nodes R board (S fuel) h starter current_game current_identity bot_identity =
      traverse_nodes R board fuel h c (next_state board current_game a)
        (if decide (current_identity = 2) then 1 else 2) bot_identity.
Proof.
  intros Hinv Hn Hu Hne He.
  destruct (selection_chooses h starter n (bool_decide (current_identity ≠ bot_identity))
              Hinv Hn Hne) as (pre & a & c & post & u & Hd & Hsel & Hucb & Hpre & Hpost).
  exists pre, a, c, post, u. split; [done|]. split; [done|]. split.
  { intros a' c' Hin.
    destruct (ucb_child h starter n a' c' (bool_decide (current_identity ≠ bot_identity))
                Hinv Hn Hin) as (u' & Hu' & _).
    by exists u'. }
  split; [done|]. split; [done|].
  simpl. unfold deref. rewrite Hn. simpl.
  rewrite Hu, He, bool_decide_eq_true_2 by done. simpl. by rewrite Hsel.
Qed.

Lemma traverse_nodes_first_maximum_witness :
  ∃ pre a c post u,
    [(0, 1); (1, 2); (2, 3); (3, 4)]%nat = pre ++ (a, c) :: post ∧
    ucb (F := R) fixture_tree c (bool_decide (1 ≠ 1)) = Ok u ∧
    (∀ a' c', (a', c') ∈ [(0, 1); (1, 2); (2, 3); (3, 4)]%nat →
       ∃ u', ucb (F := R) fixture_tree c' (bool_decide (1 ≠ 1)) = Ok u') ∧
    (∀ a' c' u', (a', c') ∈ pre →
       ucb (F := R) fixture_tree c' (bool_decide (1 ≠ 1)) = Ok u' → (u' < u)%R) ∧
    (∀ a' c' u', (a', c') ∈ post →
       ucb (F := R) fixture_tree c' (bool_decide (1 ≠ 1)) = Ok u' → (u' <= u)%R) ∧
    traverse_nodes R Pairs.board 7 fixture_tree root_node Pairs.start 1 1 =
      traverse_nodes R Pairs.board 6 fixture_tree c (next_state Pairs.board Pairs.start a)
        (if decide (1 = 2) then 1 else 2) 1.
Proof.
  destruct (think_tree_inv Pairs.board Pairs.rand fixture_frames Vanilla 100%nat Pairs.start 6%nat
              fixture_tree fixture_tree_run) as (Hinv & _).
  apply (traverse_nodes_first_maximum nat Pairs.state nat _ _ Pairs.board 6%nat
           fixture_tree root_node _ Pairs.start 1 1 Hinv eq_refl eq_refl);
    [discriminate | reflexivity].
Defined.

(** X4: the edges of [ucb].  For a node without a parent it returns -1.
    For a node below a parent that has no visits it raises the domain error
    of [log], which is taken first; for a node without visits, below a
    visited parent, it raises the division by zero of [wins / visits]. *)
Theorem ucb_edge_cases (F : Type) (PF : PyFloat F) (Action : Type) (h : Heap Action)
    (c : node_id) (n : MCTSNode Action) (is_opponent : bool) :
  h !! c = Some n →
  (parent n = None → ucb (F := F) h c is_opponent = Ok (of_int (-1))) ∧
  (∀ p pn, parent n = Some p → h !! p = Some pn → visits pn ≤ 0 →
     ucb (F := F) h c is_opponent = Raise (ValueError Log)) ∧
  (∀ p pn, parent n = Some p → h !! p = Some pn → 1 ≤ visits pn → visits n = 0 →
     ucb (F := F) h c is_opponent = Raise ZeroDivisionError).
Proof.
  intros Hc. split; [by apply ucb_root|]. split.
  - intros p pn. by apply ucb_parent_unvisited.
  - intros p pn. by apply ucb_unvisited.
Qed.

Lemma ucb_edge_cases_witness :
  ucb (F := float) fixture_unvisited root_node false = Ok (of_int (-1)) ∧
  ucb (F := float) fixture_unvisited 1%nat false = Raise ZeroDivisionError.
Proof.
  split.
  - apply (proj1 (ucb_edge_cases float float64 fixture_action fixture_unvisited root_node
                    _ false eq_refl)). reflexivity.
  - apply (proj2 (proj2 (ucb_edge_cases float float64 fixture_action fixture_unvisited
                           1%nat _ false eq_refl)) root_node _ eq_refl eq_refl);
      simpl; lia.
Defined.

(** X5: for a visited node with [0 <= wins <= visits] below a visited
    parent, [ucb] returns a value between its exploration term and that term
    plus 1; the exploration term is not negative, so the value is above the
    -1 of a root and above the sentinel that [traverse_nodes] starts with.
    Over the exact reals. *)
Theorem ucb_bounds (Action : Type) (h : Heap Action) (c p : node_id)
    (n pn : MCTSNode Action) (is_opponent : bool) :
  h !! c = Some n → parent n = Some p → h !! p = Some pn →
  0 ≤ wins n ≤ visits n → 1 ≤ visits n → 1 ≤ visits pn →
  ∃ u explore,
    ucb (F := R) h c is_opponent = Ok u ∧
    explore = (2 * sqrt (ln (IZR (visits pn)) / ln (271828 / 100000) / IZR (visits n)))%R ∧
    (0 <= explore)%R ∧ (explore <= u <= 1 + explore)%R ∧
    fgt u (of_int (-1000000000)) = true.
Proof.
  intros Hc Hp Hpn Hw Hv Hpv.
  pose proof (ucb_code_bounds is_opponent (wins n) (visits n) (visits pn) Hw Hv Hpv)
    as (Hpos & Hlo & Hhi).
  eexists _, _. split; [by apply (ucb_exact_real h c p n pn)|]. split; [done|].
  split; [done|]. split; [done|].
  simpl. destruct (Rlt_dec _ _) as [|Hn]; [done|]. exfalso. apply Hn. lra.
Qed.

Lemma ucb_bounds_witness :
  ∃ u explore,
    ucb (F := R) fixture_ucb 1%nat false = Ok u ∧
    explore = (2 * sqrt (ln (IZR 4) / ln (271828 / 100000) / IZR 1))%R ∧
    (0 <= explore)%R ∧ (explore <= u <= 1 + explore)%R ∧
    fgt u (of_int (-1000000000)) = true.
Proof.
  apply (ucb_bounds fixture_action fixture_ucb 1%nat root_node _ _ false
           eq_refl eq_refl eq_refl); simpl; lia.
Defined.

(** X6: when a rollout returns, of either file, the state it returns is
    terminal and is reached from the state it was given by legal actions of
    the states passed, each of which was not terminal; the position in the
    random source has not gone back. *)
Theorem rollout_plays_to_the_end (Action State Box : Type) (EA : EqDecision Action)
    (EB : EqDecision Box) (board : Board Action State Box) (rand : nat → nat)
    (v : variant) (fuel : nat) (state : State) (bot_identity : Z) (tick : nat)
    (state' : State) (tick' : nat) :
  rollout_of board rand v fuel state bot_identity tick = Ok (state', tick') →
  legal_play board state state' ∧ is_ended board state' = true ∧ (tick ≤ tick')%nat.
Proof. apply rollout_of_plays. Qed.

Lemma rollout_plays_to_the_end_witness :
  legal_play Pairs.board Pairs.start {| Pairs.cells := [0; 2; 1; 1]; Pairs.to_move := 2 |} ∧
  is_ended Pairs.board {| Pairs.cells := [0; 2; 1; 1]; Pairs.to_move := 2 |} = true ∧
  (0 ≤ 3)%nat.
Proof.
  apply (rollout_plays_to_the_end nat Pairs.state nat _ _ Pairs.board Pairs.rand
           Modified 10%nat Pairs.start 1 0%nat).
  vm_compute. reflexivity.
Defined.

(** X7: a rollout returns, of either file, in a game that ends: when every
    state reached from [state] that is not terminal has a legal action, a
    legal action there leads to a state of smaller size, and no box
    disappears from [owned_boxes], the rollout from [state] with a loop
    bound above the size of [state] returns a terminal state. *)
Theorem rollout_returns (Action State Box : Type) (EA : EqDecision Action)
    (EB : EqDecision Box) (board : Board Action State Box) (rand : nat → nat)
    (size : State → nat) (v : variant) (fuel : nat) (state : State) (bot_identity : Z)
    (tick : nat) :
  (∀ s, legal_play board state s → is_ended board s = false →
     legal_actions board s ≠ []) →
  (∀ s a, legal_play board state s → is_ended board s = false →
     a ∈ legal_actions board s → (size (next_state board s a) < size s)%nat) →
  (∀ s a mini, mini ∈ keys (owned_boxes board s) →
     mini ∈ keys (owned_boxes board (next_state board s a))) →
  (size state < fuel)%nat →
  ∃ state' tick',
    rollout_of board rand v fuel state bot_identity tick = Ok (state', tick') ∧
    is_ended board state' = true.
Proof.
  intros Hmove Hshrink Hboxes Hfuel.
  destruct (rollout_of_total board rand size state Hmove Hshrink v fuel state bot_identity
              tick Hboxes (legal_play_here board state) Hfuel) as (state' & tick' & Hrun).
  exists state', tick'. split; [done|]. by apply rollout_of_plays in Hrun as (_ & He & _).
Qed.

Lemma rollout_returns_witness :
  ∃ state' tick',
    rollout_of Pairs.board Pairs.rand Modified 5 Pairs.start 1 0 = Ok (state', tick') ∧
    is_ended Pairs.board state' = true.
Proof.
  apply (rollout_returns nat Pairs.state nat _ _ Pairs.board Pairs.rand
           (λ s, length (Pairs.empty_cells s)) Modified 5%nat Pairs.start 1 0%nat).
  - intros s _. apply pairs_can_move.
  - apply pairs_play_shrinks.
  - apply pairs_boxes_stay.
  - simpl. lia.
Defined.

(** X8: [heuristic], for the identity 1 or 2, returns the first of [moves]
    for which some box of [state] changes its owner, between [state] and
    the successor of [state] by that move, to the bot; it returns [None]
    when no move of [moves] does. *)
Theorem heuristic_first_winning_action (Action State Box : Type) (EA : EqDecision Action)
    (EB : EqDecision Box) (board : Board Action State Box) (state : State)
    (moves : list Action) (bot_identity : Z) (found : option Action) :
  bot_identity = 1 ∨ bot_identity = 2 →
  heuristic board state moves bot_identity = Ok found →
  match found with
  | Some a =>
      ∃ pre post, moves = pre ++ a :: post ∧ wins_box board state bot_identity a ∧
        ∀ b, b ∈ pre → ¬ wins_box board state bot_identity b
  | None => ∀ b, b ∈ moves → ¬ wins_box board state bot_identity b
  end.
Proof. apply heuristic_first. Qed.

Lemma heuristic_first_winning_action_witness :
  ∃ pre post, [3; 1]%nat = pre ++ 1%nat :: post ∧
    wins_box Pairs.board fixture_third_step 1 1%nat ∧
    ∀ b, b ∈ pre → ¬ wins_box Pairs.board fixture_third_step 1 b.
Proof.
  apply (heuristic_first_winning_action nat Pairs.state nat _ _ Pairs.board
           fixture_third_step [3; 1]%nat 1 (Some 1%nat)).
  - by left.
  - vm_compute. reflexivity.
Defined.

(** X9: for an identity other than 1 and 2, and from a state without
    boxes, [heuristic] finds nothing, and the rollout of [mcts_modified.py]
    is the rollout of [mcts_vanilla.py]: the same states, the same random
    choices.  So for a player other than 1 and 2 the two files' [think] are
    the same. *)
Theorem rollout_modified_without_heuristic (Action State Box : Type)
    (EA : EqDecision Action) (EB : EqDecision Box) (board : Board Action State Box)
    (rand : nat → nat) (frames : nat) (fuel : nat) (state : State) (bot_identity : Z) (tick : nat) :
  (bot_identity ≠ 1 ∧ bot_identity ≠ 2) ∨ owned_boxes board state = [] →
  (∀ moves, heuristic board state moves bot_identity = Ok None) ∧
  rollout_modified board rand fuel state bot_identity tick
    = rollout board rand fuel state tick ∧
  (∀ (F : Type) (PF : PyFloat F),
     current_player board state ≠ 1 → current_player board state ≠ 2 →
     think F board rand frames Modified fuel state = think F board rand frames Vanilla fuel state).
Proof.
  intros Hcase.
  assert (∀ moves, heuristic board state moves bot_identity = Ok None) as Hnone.
  { intros moves. destruct Hcase as [[H1 H2]|Hb];
      [by apply heuristic_other | by apply heuristic_no_box]. }
  split; [done|]. split; [by apply rollout_modified_loop_plain|].
  intros F PF. apply think_variants.
Qed.

Lemma rollout_modified_without_heuristic_witness :
  (∀ moves, heuristic Pairs.board fixture_third_step moves 3 = Ok None) ∧
  rollout_modified Pairs.board Pairs.rand 10 fixture_third_step 3 0
    = rollout Pairs.board Pairs.rand 10 fixture_third_step 0 ∧
  (∀ (F : Type) (PF : PyFloat F),
     current_player Pairs.board fixture_third_step ≠ 1 →
     current_player Pairs.board fixture_third_step ≠ 2 →
     think F Pairs.board Pairs.rand fixture_frames Modified 10 fixture_third_step
       = think F Pairs.board Pairs.rand fixture_frames Vanilla 10 fixture_third_step).
Proof.
  apply (rollout_modified_without_heuristic nat Pairs.state nat _ _ Pairs.board
           Pairs.rand fixture_frames 10%nat fixture_third_step 3 0%nat).
  left. split; discriminate.
Defined.

(** X10: [backpropagate] makes one call for each node of the path from
    the start node up to the root.  On a store in which parents are older
    than their children the path of a node [i] has a length [k], at most
    [i + 1].  When fewer than [k] frames are left the call raises
    [RecursionError] (the nodes below the point of the error were updated
    by then; the exception ends the run of [think], which does not catch
    it).  When [k] frames or more are left the call returns; it changes the
    start node, its parent, and so on up to the root, and no other node.
    Each of these gets 1 more visit and, unless it is the root, [won] more
    wins; its references, children and untried actions stay, and so does
    the size of the store. *)
Theorem backpropagate_bumps_ancestors (Action : Type) (frames : nat) (h : Heap Action)
    (i : node_id) (won : bool) :
  wf_parents h → is_Some (h !! i) →
  ∃ k, path_frames h i k ∧ (1 ≤ k ≤ S i)%nat ∧
    ((frames < k)%nat → backpropagate frames h i won = Raise RecursionError) ∧
    ((k ≤ frames)%nat →
     ∃ h', backpropagate frames h i won = Ok h' ∧ length h' = length h ∧
       ∀ j nj, h !! j = Some nj →
         ∃ nj', h' !! j = Some nj' ∧
           parent nj' = parent nj ∧ parent_action nj' = parent_action nj ∧
           child_nodes nj' = child_nodes nj ∧ untried_actions nj' = untried_actions nj ∧
           (ancestor h i j →
              visits nj' = visits nj + 1 ∧
              wins nj' = wins nj + match parent nj with
                                   | Some _ => if won then 1 else 0
                                   | None => 0
                                   end) ∧
           (¬ ancestor h i j → nj' = nj)).
Proof.
  intros Hwf Hi.
  destruct (path_frames_exists h i Hwf Hi) as (k & Hk & Hbound).
  exists k. split; [done|]. split; [done|]. split.
  { intros Hlt. by apply (backpropagate_overflow frames h i won k). }
  intros Hle.
  destruct (backpropagate_returns frames h i won k Hk Hle) as [h' Hrun].
  destruct (backpropagate_path frames h i won h' Hwf Hrun) as (Hlen & Hnodes).
  destruct (backpropagate_nodes frames h i won h' Hwf Hrun) as (Hfwd & _).
  exists h'. split; [done|]. split; [done|]. intros j nj Hj.
  destruct (Hfwd j nj Hj) as (nj' & Hj' & Hpass). exists nj'. split; [done|].
  destruct (passed_links won nj nj' Hpass) as (Hp & Ha & Hc & Hu).
  split; [done|]. split; [done|]. split; [done|]. split; [done|].
  destruct (Hnodes j nj Hj) as [Hyes Hno]. split.
  - intros Hanc. rewrite (Hyes Hanc) in Hj'. injection Hj' as <-.
    unfold bump. destruct (parent nj); simpl; [done | lia].
  - intros Hanc. rewrite (Hno Hanc) in Hj'. by injection Hj' as <-.
Qed.

Lemma backpropagate_bumps_ancestors_witness :
  ∃ k, path_frames fixture_tree 6%nat k ∧ (1 ≤ k ≤ 7)%nat ∧
    ((3 < k)%nat → backpropagate 3 fixture_tree 6%nat true = Raise RecursionError) ∧
    ((k ≤ 3)%nat →
     ∃ h', backpropagate 3 fixture_tree 6%nat true = Ok h' ∧
       length h' = length fixture_tree ∧
       ∀ j nj, fixture_tree !! j = Some nj →
         ∃ nj', h' !! j = Some nj' ∧
           parent nj' = parent nj ∧ parent_action nj' = parent_action nj ∧
           child_nodes nj' = child_nodes nj ∧ untried_actions nj' = untried_actions nj ∧
           (ancestor fixture_tree 6%nat j →
              visits nj' = visits nj + 1 ∧
              wins nj' = wins nj + match parent nj with Some _ => 1 | None => 0 end) ∧
           (¬ ancestor fixture_tree 6%nat j → nj' = nj)).
Proof.
  destruct (think_tree_inv Pairs.board Pairs.rand fixture_frames Vanilla 100%nat Pairs.start
              6%nat fixture_tree fixture_tree_run) as ((Hwf & _) & _).
  apply (backpropagate_bumps_ancestors nat 3%nat fixture_tree 6%nat true Hwf).
  by eexists.
Defined.

(** X11: provided the game model lists no action twice among the legal
    actions of a state, in every tree that the loop leaves the parent
    references and the children are inverse to each other: every node below
    the root is the child that its parent holds under the node's action,
    every registered child names the node as parent and the key as action,
    and the root is the one node without a parent. *)
Theorem parent_child_inverse (F : Type) (PF : PyFloat F) (Action State Box : Type)
    (EA : EqDecision Action) (EB : EqDecision Box) (board : Board Action State Box)
    (rand : nat → nat) (frames : nat) (v : variant) (fuel : nat) (current_state : State)
    (budget : nat) (h : Heap Action) :
  (∀ s, NoDup (legal_actions board s)) →
  think_tree F board rand frames v fuel current_state budget = Ok h →
  (∀ i n p, h !! i = Some n → parent n = Some p →
     ∃ pn a, h !! p = Some pn ∧ parent_action n = Some a ∧
       dict_get (child_nodes pn) a = Ok i) ∧
  (∀ i n a c, h !! i = Some n → (a, c) ∈ child_nodes n →
     ∃ cn, h !! c = Some cn ∧ parent cn = Some i ∧ parent_action cn = Some a) ∧
  (∀ i n, h !! i = Some n → parent n = None ↔ i = root_node).
Proof.
  intros Hnd Hrun.
  pose proof (think_tree_registered board rand frames current_state Hnd v fuel budget h Hrun)
    as Hreg.
  apply think_tree_inv in Hrun as ((Hwf & _ & _ & Hch) & _).
  split; [done|]. split; [done|]. intros i n Hi.
  pose proof (Hwf i n Hi) as Hlink. split.
  - intros Hp. by rewrite Hp in Hlink.
  - intros ->. destruct (parent n); [|done]. unfold root_node in Hlink. lia.
Qed.

Lemma parent_child_inverse_witness :
  ∃ h,
    think_tree float Pairs.board Pairs.rand fixture_frames Modified 100 Pairs.start 200 = Ok h ∧
    ∀ i n p, h !! i = Some n → parent n = Some p →
      ∃ pn a, h !! p = Some pn ∧ parent_action n = Some a ∧
        dict_get (child_nodes pn) a = Ok i.
Proof.
  assert (∃ h, think_tree float Pairs.board Pairs.rand fixture_frames Modified 100 Pairs.start 200
               = Ok h) as [h Hrun].
  { eexists. vm_compute. reflexivity. }
  exists h. split; [exact Hrun|].
  exact (proj1 (parent_child_inverse float float64 nat Pairs.state nat _ _ Pairs.board
                  Pairs.rand fixture_frames Modified 100%nat Pairs.start 200%nat h
                  pairs_legal_actions_NoDup Hrun)).
Defined.

(** X12: in every tree that the loop leaves no node has more visits than
    its parent: a pass that goes through a node goes through its parent. *)
Theorem child_visits_le_parent (F : Type) (PF : PyFloat F) (Action State Box : Type)
    (EA : EqDecision Action) (EB : EqDecision Box) (board : Board Action State Box)
    (rand : nat → nat) (frames : nat) (v : variant) (fuel : nat) (current_state : State)
    (budget : nat) (h : Heap Action) :
  think_tree F board rand frames v fuel current_state budget = Ok h →
  ∀ i n p pn, h !! i = Some n → parent n = Some p → h !! p = Some pn →
    visits n ≤ visits pn.
Proof. apply think_tree_visits_up. Qed.

Lemma child_visits_le_parent_witness :
  think_tree float Pairs.board Pairs.rand fixture_frames Vanilla 100 Pairs.start 6 = Ok fixture_tree ∧
  ∀ i n p pn, fixture_tree !! i = Some n → parent n = Some p →
    fixture_tree !! p = Some pn → visits n ≤ visits pn.
Proof.
  split; [exact fixture_tree_run|].
  exact (child_visits_le_parent float float64 nat Pairs.state nat _ _ Pairs.board
           Pairs.rand fixture_frames Vanilla 100%nat Pairs.start 6%nat fixture_tree fixture_tree_run).
Defined.

(** X13: a pass adds at most one node to the store and removes none: after
    [budget] passes the store holds the root and at most [budget] more
    nodes. *)
Theorem store_size_bound (F : Type) (PF : PyFloat F) (Action State Box : Type)
    (EA : EqDecision Action) (EB : EqDecision Box) (board : Board Action State Box)
    (rand : nat → nat) (frames : nat) (v : variant) (fuel : nat) (current_state : State)
    (budget : nat) (h : Heap Action) :
  think_tree F board rand frames v fuel current_state budget = Ok h →
  (1 ≤ length h ≤ S budget)%nat.
Proof.
  unfold think_tree. intros Hrun. bind_inv Hrun. injection Hrun as <-.
  apply think_loop_length in Hx. simpl in Hx. lia.
Qed.

Lemma store_size_bound_witness : (1 ≤ length fixture_tree ≤ 7)%nat.
Proof.
  exact (store_size_bound float float64 nat Pairs.state nat _ _ Pairs.board
           Pairs.rand fixture_frames Vanilla 100%nat Pairs.start 6%nat fixture_tree fixture_tree_run).
Defined.

(** X14: an action that [think] returns is a legal action of the state it
    was given, and that state is not terminal. *)
Theorem think_action_is_legal (F : Type) (PF : PyFloat F) (Action State Box : Type)
    (EA : EqDecision Action) (EB : EqDecision Box) (board : Board Action State Box)
    (rand : nat → nat) (frames : nat) (v : variant) (fuel : nat) (current_state : State) (a : Action) :
  think F board rand frames v fuel current_state = Ok (Some a) →
  a ∈ legal_actions board current_state ∧ is_ended board current_state = false.
Proof.
  intros Hrun. split.
  - unfold think in Hrun. bind_inv Hrun.
    apply think_tree_root_ok in Hx as (r & Hr & _ & _ & Hlegal).
    apply get_best_action_key in Hrun as (r' & c & n & Hr' & Hin & _).
    assert (r' = r) as -> by congruence.
    apply Hlegal. left. apply list_elem_of_fmap. by exists (a, c).
  - destruct (is_ended board current_state) eqn:He; [|done].
    by apply (think_terminal_root board rand frames current_state He) in Hrun.
Qed.

Lemma think_action_is_legal_witness :
  3%nat ∈ legal_actions Pairs.board Pairs.start ∧ is_ended Pairs.board Pairs.start = false.
Proof.
  apply (think_action_is_legal float float64 nat Pairs.state nat _ _ Pairs.board
           Pairs.rand fixture_frames Modified 100%nat Pairs.start 3%nat).
  vm_compute. reflexivity.
Defined.

(** X15: [backpropagate] never adds to the wins of the root: in every tree
    that the loop leaves the root has no parent and no wins. *)
Theorem root_never_wins (F : Type) (PF : PyFloat F) (Action State Box : Type)
    (EA : EqDecision Action) (EB : EqDecision Box) (board : Board Action State Box)
    (rand : nat → nat) (frames : nat) (v : variant) (fuel : nat) (current_state : State)
    (budget : nat) (h : Heap Action) :
  think_tree F board rand frames v fuel current_state budget = Ok h →
  ∃ r, h !! root_node = Some r ∧ parent r = None ∧ wins r = 0.
Proof.
  intros Hrun. apply think_tree_root_ok in Hrun as (r & Hr & Hp & Hw & _). by exists r.
Qed.

Lemma root_never_wins_witness :
  ∃ r, fixture_tree !! root_node = Some r ∧ parent r = None ∧ wins r = 0.
Proof.
  exact (root_never_wins float float64 nat Pairs.state nat _ _ Pairs.board
           Pairs.rand fixture_frames Vanilla 100%nat Pairs.start 6%nat fixture_tree fixture_tree_run).
Defined.

(** X16: a search of more passes continues the search of fewer passes: the
    tree after [budget + more] passes holds every node of the tree after
    [budget] passes at the same place with the same parent and action, with
    at least the visits and the wins it had; its untried actions are the
    last of those it had and the actions of its children begin with those
    it had. *)
Theorem longer_search_extends (F : Type) (PF : PyFloat F) (Action State Box : Type)
    (EA : EqDecision Action) (EB : EqDecision Box) (board : Board Action State Box)
    (rand : nat → nat) (frames : nat) (v : variant) (fuel : nat) (current_state : State)
    (budget more : nat) (h h' : Heap Action) :
  think_tree F board rand frames v fuel current_state budget = Ok h →
  think_tree F board rand frames v fuel current_state (budget + more) = Ok h' →
  ∀ j nj, h !! j = Some nj →
    ∃ nj', h' !! j = Some nj' ∧
      parent nj' = parent nj ∧ parent_action nj' = parent_action nj ∧
      visits nj ≤ visits nj' ∧ wins nj ≤ wins nj' ∧
      untried_actions nj' `suffix_of` untried_actions nj ∧
      keys (child_nodes nj) `prefix_of` keys (child_nodes nj').
Proof. apply think_tree_grows. Qed.

Lemma longer_search_extends_witness :
  ∃ h',
    think_tree float Pairs.board Pairs.rand fixture_frames Vanilla 100 Pairs.start (6 + 30) = Ok h' ∧
    ∀ j nj, fixture_tree !! j = Some nj →
      ∃ nj', h' !! j = Some nj' ∧
        parent nj' = parent nj ∧ parent_action nj' = parent_action nj ∧
        visits nj ≤ visits nj' ∧ wins nj ≤ wins nj' ∧
        untried_actions nj' `suffix_of` untried_actions nj ∧
        keys (child_nodes nj) `prefix_of` keys (child_nodes nj').
Proof.
  assert (∃ h', think_tree float Pairs.board Pairs.rand fixture_frames Vanilla 100 Pairs.start (6 + 30)
                = Ok h') as [h' Hrun].
  { eexists. vm_compute. reflexivity. }
  exists h'. split; [exact Hrun|].
  exact (longer_search_extends float float64 nat Pairs.state nat _ _ Pairs.board
           Pairs.rand fixture_frames Vanilla 100%nat Pairs.start 6%nat 30%nat fixture_tree h'
           fixture_tree_run Hrun).
Defined.

(** X17: [think] returns in a game that ends, when the interpreter has
    the frames for it.  When the game model lists no legal action twice,
    every state reached from the current state that is not terminal has a
    legal action, a legal action there leads to a state of smaller size,
    every terminal state reached has a score for the bot, no box disappears
    from [owned_boxes], and the frames left for [backpropagate] exceed the
    size of the current state (so that no path of the tree is longer than
    the frames), then the loop of [budget] passes returns a tree and
    [think] returns, of either file, for every random source and every
    loop bound above [budget] and the size of the current state: [None] on
    a terminal state and a legal action otherwise.  Over the exact reals.
    (In a game of more plies than the interpreter has frames the search
    can raise [RecursionError]; the hypothesis on [frames] excludes it.) *)
Theorem think_returns (Action State Box : Type) (EA : EqDecision Action)
    (EB : EqDecision Box) (board : Board Action State Box) (rand : nat → nat) (frames : nat)
    (size : State → nat) (v : variant) (fuel : nat) (current_state : State) :
  (∀ s, NoDup (legal_actions board s)) →
  (∀ s, legal_play board current_state s → is_ended board s = false →
     legal_actions board s ≠ []) →
  (∀ s a, legal_play board current_state s → is_ended board s = false →
     a ∈ legal_actions board s → (size (next_state board s a) < size s)%nat) →
  (∀ s, legal_play board current_state s → is_ended board s = true →
     ∃ outcome, points_values board s = Some outcome ∧
       current_player board current_state ∈ keys outcome) →
  (∀ s a mini, mini ∈ keys (owned_boxes board s) →
     mini ∈ keys (owned_boxes board (next_state board s a))) →
  (size current_state < fuel)%nat →
  (size current_state < frames)%nat →
  (∀ budget, (budget < fuel)%nat →
     ∃ h, think_tree R board rand frames v fuel current_state budget = Ok h) ∧
  ((num_nodes < fuel)%nat →
   ∃ best, think R board rand frames v fuel current_state = Ok best ∧
     (is_ended board current_state = true → best = None) ∧
     (is_ended board current_state = false →
      ∃ a, best = Some a ∧ a ∈ legal_actions board current_state)).
Proof.
  intros Hnd Hmove Hshrink Hscore Hboxes Hsize Hframes. split.
  - intros budget Hbudget.
    by apply (think_tree_total board rand frames size current_state Hnd Hmove Hshrink Hscore
                Hboxes v fuel budget).
  - intros Hfuel.
    destruct (think_total board rand frames size current_state Hnd Hmove Hshrink Hscore Hboxes
                v fuel Hfuel Hsize Hframes) as [best Hrun].
    exists best. split; [done|]. split.
    + intros He. by apply (think_terminal_root board rand frames current_state He) in Hrun.
    + intros He. pose proof Hrun as Hthink. unfold think in Hrun. bind_inv Hrun.
      pose proof (think_tree_inv board rand frames v fuel current_state num_nodes x Hx)
        as (Hinv & _).
      destruct (think_tree_root_child board rand frames v fuel current_state 999 x He)
        as (r & Hr & Hc); [by apply Hmove; [apply legal_play_here|] | done|].
      destruct (get_best_action_real_some x root_node r Hr Hc) as [a Ha];
        [by apply root_children_visited|].
      assert (best = Some a) as -> by congruence.
      exists a. split; [done|].
      apply (think_tree_root_ok board rand frames v fuel current_state num_nodes x) in Hx
        as (r' & Hr' & _ & _ & Hlegal).
      apply get_best_action_key in Ha as (r'' & c & n & Hr'' & Hin & _).
      assert (r'' = r') as -> by congruence.
      apply Hlegal. left. apply list_elem_of_fmap. by exists (a, c).
Qed.

Lemma think_returns_witness :
  (∀ budget, (budget < 1001)%nat →
     ∃ h, think_tree R Pairs.board Pairs.rand fixture_frames Modified 1001 Pairs.start budget = Ok h) ∧
  ((num_nodes < 1001)%nat →
   ∃ best, think R Pairs.board Pairs.rand fixture_frames Modified 1001 Pairs.start = Ok best ∧
     (is_ended Pairs.board Pairs.start = true → best = None) ∧
     (is_ended Pairs.board Pairs.start = false →
      ∃ a, best = Some a ∧ a ∈ legal_actions Pairs.board Pairs.start)).
Proof.
  apply (think_returns nat Pairs.state nat _ _ Pairs.board Pairs.rand fixture_frames
           (λ s, length (Pairs.empty_cells s)) Modified 1001%nat Pairs.start).
  - apply pairs_legal_actions_NoDup.
  - intros s _. apply pairs_can_move.
  - apply pairs_play_shrinks.
  - intros s _. apply pairs_scored.
  - apply pairs_boxes_stay.
  - simpl. lia.
  - unfold fixture_frames. simpl. lia.
Defined.

(** X18: the exceptions of [think].  When the game model gives the points
    of every terminal state, a run of [think], of either file, returns or
    stops on one of: the [choice] from an empty list of legal actions
    ([IndexError]); a key that the points or the boxes of the game model do
    not hold ([KeyError]); a node without children and without untried
    actions in a state that is not terminal ([NoneTypeError]); the square
    root of [ucb] ([ValueError]); a path of [backpropagate] longer than the
    frames left ([RecursionError]); or the run goes past the bound that the
    model puts on the [while] loops, where the Python loop runs on
    ([OutOfFuel]).  It never stops on the assertion of [is_win], on a
    division or a logarithm, or on a node reference outside the store; and
    [expand_leaf] returns on whatever [traverse_nodes] returns, so its
    index [untried_actions[0]] never fails in a pass. *)
Theorem think_raises_only (F : Type) (PF : PyFloat F) (Action State Box : Type)
    (EA : EqDecision Action) (EB : EqDecision Box) (board : Board Action State Box)
    (rand : nat → nat) (frames : nat) (v : variant) (fuel : nat) (current_state : State) :
  (∀ s, is_ended board s = true → points_values board s ≠ None) →
  raises_only [IndexError; KeyError; NoneTypeError; ValueError Sqrt; RecursionError; OutOfFuel]
    (think F board rand frames v fuel current_state) ∧
  think F board rand frames v fuel current_state ≠ Raise AssertionError ∧
  think F board rand frames v fuel current_state ≠ Raise BadReference ∧
  (∀ fuel' (h : Heap Action) starter s current_identity bot_identity node state,
     traverse_nodes F board fuel' h starter s current_identity bot_identity
       = Ok (node, state) →
     ∃ h1 node1 state1, expand_leaf board h node state = Ok (h1, node1, state1)).
Proof.
  intros Hscored.
  pose proof (think_raises board rand frames Hscored v fuel current_state) as Hraises.
  split; [done|].
  split; [|split]; [intros Hrun; apply Hraises in Hrun;
                    repeat (apply elem_of_cons in Hrun as [?|Hrun]; [discriminate|]);
                    by apply elem_of_nil in Hrun..|].
  intros fuel' h starter s current_identity bot_identity node state Htrav.
  apply traverse_nodes_way_down in Htrav as (_ & n & Hn & Hstop).
  destruct (expand_leaf_returns board h node state n Hn Hstop)
    as (h1 & node1 & state1 & Hexp & _).
  by exists h1, node1, state1.
Qed.

Lemma think_raises_only_witness :
  think float Pairs.board Pairs.rand fixture_frames Modified 100 Pairs.start
    = Ok (Some 3%nat) ∧
  raises_only [IndexError; KeyError; NoneTypeError; ValueError Sqrt; RecursionError; OutOfFuel]
    (think float Pairs.board Pairs.rand fixture_frames Modified 100 Pairs.start) ∧
  think float Pairs.board Pairs.rand fixture_frames Modified 100 Pairs.start
    ≠ Raise AssertionError ∧
  think float Pairs.board Pairs.rand fixture_frames Modified 100 Pairs.start
    ≠ Raise BadReference ∧
  (∀ fuel' (h : Heap nat) starter s current_identity bot_identity node state,
     traverse_nodes float Pairs.board fuel' h starter s current_identity bot_identity
       = Ok (node, state) →
     ∃ h1 node1 state1, expand_leaf Pairs.board h node state = Ok (h1, node1, state1)).
Proof.
  split; [vm_compute; reflexivity|].
  apply (think_raises_only float float64 nat Pairs.state nat _ _ Pairs.board Pairs.rand
           fixture_frames Modified 100%nat Pairs.start).
  intros s He. destruct (pairs_scored s He) as (outcome & -> & _). discriminate.
Defined.

(** X19: [get_best_action] divides before it compares: at the first child
    without visits it raises the division by zero, whatever the children
    scanned before it. *)
Theorem get_best_action_unvisited_child (F : Type) (PF : PyFloat F) (Action : Type)
    (h : Heap Action) (root : node_id) (r : MCTSNode Action)
    (pre post : list (Action * node_id)) (a : Action) (c : node_id)
    (n : MCTSNode Action) :
  h !! root = Some r → child_nodes r = pre ++ (a, c) :: post →
  (∀ a' c', (a', c') ∈ pre → ∃ n', h !! c' = Some n' ∧ visits n' ≠ 0) →
  h !! c = Some n → visits n = 0 →
  get_best_action F h root = Raise ZeroDivisionError.
Proof. apply get_best_action_unvisited. Qed.

Lemma get_best_action_unvisited_child_witness :
  get_best_action float fixture_unvisited root_node = Raise ZeroDivisionError.
Proof.
  apply (get_best_action_unvisited_child float float64 fixture_action fixture_unvisited
           root_node _ [] [] child_A 1%nat (fixture_leaf child_A 0 0) eq_refl eq_refl).
  - by intros a' c' ?%elem_of_nil.
  - reflexivity.
  - reflexivity.
Defined.

(** X20: the engine relies on the game model to give a legal action in
    every state that is not terminal.  From a state that is not terminal and
    has none, the rollouts stop on the [choice] from the empty list, and
    [think] stops in its first pass: the root has no untried action and no
    child, the loop of [traverse_nodes] chooses nothing, and the pass fails on
    the [None] that it leaves in [starter]. *)
Theorem no_legal_action_raises (F : Type) (PF : PyFloat F) (Action State Box : Type)
    (EA : EqDecision Action) (EB : EqDecision Box) (board : Board Action State Box)
    (rand : nat → nat) (frames : nat) (v : variant) (fuel : nat) (current_state : State) :
  is_ended board current_state = false → legal_actions board current_state = [] →
  (∀ bot_identity tick,
     rollout_of board rand v (S fuel) current_state bot_identity tick = Raise IndexError) ∧
  think F board rand frames v (S fuel) current_state = Raise NoneTypeError.
Proof.
  intros He Hl. split.
  - intros bot_identity tick. by apply rollout_of_no_legal_action.
  - by apply think_no_legal_action.
Qed.

Lemma no_legal_action_raises_witness :
  (∀ bot_identity tick,
     rollout_of stuck_board Pairs.rand Vanilla 5 0%nat bot_identity tick
       = Raise IndexError) ∧
  think float stuck_board Pairs.rand fixture_frames Vanilla 5 0%nat = Raise NoneTypeError.
Proof.
  exact (no_legal_action_raises float float64 nat nat nat _ _ stuck_board Pairs.rand fixture_frames
           Vanilla 4%nat 0%nat eq_refl eq_refl).
Defined.

(** X21: visits add up.  Provided the game model lists no action twice
    among the legal actions of a state, in every tree that the loop leaves
    the visits of a node whose state is not terminal are the visits of its
    children added up, plus 1 below the root for the pass that created the
    node: every later pass through the node goes through exactly one of its
    children.  So from a state that is not terminal the visits of the
    children of the root add up to the number of passes. *)
Theorem visits_add_up_in_tree (F : Type) (PF : PyFloat F) (Action State Box : Type)
    (EA : EqDecision Action) (EB : EqDecision Box) (board : Board Action State Box)
    (rand : nat → nat) (frames : nat) (v : variant) (fuel : nat) (current_state : State)
    (budget : nat) (h : Heap Action) :
  (∀ s, NoDup (legal_actions board s)) →
  think_tree F board rand frames v fuel current_state budget = Ok h →
  (∀ i n s, h !! i = Some n → node_state board current_state h i s →
     is_ended board s = false →
     visits n =
       match parent n with Some _ => 1 | None => 0 end
       + child_visits h (child_nodes n)) ∧
  (is_ended board current_state = false →
   ∀ r, h !! root_node = Some r → child_visits h (child_nodes r) = Z.of_nat budget).
Proof.
  intros Hnd Hrun.
  pose proof (think_tree_adds_up board rand frames current_state Hnd v fuel budget h Hrun)
    as (_ & Hadd).
  split.
  - intros i n s Hi Hs He. pose proof (Hadd i n s Hi Hs He). lia.
  - intros He r Hr.
    pose proof (think_tree_search_inv board rand frames current_state Hnd v fuel budget h Hrun)
      as Hsearch.
    pose proof (node_state_root_node board current_state h Hsearch) as Hs.
    apply think_tree_inv in Hrun as ((Hwf & _) & r' & Hr' & Hv).
    assert (r' = r) as -> by congruence.
    pose proof (Hadd root_node r current_state Hr Hs He) as Heq.
    pose proof (Hwf root_node r Hr) as Hlink.
    destruct (parent r); [unfold root_node in Hlink; lia | lia].
Qed.

Lemma visits_add_up_in_tree_witness :
  think_tree float Pairs.board Pairs.rand fixture_frames Vanilla 100 Pairs.start 6 = Ok fixture_tree ∧
  ∀ r, fixture_tree !! root_node = Some r →
    child_visits fixture_tree (child_nodes r) = Z.of_nat 6.
Proof.
  split; [exact fixture_tree_run|].
  exact (proj2 (visits_add_up_in_tree float float64 nat Pairs.state nat _ _ Pairs.board
                  Pairs.rand fixture_frames Vanilla 100%nat Pairs.start 6%nat fixture_tree
                  pairs_legal_actions_NoDup fixture_tree_run) eq_refl).
Defined.

(** X22: a child that beats every other child of the root, in win-rate and
    in visits, is the child that [get_best_action] chooses, wherever it
    stands among the children.  For visited children, over the exact
    reals. *)
Theorem get_best_action_dominant (Action : Type) (h : Heap Action) (root : node_id)
    (r : MCTSNode Action) (pre post : list (Action * node_id)) (a : Action)
    (c : node_id) (n : MCTSNode Action) :
  h !! root = Some r → child_nodes r = pre ++ (a, c) :: post →
  h !! c = Some n → 1 ≤ visits n → 0 ≤ wins n →
  (∀ a' c', (a', c') ∈ pre ++ post →
     ∃ n', h !! c' = Some n' ∧ 1 ≤ visits n' ∧ visits n' < visits n ∧
       (win_rate (F := R) (wins n') (visits n') < win_rate (wins n) (visits n))%R) →
  get_best_action R h root = Ok (Some a).
Proof. apply get_best_action_dominant_child. Qed.

Lemma get_best_action_dominant_witness :
  get_best_action R fixture_dominant root_node = Ok (Some child_B).
Proof.
  apply (get_best_action_dominant fixture_action fixture_dominant root_node _
           [(child_A, 1%nat)] [(child_C, 3%nat)] child_B 2%nat (fixture_leaf child_B 5 6)
           eq_refl eq_refl eq_refl); [simpl; lia | simpl; lia|].
  intros a' c' Hin.
  apply elem_of_cons in Hin as [[= -> ->]|Hin].
  - eexists. split; [reflexivity|]. simpl. split; [lia|]. split; [lia|].
    unfold win_rate. simpl. lra.
  - apply elem_of_cons in Hin as [[= -> ->]|Hin]; [|by apply elem_of_nil in Hin].
    eexists. split; [reflexivity|]. simpl. split; [lia|]. split; [lia|].
    unfold win_rate. simpl. lra.
Defined.
